(** * Protein-interaction network explorer: graph preparation and filtering

    A shallow embedding of the repository's offline pipeline
    ([scripts/tsv-to-graph.js], with and without the locality view, and
    [scripts/generate-graph.js]) and of the filter engine and focus state
    machine of [GraphViewer.tsx], together with the properties the
    specification states about them.

    Conventions.
    - A JavaScript string is a Rocq [string]: a sequence of 8-bit code units.
    - A JavaScript number that is not NaN is a rational [Q]; finite doubles are
      ordered as the rationals they denote.  [NaN] is kept apart in [jsnum].
    - Plain objects used as dictionaries are [gmap string _]; a JavaScript
      [Set] that is iterated is a duplicate-free list in insertion order, a
      [Set] that is only tested for membership is a [gset string].
    - An index that is [-1] in the source is [None]. *)

From Stdlib Require Import Ascii QArith Qminmax Qabs Qround.
From stdpp Require Import gmap strings list fin_maps.

Local Open Scope stdpp_scope.

(** ** JavaScript string primitives *)

Module Js.

(** White space removed by [String.prototype.trim], on 8-bit code units. *)
Definition isWhiteSpace (c : ascii) : bool :=
  let n := nat_of_ascii c in
  ((9 <=? n)%nat && (n <=? 13)%nat) || (n =? 32)%nat || (n =? 160)%nat.

Fixpoint trimStart (s : string) : string :=
  match s with
  | EmptyString => EmptyString
  | String c s' => if isWhiteSpace c then trimStart s' else s
  end.

Definition trim (s : string) : string :=
  String.rev (trimStart (String.rev (trimStart s))).

Definition lowerChar (c : ascii) : ascii :=
  let n := nat_of_ascii c in
  if ((65 <=? n)%nat && (n <=? 90)%nat)
     || ((192 <=? n)%nat && (n <=? 222)%nat && negb (n =? 215)%nat)
  then ascii_of_nat (n + 32) else c.

Fixpoint toLowerCase (s : string) : string :=
  match s with
  | EmptyString => EmptyString
  | String c s' => String (lowerChar c) (toLowerCase s')
  end.

(** [startsWith p s] is [s.startsWith(p)]. *)
Fixpoint startsWith (p s : string) : bool :=
  match p, s with
  | EmptyString, _ => true
  | String _ _, EmptyString => false
  | String a p', String b s' => Ascii.eqb a b && startsWith p' s'
  end.

(** [includes s p] is [s.includes(p)]. *)
Fixpoint includes (s p : string) : bool :=
  startsWith p s ||
  match s with
  | EmptyString => false
  | String _ s' => includes s' p
  end.

(** [splitBy sep s] is [s.split(...)] for a separator that is one code unit
    out of the class [sep]. *)
Fixpoint splitBy (sep : ascii → bool) (s : string) : list string :=
  match s with
  | EmptyString => [EmptyString]
  | String c s' =>
      if sep c then EmptyString :: splitBy sep s'
      else match splitBy sep s' with
           | [] => [String c EmptyString]
           | h :: t => String c h :: t
           end
  end.

(** A string is truthy when it is not empty. *)
Definition truthy (s : string) : bool := negb (String.eqb s "").

(** [findIndex p l]: the first index whose element satisfies [p]. *)
Fixpoint findIndex {A} (p : A → bool) (l : list A) : option nat :=
  match l with
  | [] => None
  | x :: l' => if p x then Some 0%nat else S <$> findIndex p l'
  end.

(** [s < t] on strings: code units compared lexicographically. *)
Definition lt (s t : string) : bool := String.ltb s t.

(** Insertion into a [Set] that keeps insertion order. *)
Definition setAdd (x : string) (l : list string) : list string :=
  if bool_decide (x ∈ l) then l else l ++ [x].

(** Numbers: [NaN] or a finite value. *)
Inductive jsnum := NaN | Num (q : Q).


(** [q1 < q2] on finite numbers. *)
Definition ltNum (x y : Q) : bool := negb (Qle_bool y x).

End Js.

(** ** graphology: the simple (non-multi) graph the pipeline assembles

    The library keeps nodes and edges in insertion order.  Only what the
    scripts call is modelled: [addNode], [hasNode], [addEdgeWithKey] (which
    throws on an unknown endpoint, on a key already in use and, the graph not
    being a multigraph, on a second edge between the same endpoints),
    [degree] (an edge counts once for each of its ends, so a self-loop counts
    twice), [forEachNode] and [forEachEdge] (iteration over [nodes] and
    [edges]).  A throw is [None]. *)

Module Graphology.

Record EdgeData := {
  key : string;
  source : string;
  target : string;
  weight : option Q;
  allDBs : option string;
  afmprob : option Q }.

Record Graph := { nodes : list string; edges : list EdgeData }.

Definition empty : Graph := {| nodes := []; edges := [] |}.

Definition hasNode (g : Graph) (n : string) : bool := bool_decide (n ∈ nodes g).

Definition addNode (g : Graph) (n : string) : option Graph :=
  if hasNode g n then None
  else Some {| nodes := nodes g ++ [n]; edges := edges g |}.

(** Two endpoints already linked: in either orientation when undirected. *)
Definition linked (directed : bool) (a b : string) (e : EdgeData) : bool :=
  (String.eqb (source e) a && String.eqb (target e) b)
  || (negb directed && String.eqb (source e) b && String.eqb (target e) a).

Definition addEdgeWithKey (directed : bool) (g : Graph) (e : EdgeData) : option Graph :=
  if negb (hasNode g (source e)) || negb (hasNode g (target e)) then None
  else if existsb (λ e', String.eqb (key e') (key e)) (edges g) then None
  else if existsb (linked directed (source e) (target e)) (edges g) then None
  else Some {| nodes := nodes g; edges := edges g ++ [e] |}.

Definition ends (n : string) (e : EdgeData) : nat :=
  (if String.eqb (source e) n then 1 else 0) + (if String.eqb (target e) n then 1 else 0).

Definition degree (g : Graph) (n : string) : nat :=
  foldr (λ e acc, ends n e + acc)%nat 0%nat (edges g).

(** The invariant graphology maintains: every edge joins two nodes. *)
Definition wf (g : Graph) : Prop :=
  ∀ e, e ∈ edges g → source e ∈ nodes g ∧ target e ∈ nodes g.

End Graphology.

(** ** The generated dataset (the JSON both scripts write)

    Coordinates, sizes, community ids and the cluster list come from the
    layout and community oracles and from [Math.random]; no field modelled
    here reads them, and they are left out.  A field that the script does not
    write for a node is [None]. *)

Module Dataset.

Record Node := {
  id : string;
  label : string;
  degree : nat;
  allDBs : option (list string);
  hasAllDBsNone : option bool;
  baseId : option string;
  locality : option string }.

Record Edge := {
  eid : string;
  source : string;
  target : string;
  weight : Q;
  edgeAllDBs : string;
  afmprob : option Q }.

Record t := {
  order : nat;
  size : nat;
  view : option string;
  nodes : list Node;
  edges : list Edge;
  adjacency : gmap string (list string) }.

(** [adjacency[k].push(v)]: a [TypeError] when [adjacency[k]] is undefined. *)
Definition push (k v : string) (adj : gmap string (list string))
  : option (gmap string (list string)) :=
  match adj !! k with
  | Some l => Some (<[k := l ++ [v]]> adj)
  | None => None
  end.

(** The neighbours listed for a node ([[]] when it has no entry). *)
Definition neighbours (d : t) (n : string) : list string :=
  default [] (adjacency d !! n).

End Dataset.

(** ** The export loop shared by [tsv-to-graph.js] and [generate-graph.js]

    [graph.forEachNode] pushes one output node per graph node and starts its
    adjacency list; [graph.forEachEdge] pushes one output edge per graph edge
    and appends each end to the other end's adjacency list. *)

Module Exporter.
Import Graphology.

Fixpoint initAdjacency (ns : list string) (adj : gmap string (list string))
  : gmap string (list string) :=
  match ns with
  | [] => adj
  | n :: rest => initAdjacency rest (<[n := []]> adj)
  end.

Definition exportNodes (mk : string → nat → Dataset.Node) (g : Graph)
  : list Dataset.Node :=
  (λ n, mk n (degree g n)) <$> nodes g.

Definition exportEdge (e : EdgeData) : Dataset.Edge :=
  {| Dataset.eid := key e;
     Dataset.source := source e;
     Dataset.target := target e;
     Dataset.weight := default 1%Q (weight e);
     Dataset.edgeAllDBs := default "" (allDBs e);
     Dataset.afmprob := afmprob e |}.

Fixpoint exportEdges (es : list EdgeData)
    (out : list Dataset.Edge) (adj : gmap string (list string))
  : option (list Dataset.Edge * gmap string (list string)) :=
  match es with
  | [] => Some (out, adj)
  | e :: rest =>
      adj1 ← Dataset.push (source e) (target e) adj;
      adj2 ← Dataset.push (target e) (source e) adj1;
      exportEdges rest (out ++ [exportEdge e]) adj2
  end.

Definition export (mk : string → nat → Dataset.Node) (g : Graph) : option Dataset.t :=
  let nodesOut := exportNodes mk g in
  '(edgesOut, adjacency) ← exportEdges (edges g) [] (initAdjacency (nodes g) ∅);
  Some {| Dataset.order := length nodesOut;
          Dataset.size := length edgesOut;
          Dataset.view := None;
          Dataset.nodes := nodesOut;
          Dataset.edges := edgesOut;
          Dataset.adjacency := adjacency |}.

End Exporter.

(** ** [scripts/generate-graph.js]

    [random.erdosRenyi] is a library generator: all that is known of its
    result is that it is a graph.  [generateGraph] exports it. *)

Module GenerateGraph.

Definition nodeOut (n : string) (degree : nat) : Dataset.Node :=
  {| Dataset.id := n;
     Dataset.label := "n" +:+ n;
     Dataset.degree := degree;
     Dataset.allDBs := None;
     Dataset.hasAllDBsNone := None;
     Dataset.baseId := None;
     Dataset.locality := None |}.

Definition generateGraph (g : Graphology.Graph) : option Dataset.t :=
  Exporter.export nodeOut g.

End GenerateGraph.

(** ** [scripts/tsv-to-graph.js]: ingestion and graph assembly

    The script exists in two versions.  The later one adds the locality
    columns, [edgesRawLoc], [proteinToLocs] and a second output file, and is
    otherwise line for line the earlier one; the model follows the later
    version, and [run] (the earlier script) uses the part they share.

    [Number] is the JavaScript primitive; it is a parameter of the model.
    Between assembly and export the script calls the layout ([fa2.assign])
    and the community detection ([louvain.assign]): library calls that write
    coordinates and community ids, leave the nodes and edges as they are, and
    are taken to return.  Writing the output file is taken to succeed. *)

Module TsvToGraph.
Import Js.

Record Args := {
  sourceCol : string;
  targetCol : string;
  locality1Col : string;
  locality2Col : string;
  name1Col : string;
  name2Col : string;
  weightCol : option string;
  allDBsCol : string;
  directed : bool;
  afmprobCol : string;
  limit : option nat }.

(** The columns [run] looks for when no flag is given. *)
Definition defaultArgs : Args :=
  {| sourceCol := "protein1"; targetCol := "protein2";
     locality1Col := "locality1"; locality2Col := "locality2";
     name1Col := "name1"; name2Col := "name2";
     weightCol := None; allDBsCol := "allDBs"; directed := false;
     afmprobCol := "AFMprob"; limit := None |}.

Definition isAlnum (c : ascii) : bool :=
  let n := nat_of_ascii c in
  ((97 <=? n)%nat && (n <=? 122)%nat) || ((48 <=? n)%nat && (n <=? 57)%nat).

Fixpoint keep (p : ascii → bool) (s : string) : string :=
  match s with
  | EmptyString => EmptyString
  | String c s' => if p c then String c (keep p s') else keep p s'
  end.

(** [norm = s => String(s).trim().toLowerCase().replace(/[^a-z0-9]/g, '')] *)
Definition norm (s : string) : string := keep isAlnum (toLowerCase (trim s)).

(** [weightCol ? norm(weightCol) : null] and its siblings. *)
Definition want (col : string) : option string :=
  if truthy col then Some (norm col) else None.

Definition matches (w h : string) : bool := String.eqb h w || includes h w.

(** [want ? colsNorm.findIndex(h => h === want || h.includes(want)) : -1] *)
Definition findCol (w : option string) (colsNorm : list string) : option nat :=
  match w with
  | Some w => if truthy w then findIndex (matches w) colsNorm else None
  | None => None
  end.

(** The column indices, as they stand once the header line has been found. *)
Record Cols := {
  sIdx : nat;
  tIdx : nat;
  wIdx : option nat;
  n1Idx : option nat;
  n2Idx : option nat;
  adbIdx : option nat;
  apIdx : option nat;
  loc1Idx : option nat;
  loc2Idx : option nat }.

Definition isTab (c : ascii) : bool := Ascii.eqb c "009"%char.

(** The body of [if (header === null) { ... }]: [Some] when the line yields
    both a source and a target column. *)
Definition detectHeader (args : Args) (line : string) : option Cols :=
  let cols := splitBy isTab line in
  let colsNorm := norm <$> cols in
  match findIndex (matches (norm (sourceCol args))) colsNorm,
        findIndex (matches (norm (targetCol args))) colsNorm with
  | Some s, Some t =>
      Some {| sIdx := s; tIdx := t;
              wIdx := findCol (weightCol args ≫= want) colsNorm;
              n1Idx := findCol (want (name1Col args)) colsNorm;
              n2Idx := findCol (want (name2Col args)) colsNorm;
              adbIdx := findCol (want (allDBsCol args)) colsNorm;
              apIdx := findCol (want (afmprobCol args)) colsNorm;
              loc1Idx := findCol (want (locality1Col args)) colsNorm;
              loc2Idx := findCol (want (locality2Col args)) colsNorm |}
  | _, _ => None
  end.

Record RawEdge := {
  ra : string;
  rb : string;
  rw : Q;
  radb : string;
  rap : option jsnum }.

Record RawEdgeLoc := {
  la : string;
  lb : string;
  lw : jsnum;
  ladb : string;
  lap : option jsnum;
  locs1 : list string;
  locs2 : list string }.

Record Acc := {
  nodeSet : list string;
  edgesRaw : list RawEdge;
  edgesRawLoc : list RawEdgeLoc;
  idToLabel : gmap string string;
  nodeIdToAllDBs : gmap string (list string);
  nodeHasNone : gmap string bool;
  proteinToLocs : gmap string (list string) }.

Definition emptyAcc : Acc :=
  {| nodeSet := []; edgesRaw := []; edgesRawLoc := [];
     idToLabel := ∅; nodeIdToAllDBs := ∅; nodeHasNone := ∅; proteinToLocs := ∅ |}.

(** [(parts[i] || '').trim()] *)
Definition cell (parts : list string) (i : nat) : string :=
  trim (default "" (parts !! i)).

(** [idx >= 0 ? String((parts[idx] || '').trim()) : ''] *)
Definition cellOr (parts : list string) (i : option nat) : string :=
  match i with Some i => cell parts i | None => "" end.

(** [if (d && !idToLabel[id]) idToLabel[id] = d] *)
Definition setLabel (id d : string) (m : gmap string string) : gmap string string :=
  if truthy d && negb (from_option truthy false (m !! id)) then <[id := d]> m else m.

Definition captureName (parts : list string) (i : option nat) (id : string)
    (m : gmap string string) : gmap string string :=
  match i with Some i => setLabel id (cell parts i) m | None => m end.

(** The provenance test the scripts and the viewer share:
    [(v || '').trim().toLowerCase() === 'none']. *)
Definition isNone (v : string) : bool := String.eqb (toLowerCase (trim v)) "none".

(** [addADB(id, v)], on the pair of dictionaries it updates. *)
Definition addADB (id v : string)
    (st : gmap string (list string) * gmap string bool)
  : gmap string (list string) * gmap string bool :=
  if negb (truthy v) then st
  else
    let dbs := <[id := setAdd v (default [] (st.1 !! id))]> st.1 in
    (dbs, if isNone v then <[id := true]> st.2 else st.2).

Definition isLocSep (c : ascii) : bool :=
  Ascii.eqb c ","%char || Ascii.eqb c ";"%char || Ascii.eqb c "|"%char.

(** [splitLocs = s => String(s || '').split(/[,;|]/g).map(x => x.trim()).filter(Boolean)] *)
Definition splitLocs (s : string) : list string :=
  filter (λ x, Is_true (truthy x)) (trim <$> splitBy isLocSep s).

(** [addLocs(id, arr)] *)
Definition addLocs (id : string) (arr : list string)
    (m : gmap string (list string)) : gmap string (list string) :=
  match arr with
  | [] => m
  | _ => <[id := foldl (λ s L, setAdd L s) (default [] (m !! id)) arr]> m
  end.

Section WithNumber.
Context (Number : string → jsnum).

(** [Number((parts[i] || '').trim() || '0')] *)
Definition numCell (parts : list string) (i : nat) : jsnum :=
  let s := cell parts i in Number (if truthy s then s else "0").

(** One data row, from [const parts = line.split('\t')] to the end of the
    loop body. *)
Definition ingestRow (c : Cols) (line : string) (acc : Acc) : Acc :=
  let parts := splitBy isTab line in
  let a := cell parts (sIdx c) in
  let b := cell parts (tIdx c) in
  if negb (truthy a) || negb (truthy b) then acc
  else
    let labels := captureName parts (n2Idx c) b
                    (captureName parts (n1Idx c) a (idToLabel acc)) in
    let w := match wIdx c with Some i => numCell parts i | None => Num 1 end in
    let adb := cellOr parts (adbIdx c) in
    let ap := numCell parts <$> apIdx c in
    let l1 := splitLocs (cellOr parts (loc1Idx c)) in
    let l2 := splitLocs (cellOr parts (loc2Idx c)) in
    let raw := {| ra := a; rb := b;
                  rw := match w with NaN => 1 | Num q => q end;
                  radb := adb; rap := ap |} in
    let rawLoc := {| la := a; lb := b; lw := w; ladb := adb; lap := ap;
                     locs1 := l1; locs2 := l2 |} in
    let meta := addADB b adb (addADB a adb (nodeIdToAllDBs acc, nodeHasNone acc)) in
    {| nodeSet := setAdd b (setAdd a (nodeSet acc));
       edgesRaw := edgesRaw acc ++ [raw];
       edgesRawLoc := edgesRawLoc acc ++ [rawLoc];
       idToLabel := labels;
       nodeIdToAllDBs := meta.1;
       nodeHasNone := meta.2;
       proteinToLocs := addLocs b l2 (addLocs a l1 (proteinToLocs acc)) |}.

(** [++row > limit] *)
Definition overLimit (row : nat) (lim : option nat) : bool :=
  match lim with Some n => (n <? row)%nat | None => false end.

(** The [for await (const line of rl)] loop.  It returns the header state it
    ends in together with what it accumulated. *)
Fixpoint ingest (args : Args) (lines : list string)
    (header : option Cols) (row : nat) (acc : Acc) : option Cols * Acc :=
  match lines with
  | [] => (header, acc)
  | line :: rest =>
      if negb (truthy line) then ingest args rest header row acc
      else if startsWith "#" line then ingest args rest header row acc
      else match header with
           | None => ingest args rest (detectHeader args line) row acc
           | Some c =>
               if overLimit (S row) (limit args) then (header, acc)
               else ingest args rest header (S row) (ingestRow c line acc)
           end
  end.

(** [directed ? `${a}->${b}` : a < b ? `${a}|${b}` : `${b}|${a}`] *)
Definition edgeKey (directed : bool) (a b : string) : string :=
  if directed then a +:+ "->" +:+ b
  else if lt a b then a +:+ "|" +:+ b else b +:+ "|" +:+ a.

(** [typeof ap === 'number' && !Number.isNaN(ap) ? ap : undefined] *)
Definition afmprobOf (ap : option jsnum) : option Q :=
  match ap with Some (Num q) => Some q | _ => None end.

(** [for (const id of nodeSet) graph.addNode(id, ...)] *)
Fixpoint addNodes (ids : list string) (g : Graphology.Graph) : option Graphology.Graph :=
  match ids with
  | [] => Some g
  | id :: rest => g' ← Graphology.addNode g id; addNodes rest g'
  end.

Definition graphEdge (k : string) (r : RawEdge) : Graphology.EdgeData :=
  {| Graphology.key := k;
     Graphology.source := ra r;
     Graphology.target := rb r;
     Graphology.weight := Some (rw r);
     Graphology.allDBs := Some (radb r);
     Graphology.afmprob := afmprobOf (rap r) |}.

(** [for (const [a, b, w, adb, ap] of edgesRaw) { ... }] with its [seen] set. *)
Fixpoint addEdges (directed : bool) (raw : list RawEdge)
    (seen : gset string) (g : Graphology.Graph) : option Graphology.Graph :=
  match raw with
  | [] => Some g
  | r :: rest =>
      if negb (Graphology.hasNode g (ra r)) || negb (Graphology.hasNode g (rb r))
      then addEdges directed rest seen g
      else
        let k := edgeKey directed (ra r) (rb r) in
        if bool_decide (k ∈ seen) then addEdges directed rest seen g
        else
          g' ← Graphology.addEdgeWithKey directed g (graphEdge k r);
          addEdges directed rest ({[k]} ∪ seen) g'
  end.

(** [idToLabel[id] ? String(idToLabel[id]) : String(id)] *)
Definition labelOf (acc : Acc) (id : string) : string :=
  match idToLabel acc !! id with
  | Some l => if truthy l then l else id
  | None => id
  end.

Definition nodeOut (acc : Acc) (id : string) (degree : nat) : Dataset.Node :=
  {| Dataset.id := id;
     Dataset.label := labelOf acc id;
     Dataset.degree := degree;
     Dataset.allDBs := Some (default [] (nodeIdToAllDBs acc !! id));
     Dataset.hasAllDBsNone := Some (default false (nodeHasNone acc !! id));
     Dataset.baseId := None;
     Dataset.locality := None |}.

(** What the script is started on: no [--input], a path that does not exist,
    or a file, given as the lines [readline] yields. *)
Inductive Input :=
  | NoInputArg
  | InputNotFound
  | InputLines (lines : list string).

Inductive Message := MissingInput | InputNotFoundMsg | Uncaught.

(** What a run leaves behind: the exit code of the process, what it printed
    with [console.error], and the datasets it wrote, in order. *)
Record Outcome := {
  exitCode : nat;
  stderr : list Message;
  written : list Dataset.t }.

Definition assemble (args : Args) (acc : Acc) : option Graphology.Graph :=
  g ← addNodes (nodeSet acc) Graphology.empty;
  addEdges (directed args) (edgesRaw acc) ∅ g.

Definition defaultView (args : Args) (acc : Acc) : option Dataset.t :=
  g ← assemble args acc;
  Exporter.export (nodeOut acc) g.

(** [run], earlier version: one output file. *)
Definition run (args : Args) (input : Input) : Outcome :=
  match input with
  | NoInputArg => {| exitCode := 1; stderr := [MissingInput]; written := [] |}
  | InputNotFound => {| exitCode := 1; stderr := [InputNotFoundMsg]; written := [] |}
  | InputLines lines =>
      let acc := (ingest args lines None 0 emptyAcc).2 in
      match defaultView args acc with
      | Some out => {| exitCode := 0; stderr := []; written := [out] |}
      | None => {| exitCode := 1; stderr := [Uncaught]; written := [] |}
      end
  end.

(** *** The locality view *)

(** [nodeKey = (id, loc) => `${id}@${loc || 'unknown'}`] *)
Definition nodeKey (id loc : string) : string :=
  id +:+ "@" +:+ (if truthy loc then loc else "unknown").

(** [proteinToLocs[id] ? Array.from(proteinToLocs[id]) : ['unknown']] *)
Definition locsOf (acc : Acc) (id : string) : list string :=
  default ["unknown"] (proteinToLocs acc !! id).

Record Instances := {
  nodesOutL : list Dataset.Node;
  adjacencyL : gmap string (list string);
  nodeSeenL : gset string }.

Definition instanceNode (acc : Acc) (id loc : string) : Dataset.Node :=
  {| Dataset.id := nodeKey id loc;
     Dataset.label := labelOf acc id +:+ " (" +:+ loc +:+ ")";
     Dataset.degree := 0;
     Dataset.allDBs := None;
     Dataset.hasAllDBsNone := None;
     Dataset.baseId := Some id;
     Dataset.locality := Some loc |}.

(** The body of [for (const loc of locs)]. *)
Definition addInstance (acc : Acc) (id : string) (st : Instances) (loc : string)
  : Instances :=
  let k := nodeKey id loc in
  if bool_decide (k ∈ nodeSeenL st) then st
  else {| nodesOutL := nodesOutL st ++ [instanceNode acc id loc];
          adjacencyL := <[k := []]> (adjacencyL st);
          nodeSeenL := {[k]} ∪ nodeSeenL st |}.

(** [for (const id of nodeSet) { ... }] *)
Definition createInstances (acc : Acc) : Instances :=
  foldl (λ st id, foldl (addInstance acc id) st (locsOf acc id))
        {| nodesOutL := []; adjacencyL := ∅; nodeSeenL := ∅ |}
        (nodeSet acc).

(** [nodesOutL.forEach((n, i) => nodeIndexL[n.id] = i)] *)
Fixpoint indexNodes (ns : list Dataset.Node) (i : nat) (m : gmap string nat)
  : gmap string nat :=
  match ns with
  | [] => m
  | n :: rest => indexNodes rest (S i) (<[Dataset.id n := i]> m)
  end.

(** [l[0] || 'unknown'] *)
Definition firstOr (l : list string) : string :=
  match l with
  | x :: _ => if truthy x then x else "unknown"
  | [] => "unknown"
  end.

(** The localities an endpoint is looked up under: those its own row gives
    it, else all those of the protein, else ['unknown']. *)
Definition rowLocs (acc : Acc) (id : string) (locs : list string) : list string :=
  match locs with
  | [] => locsOf acc id
  | _ => locs
  end.

(** [usedALoc] and [usedBLoc] after the intersection loop. *)
Definition usedLocs (aLocs bLocs : list string) : string * string :=
  match List.find (λ l, bool_decide (l ∈ bLocs)) aLocs with
  | Some l => (l, l)
  | None => (firstOr aLocs, firstOr bLocs)
  end.

Definition route (acc : Acc) (r : RawEdgeLoc) : string * string :=
  let used := usedLocs (rowLocs acc (la r) (locs1 r)) (rowLocs acc (lb r) (locs2 r)) in
  (nodeKey (la r) used.1, nodeKey (lb r) used.2).

(** [aKey < bKey ? `${aKey}|${bKey}` : `${bKey}|${aKey}`] *)
Definition edgeIdL (aKey bKey : string) : string :=
  if lt aKey bKey then aKey +:+ "|" +:+ bKey else bKey +:+ "|" +:+ aKey.

(** [w || 1] *)
Definition weightOr1 (w : jsnum) : Q :=
  match w with
  | NaN => 1
  | Num q => if Qeq_bool q 0 then 1 else q
  end.

Definition edgeOutL (aKey bKey : string) (r : RawEdgeLoc) : Dataset.Edge :=
  {| Dataset.eid := edgeIdL aKey bKey;
     Dataset.source := aKey;
     Dataset.target := bKey;
     Dataset.weight := weightOr1 (lw r);
     Dataset.edgeAllDBs := ladb r;
     Dataset.afmprob := afmprobOf (lap r) |}.

Definition incDegree (n : Dataset.Node) : Dataset.Node :=
  {| Dataset.id := Dataset.id n;
     Dataset.label := Dataset.label n;
     Dataset.degree := S (Dataset.degree n);
     Dataset.allDBs := Dataset.allDBs n;
     Dataset.hasAllDBsNone := Dataset.hasAllDBsNone n;
     Dataset.baseId := Dataset.baseId n;
     Dataset.locality := Dataset.locality n |}.

Record EdgesL := {
  seenEdgesL : gset string;
  edgesOutL : list Dataset.Edge;
  adjL : gmap string (list string);
  nodesL : list Dataset.Node }.

(** [for (const [a, b, w, adb, ap, locs1, locs2] of edgesRawLoc) { ... }] *)
Fixpoint addEdgesL (acc : Acc) (nodeIndexL : gmap string nat)
    (raw : list RawEdgeLoc) (st : EdgesL) : option EdgesL :=
  match raw with
  | [] => Some st
  | r :: rest =>
      let aKey := (route acc r).1 in
      let bKey := (route acc r).2 in
      match nodeIndexL !! aKey, nodeIndexL !! bKey with
      | Some i, Some j =>
          let edgeId := edgeIdL aKey bKey in
          if bool_decide (edgeId ∈ seenEdgesL st) then addEdgesL acc nodeIndexL rest st
          else
            adj1 ← Dataset.push aKey bKey (adjL st);
            adj2 ← Dataset.push bKey aKey adj1;
            addEdgesL acc nodeIndexL rest
              {| seenEdgesL := {[edgeId]} ∪ seenEdgesL st;
                 edgesOutL := edgesOutL st ++ [edgeOutL aKey bKey r];
                 adjL := adj2;
                 nodesL := alter incDegree j (alter incDegree i (nodesL st)) |}
      | _, _ => addEdgesL acc nodeIndexL rest st
      end
  end.

Definition localityView (acc : Acc) : option Dataset.t :=
  let inst := createInstances acc in
  st ← addEdgesL acc (indexNodes (nodesOutL inst) 0 ∅) (edgesRawLoc acc)
         {| seenEdgesL := ∅; edgesOutL := [];
            adjL := adjacencyL inst; nodesL := nodesOutL inst |};
  Some {| Dataset.order := length (nodesL st);
          Dataset.size := length (edgesOutL st);
          Dataset.view := Some "locality";
          Dataset.nodes := nodesL st;
          Dataset.edges := edgesOutL st;
          Dataset.adjacency := adjL st |}.

(** [run], later version: the default view, then the locality view. *)
Definition runLocality (args : Args) (input : Input) : Outcome :=
  match input with
  | NoInputArg => {| exitCode := 1; stderr := [MissingInput]; written := [] |}
  | InputNotFound => {| exitCode := 1; stderr := [InputNotFoundMsg]; written := [] |}
  | InputLines lines =>
      let acc := (ingest args lines None 0 emptyAcc).2 in
      match defaultView args acc with
      | Some out =>
          match localityView acc with
          | Some outLoc => {| exitCode := 0; stderr := []; written := [out; outLoc] |}
          | None => {| exitCode := 1; stderr := [Uncaught]; written := [out] |}
          end
      | None => {| exitCode := 1; stderr := [Uncaught]; written := [] |}
      end
  end.

End WithNumber.

End TsvToGraph.

(** ** Sample data for the examples

    [decimal] reads an unsigned decimal literal ([12], [0.95], [.5]) as
    [Number] does and answers [NaN] to anything else; it stands in for
    [Number] where an example has to run. *)

Module Sample.
Import Js.

Definition digit (c : ascii) : option Z :=
  let n := nat_of_ascii c in
  if (48 <=? n)%nat && (n <=? 57)%nat then Some (Z.of_nat (n - 48)) else None.

(** Digits before the point accumulate in [num]; after it, [den] grows too. *)
Fixpoint digits (s : string) (frac : bool) (num : Z) (den : positive) : option Q :=
  match s with
  | EmptyString => Some (num # den)
  | String c s' =>
      if Ascii.eqb c "."%char then
        if frac then None else digits s' true num den
      else
        match digit c with
        | Some d => digits s' frac (10 * num + d) (if frac then 10 * den else den)
        | None => None
        end
  end.

Definition decimal (s : string) : jsnum :=
  match s with
  | EmptyString => Num 0
  | "." => NaN
  | _ => match digits s false 0 1 with Some q => Num (Qred q) | None => NaN end
  end.

Definition tab : string := String "009"%char EmptyString.

(** A row of tab-separated cells. *)
Definition tsv (cells : list string) : string :=
  match cells with
  | [] => ""
  | c :: rest => foldl (λ s x, s +:+ tab +:+ x) c rest
  end.

Definition headerLine : string := tsv ["protein1"; "protein2"; "allDBs"; "AFMprob"].

(** The table of the two scenarios of the specification. *)
Definition scenario : list string :=
  [ headerLine;
    tsv ["p1"; "p2"; "dbX"; "0.9"];
    tsv ["p2"; "p3"; "none"; "0.95"];
    tsv ["p1"; "p3"; "none"; "0.2"] ].

End Sample.

(** ** [GraphViewer]: the filter engine and the focus state machine

    The viewer keeps a graphology graph whose node and edge attributes it
    rewrites.  Of the attributes only those that filtering and focusing read
    or write are kept: colours, labels, sizes and the DOM overlays are not
    modelled.  The camera is the renderer's: [animate] is taken at its end
    state, that is, the [camera] field is where the camera rests once the
    animation that was started last has run. *)

Module Viewer.
Import Js.

Record Node := {
  id : string;
  isCluster : bool;
  degree : Z;
  x : Q;
  y : Q;
  hidden : bool }.

Record Edge := {
  key : string;
  source : string;
  target : string;
  allDBs : string;
  afmprob : option Q;
  edgeHidden : bool }.

Record Graph := { nodes : list Node; edges : list Edge }.

(** The filter parameters a pass reads: the degree floor, the only-new
    toggle and the confidence floor ([degreeThresholdRef], [showOnlyNewRef]
    and, according to the pass, [confidenceRef] or the [confidence] of the
    render the pass belongs to). *)
Record Filters := {
  thr : Z;
  onlyNew : bool;
  conf : Q }.

Record Totals := { nodesTotal : nat; edgesTotal : nat; blueEdges : nat }.

(** [String(adb).trim().toLowerCase() === 'none'] *)
Definition isNone (adb : string) : bool := TsvToGraph.isNone adb.

(** [thr > 0 && deg < thr] *)
Definition hideByDeg (f : Filters) (deg : Z) : bool :=
  (0 <? thr f)%Z && (deg <? thr f)%Z.

(** [onlyNew && !nodesBlueSetRef.current.has(n)] *)
Definition hideByNewNode (f : Filters) (blue : gset string) (n : string) : bool :=
  onlyNew f && negb (bool_decide (n ∈ blue)).

(** [typeof ap === 'number' && ap < conf] *)
Definition hideByConf (f : Filters) (ap : option Q) : bool :=
  match ap with
  | Some a => ltNum a (conf f)
  | None => false
  end.

(** [onlyNew && !isNone] *)
Definition hideByNewEdge (f : Filters) (adb : string) : bool :=
  onlyNew f && negb (isNone adb).

(** The first loop of [recomputeTotalsImmediate]: the count of visible
    nodes and the set [visibleNodes]. *)
Definition countNodes (f : Filters) (blue : gset string) (ns : list Node)
  : nat * gset string :=
  foldl (λ acc n,
           if isCluster n then acc
           else if hideByDeg f (degree n) || hideByNewNode f blue (id n) then acc
           else (S acc.1, {[id n]} ∪ acc.2))
        (0%nat, ∅) ns.

(** Its second loop: the counts of visible edges and of visible new edges. *)
Definition countEdges (f : Filters) (visibleNodes : gset string) (es : list Edge)
  : nat * nat :=
  foldl (λ acc e,
           if negb (bool_decide (source e ∈ visibleNodes))
              || negb (bool_decide (target e ∈ visibleNodes)) then acc
           else if hideByConf f (afmprob e) then acc
           else if hideByNewEdge f (allDBs e) then acc
           else (S acc.1, if isNone (allDBs e) then S acc.2 else acc.2))
        (0%nat, 0%nat) es.

Definition recomputeTotalsImmediate (f : Filters) (blue : gset string) (g : Graph)
  : Totals :=
  let nodesPass := countNodes f blue (nodes g) in
  let edgesPass := countEdges f nodesPass.2 (edges g) in
  {| nodesTotal := nodesPass.1; edgesTotal := edgesPass.1; blueEdges := edgesPass.2 |}.

(** The totals the [degreeThreshold] effect sets: the same two loops, the
    second without the confidence test. *)
Definition countEdgesNoConf (f : Filters) (visibleNodes : gset string) (es : list Edge)
  : nat * nat :=
  foldl (λ acc e,
           if negb (bool_decide (source e ∈ visibleNodes))
              || negb (bool_decide (target e ∈ visibleNodes)) then acc
           else if hideByNewEdge f (allDBs e) then acc
           else (S acc.1, if isNone (allDBs e) then S acc.2 else acc.2))
        (0%nat, 0%nat) es.

Definition degreeEffectTotals (f : Filters) (blue : gset string) (g : Graph) : Totals :=
  let nodesPass := countNodes f blue (nodes g) in
  let edgesPass := countEdgesNoConf f nodesPass.2 (edges g) in
  {| nodesTotal := nodesPass.1; edgesTotal := edgesPass.1; blueEdges := edgesPass.2 |}.

Definition setEdgeHidden (h : bool) (e : Edge) : Edge :=
  {| key := key e; source := source e; target := target e;
     allDBs := allDBs e; afmprob := afmprob e; edgeHidden := h |}.

Definition setNodeHidden (h : bool) (n : Node) : Node :=
  {| id := id n; isCluster := isCluster n; degree := degree n;
     x := x n; y := y n; hidden := h |}.

(** The node filter the effects and the defocus path write into [hidden]
    for an ordinary node: [hideByDeg || hideByNew]. *)
Definition nodeFiltered (f : Filters) (blue : gset string) (n : Node) : bool :=
  hideByDeg f (degree n) || hideByNewNode f blue (id n).


(** The [showOnlyNew] effect (and the start of the [degreeThreshold]
    effect): the node filter written to every ordinary node. *)
Definition applyNodeFilter (f : Filters) (blue : gset string) (g : Graph) : Graph :=
  {| nodes := (λ n, if isCluster n then n
                    else setNodeHidden (nodeFiltered f blue n) n) <$> nodes g;
     edges := edges g |}.

(** *** Loading a dataset: the graph [init] builds

    [pos] stands for the coordinates the dataset gives each node.  The
    cluster meta-nodes come from the dataset's cluster list, which the
    dataset model leaves out: the loaded graph has ordinary nodes only.
    graphology throws ([None]) on a node id met twice, on an edge whose end
    is not a node and, the graph not being a multigraph, on a second edge
    from the same source to the same target. *)

(** [e.id || `${e.source}-${e.target}`] *)
Definition loadKey (e : Dataset.Edge) : string :=
  if truthy (Dataset.eid e) then Dataset.eid e
  else Dataset.source e +:+ "-" +:+ Dataset.target e.

Fixpoint loadEdges (ids : list string) (es : list Dataset.Edge) (acc : list Edge)
  : option (list Edge) :=
  match es with
  | [] => Some acc
  | e :: rest =>
      if existsb (λ e', String.eqb (key e') (loadKey e)) acc
      then loadEdges ids rest acc
      else if negb (bool_decide (Dataset.source e ∈ ids))
              || negb (bool_decide (Dataset.target e ∈ ids)) then None
      else if existsb (λ e', String.eqb (source e') (Dataset.source e)
                             && String.eqb (target e') (Dataset.target e)) acc
      then None
      else loadEdges ids rest
             (acc ++ [ {| key := loadKey e;
                          source := Dataset.source e;
                          target := Dataset.target e;
                          allDBs := Dataset.edgeAllDBs e;
                          afmprob := Dataset.afmprob e;
                          edgeHidden := true |} ])
  end.

(** The nodes that touch a "none" edge: [nodesBlueSetRef.current]. *)
Definition nodesBlueOf (es : list Edge) : gset string :=
  foldl (λ acc e, if isNone (allDBs e)
                  then {[source e]} ∪ ({[target e]} ∪ acc) else acc)
        ∅ es.

Definition load (pos : string → Q * Q) (f : Filters) (d : Dataset.t)
  : option (Graph * gset string) :=
  let ids := Dataset.id <$> Dataset.nodes d in
  if negb (bool_decide (NoDup ids)) then None
  else
    es ← loadEdges ids (Dataset.edges d) [];
    let blue := nodesBlueOf es in
    Some ({| nodes :=
               (λ n, {| id := Dataset.id n; isCluster := false;
                        degree := Z.of_nat (Dataset.degree n);
                        x := (pos (Dataset.id n)).1; y := (pos (Dataset.id n)).2;
                        hidden := hideByDeg f (Z.of_nat (Dataset.degree n))
                                  || hideByNewNode f blue (Dataset.id n) |})
               <$> Dataset.nodes d;
             edges := es |}, blue).

(** *** The focus state machine: [setHovered] and its defocus timer *)

Record Camera := { cx : Q; cy : Q; ratio : Q; angle : Q }.

Record State := {
  graph : Graph;
  nodesBlueSet : gset string;
  filters : Filters;
  showEdges : bool;
  showAllEdges : bool;
  clusterMode : bool;
  focusedNode : option string;
  prevCamState : option Camera;
  camera : Camera;
  defocusTimer : bool;
  isAnimating : bool }.

(** [neighbors] as [setHovered] builds it for a node. *)
Definition neighborsOf (f : Filters) (node : string) (es : list Edge) : gset string :=
  foldl (λ acc e,
           if negb (String.eqb (source e) node || String.eqb (target e) node) then acc
           else if hideByNewEdge f (allDBs e) then acc
           else if hideByConf f (afmprob e) then acc
           else {[source e]} ∪ ({[target e]} ∪ acc))
        {[node]} es.

(** The [hidden] flag [setHovered] writes to an ordinary node. *)
Definition hoverNodeHidden (s : State) (node : option string) (neighbors : gset string)
    (n : Node) : bool :=
  if clusterMode s then true
  else match node with
       | Some _ =>
           negb (bool_decide (id n ∈ neighbors))
           || hideByNewNode (filters s) (nodesBlueSet s) (id n)
       | None => nodeFiltered (filters s) (nodesBlueSet s) n
       end.

(** The [hidden] flag [setHovered] writes to an edge. *)
Definition hoverEdgeHidden (s : State) (node : option string) (neighbors : gset string)
    (e : Edge) : bool :=
  let hideByNew := hideByNewEdge (filters s) (allDBs e) in
  let hideConf := hideByConf (filters s) (afmprob e) in
  if showEdges s && negb (showAllEdges s) then
    let visible :=
      match node with
      | Some _ => bool_decide (source e ∈ neighbors) && bool_decide (target e ∈ neighbors)
      | None => false
      end in
    negb visible || hideByNew || hideConf
  else
    let notFocused := negb (from_option truthy false (focusedNode s)) in
    let defaultHidden := negb (showAllEdges s && notFocused) in
    defaultHidden || hideByNew || hideConf.

Definition clamp (v a b : Q) : Q := Qmax a (Qmin b v).

(** [getGraphBounds]: over the ordinary nodes, [{0,0,0,0}] when there are
    none. *)
Definition getGraphBounds (g : Graph) : Q * Q * Q * Q :=
  match filter (λ n, isCluster n = false) (nodes g) with
  | [] => (0%Q, 0%Q, 0%Q, 0%Q)
  | n :: rest =>
      foldl (λ '(minX, minY, maxX, maxY) m,
               (Qmin minX (x m), Qmin minY (y m), Qmax maxX (x m), Qmax maxY (y m)))
            (x n, y n, x n, y n) rest
  end.

(** The camera state a focus on [n] animates to. *)
Definition focusTarget (g : Graph) (cam : Camera) (n : Node) : Camera :=
  let targetRatio := Qmax (1 # 4) (Qmin 1 (ratio cam * (65 # 100)))%Q in
  let '(minX, minY, maxX, maxY) := getGraphBounds g in
  let nx := ((x n - minX) / Qmax (1 # 1000000000) (maxX - minX))%Q in
  let ny := ((y n - minY) / Qmax (1 # 1000000000) (maxY - minY))%Q in
  let m := (targetRatio / 2)%Q in
  {| cx := clamp nx m (1 - m)%Q; cy := clamp ny m (1 - m)%Q;
     ratio := targetRatio; angle := angle cam |}.

(** [prevCamStateRef.current || {ratio: 1}], as the state [animate] ends in. *)
Definition restoreTarget (prev : option Camera) (cam : Camera) : Camera :=
  match prev with
  | Some st => st
  | None => {| cx := cx cam; cy := cy cam; ratio := 1%Q; angle := angle cam |}
  end.

(** The node and edge passes of [setHovered]. *)
Definition hoverPasses (s : State) (node : option string) : Graph :=
  let neighbors :=
    match node with
    | Some n => neighborsOf (filters s) n (edges (graph s))
    | None => ∅
    end in
  {| nodes := (λ n, if isCluster n then n
                    else setNodeHidden (hoverNodeHidden s node neighbors n) n)
              <$> nodes (graph s);
     edges := (λ e, setEdgeHidden (hoverEdgeHidden s node neighbors e) e)
              <$> edges (graph s) |}.

(** [setHovered(node)], the function the throttle wraps: the throttle drops
    a call that comes less than 24 ms after the last call that ran, so a
    call here is one that ran.  An argument that is [undefined] or the
    empty string takes the defocus branch. *)
Definition setHovered (arg : option string) (s : State) : State :=
  let node := match arg with
              | Some n => if truthy n then Some n else None
              | None => None
              end in
  let g := hoverPasses s node in
  match node with
  | Some n =>
      let focusedFalsy := negb (from_option truthy false (focusedNode s)) in
      let prev :=
        if bool_decide (focusedNode s ≠ Some n) && focusedFalsy
        then Some (camera s) else prevCamState s in
      let animates := negb (isAnimating s) in
      let cam :=
        match List.find (λ m, String.eqb (id m) n) (nodes g) with
        | Some m => if animates then focusTarget g (camera s) m else camera s
        | None => camera s
        end in
      {| graph := g; nodesBlueSet := nodesBlueSet s; filters := filters s;
         showEdges := showEdges s; showAllEdges := showAllEdges s;
         clusterMode := clusterMode s;
         focusedNode := Some n;
         prevCamState := prev;
         camera := cam;
         defocusTimer := defocusTimer s;
         isAnimating :=
           match List.find (λ m, String.eqb (id m) n) (nodes g) with
           | Some _ => true
           | None => isAnimating s
           end |}
  | None =>
      {| graph := g; nodesBlueSet := nodesBlueSet s; filters := filters s;
         showEdges := showEdges s; showAllEdges := showAllEdges s;
         clusterMode := clusterMode s;
         focusedNode := focusedNode s;
         prevCamState := prevCamState s;
         camera := camera s;
         defocusTimer := if from_option truthy false (focusedNode s)
                         then true else defocusTimer s;
         isAnimating := isAnimating s |}
  end.

(** The callback of the defocus timer, 180 ms after it was set. *)
Definition defocusTimerFires (s : State) : State :=
  if negb (defocusTimer s) then s
  else
    {| graph :=
         {| nodes := nodes (applyNodeFilter (filters s) (nodesBlueSet s) (graph s));
            edges := (λ e, if hideByNewEdge (filters s) (allDBs e)
                              || hideByConf (filters s) (afmprob e)
                           then setEdgeHidden true e else e) <$> edges (graph s) |};
       nodesBlueSet := nodesBlueSet s; filters := filters s;
       showEdges := showEdges s; showAllEdges := showAllEdges s;
       clusterMode := clusterMode s;
       focusedNode := None;
       prevCamState := prevCamState s;
       camera := restoreTarget (prevCamState s) (camera s);
       defocusTimer := false;
       isAnimating := true |}.

(** The timers that end an animation, 520 ms after it was started. *)
Definition animationTimerFires (s : State) : State :=
  {| graph := graph s; nodesBlueSet := nodesBlueSet s; filters := filters s;
     showEdges := showEdges s; showAllEdges := showAllEdges s;
     clusterMode := clusterMode s; focusedNode := focusedNode s;
     prevCamState := prevCamState s; camera := camera s;
     defocusTimer := defocusTimer s; isAnimating := false |}.

(** What happens to the viewer, one event at a time. *)
Inductive Event :=
  | SetHovered (node : option string)
  | DefocusTimer
  | AnimationTimer.

Definition step (s : State) (ev : Event) : State :=
  match ev with
  | SetHovered node => setHovered node s
  | DefocusTimer => defocusTimerFires s
  | AnimationTimer => animationTimerFires s
  end.

Definition runEvents (s : State) (evs : list Event) : State := foldl step s evs.

(** [focus(n)] is [setHovered(n)]; [defocus] is [setHovered(undefined)]
    followed by its timer. *)
Definition focus (n : string) : Event := SetHovered (Some n).

End Viewer.

(** ** Notions the properties are stated with *)

Module Spec.
Import Js TsvToGraph.

(** "First occurrence wins; later duplicates are dropped": of the rows that
    share a key, keep the earliest. *)
Fixpoint keepFirst {A} (keyOf : A → string) (l : list A) : list A :=
  match l with
  | [] => []
  | r :: rest => r :: filter (λ r', keyOf r' ≠ keyOf r) (keepFirst keyOf rest)
  end.

(** The dataset edge a kept row becomes. *)
Definition edgeOfRow (directed : bool) (r : RawEdge) : Dataset.Edge :=
  {| Dataset.eid := edgeKey directed (ra r) (rb r);
     Dataset.source := ra r;
     Dataset.target := rb r;
     Dataset.weight := rw r;
     Dataset.edgeAllDBs := radb r;
     Dataset.afmprob := afmprobOf (rap r) |}.

(** A line of the input yields the header: the loop looks at it (it is
    neither empty nor a comment) and finds a source and a target column. *)
Definition yieldsHeader (args : Args) (line : string) : bool :=
  truthy line && negb (startsWith "#" line) && bool_decide (is_Some (detectHeader args line)).

(** What one graph edge appends to the adjacency list of [n]. *)
Definition contrib (n : string) (e : Graphology.EdgeData) : list string :=
  (if String.eqb (Graphology.source e) n then [Graphology.target e] else [])
  ++ (if String.eqb (Graphology.target e) n then [Graphology.source e] else []).

(** What [addEdges] relies on: every edge already in the graph carries the
    key of its endpoints, and that key has been seen. *)
Definition keyed (directed : bool) (seen : gset string) (g : Graphology.Graph) : Prop :=
  ∀ e, e ∈ Graphology.edges g →
    Graphology.key e = edgeKey directed (Graphology.source e) (Graphology.target e)
    ∧ Graphology.key e ∈ seen.

(** The graph [run] hands to the layout and to the export. *)
Definition assembled (args : Args) (acc : Acc) : Graphology.Graph :=
  {| Graphology.nodes := nodeSet acc;
     Graphology.edges :=
       (λ r, graphEdge (edgeKey (directed args) (ra r) (rb r)) r)
       <$> keepFirst (λ r, edgeKey (directed args) (ra r) (rb r)) (edgesRaw acc) |}.

(** The row-level key of the locality view: the id of the edge a row is
    routed to. *)
Definition routeId (acc : Acc) (r : RawEdgeLoc) : string :=
  edgeIdL (route acc r).1 (route acc r).2.

(** The locality edge a kept row becomes. *)
Definition routedEdge (acc : Acc) (r : RawEdgeLoc) : Dataset.Edge :=
  edgeOutL (route acc r).1 (route acc r).2 r.

(** What one locality edge appends to the adjacency list of [n]. *)
Definition extra (aKey bKey n : string) : list string :=
  (if String.eqb aKey n then [bKey] else [])
  ++ (if String.eqb bKey n then [aKey] else []).

(** [nodeIndexL] maps each node id to the position of that node. *)
Definition indexed (ids : list string) (idx : gmap string nat) : Prop :=
  (∀ k i, idx !! k = Some i → ids !! i = Some k)
  ∧ (∀ k, k ∈ ids → is_Some (idx !! k)).

(** What the node-instance loop maintains. *)
Record InstOk (st : Instances) : Prop := {
  io_seen : ∀ k, k ∈ nodeSeenL st ↔ k ∈ Dataset.id <$> nodesOutL st;
  io_nodup : NoDup (Dataset.id <$> nodesOutL st);
  io_adj : ∀ k, adjacencyL st !! k
                = if bool_decide (k ∈ nodeSeenL st) then Some [] else None;
  io_fresh : ∀ n, n ∈ nodesOutL st →
             Dataset.degree n = 0%nat ∧ Dataset.hasAllDBsNone n = None }.

(** What the locality edge loop maintains, over the node ids [ids]. *)
Record LocOk (ids : list string) (st : EdgesL) : Prop := {
  lo_ids : Dataset.id <$> nodesL st = ids;
  lo_adj : ∀ k, is_Some (adjL st !! k) ↔ k ∈ ids;
  lo_deg : ∀ p n, nodesL st !! p = Some n →
           Dataset.degree n = length (default [] (adjL st !! Dataset.id n));
  lo_sym : ∀ a b, b ∈ default [] (adjL st !! a) ↔ a ∈ default [] (adjL st !! b);
  lo_flag : ∀ n, n ∈ nodesL st → Dataset.hasAllDBsNone n = None }.

(** The adjacency map lists [b] under [a] exactly when it lists [a] under
    [b]. *)
Definition symmetric (d : Dataset.t) : Prop :=
  ∀ a b, b ∈ Dataset.neighbours d a ↔ a ∈ Dataset.neighbours d b.

(** Every node's degree field is the length of its adjacency list. *)
Definition degreesMatch (d : Dataset.t) : Prop :=
  ∀ n, n ∈ Dataset.nodes d →
    Dataset.degree n = length (Dataset.neighbours d (Dataset.id n)).

(** A row names [n] as one of its two endpoints. *)
Definition touches (n : string) (r : RawEdge) : Prop := ra r = n ∨ rb r = n.

(** A dataset edge is incident to [n]. *)
Definition incident (n : string) (e : Dataset.Edge) : Prop :=
  Dataset.source e = n ∨ Dataset.target e = n.

(** A string in which the code unit [c] does not occur. *)
Fixpoint free (c : ascii) (s : string) : Prop :=
  match s with
  | EmptyString => True
  | String d s' => d ≠ c ∧ free c s'
  end.

(** What ingestion maintains about what it accumulates. *)
Record AccOk (acc : Acc) : Prop := {
  ok_nodup : NoDup (nodeSet acc);
  ok_ends : ∀ r, r ∈ edgesRaw acc → ra r ∈ nodeSet acc ∧ rb r ∈ nodeSet acc;
  ok_none : ∀ n, default false (nodeHasNone acc !! n) = true
                 ↔ ∃ r, r ∈ edgesRaw acc ∧ touches n r ∧ isNone (radb r) = true;
  ok_loc_ends : ∀ r, r ∈ edgesRawLoc acc → la r ∈ nodeSet acc ∧ lb r ∈ nodeSet acc;
  ok_locs1 : ∀ r l, r ∈ edgesRawLoc acc → l ∈ locs1 r →
             ∃ s, proteinToLocs acc !! la r = Some s ∧ l ∈ s;
  ok_locs2 : ∀ r l, r ∈ edgesRawLoc acc → l ∈ locs2 r →
             ∃ s, proteinToLocs acc !! lb r = Some s ∧ l ∈ s;
  ok_locs : ∀ n s, proteinToLocs acc !! n = Some s →
            s ≠ [] ∧ ∀ l, l ∈ s → truthy l = true;
  ok_row_locs : ∀ r l, r ∈ edgesRawLoc acc → l ∈ locs1 r ++ locs2 r → truthy l = true }.

End Spec.

Module ViewerSpec.
Import Js Viewer.

(** An ordinary node that the node filters let through. *)
Definition nodeVisible (f : Filters) (blue : gset string) (n : Node) : bool :=
  negb (isCluster n) && negb (nodeFiltered f blue n).

(** The ids [recomputeTotalsImmediate] collects in [visibleNodes]. *)
Definition visibleSet (f : Filters) (blue : gset string) (g : Graph) : gset string :=
  (countNodes f blue (nodes g)).2.

(** An edge that the totals count as visible. *)
Definition edgeCounted (f : Filters) (visible : gset string) (e : Edge) : bool :=
  bool_decide (source e ∈ visible) && bool_decide (target e ∈ visible)
  && negb (hideByConf f (afmprob e)) && negb (hideByNewEdge f (allDBs e)).

Definition withThr (t : Z) (f : Filters) : Filters :=
  {| thr := t; onlyNew := onlyNew f; conf := conf f |}.

Definition withConf (c : Q) (f : Filters) : Filters :=
  {| thr := thr f; onlyNew := onlyNew f; conf := c |}.

Definition withFilters (f : Filters) (s : State) : State :=
  {| graph := graph s; nodesBlueSet := nodesBlueSet s; filters := f;
     showEdges := showEdges s; showAllEdges := showAllEdges s;
     clusterMode := clusterMode s; focusedNode := focusedNode s;
     prevCamState := prevCamState s; camera := camera s;
     defocusTimer := defocusTimer s; isAnimating := isAnimating s |}.


(** Two proteins of degree 1 joined by one edge without a score. *)
Definition pairGraph : Graph :=
  {| nodes := [ {| id := "u"; isCluster := false; degree := 1;
                   x := 0; y := 0; hidden := false |};
                {| id := "v"; isCluster := false; degree := 1;
                   x := 1; y := 1; hidden := false |} ];
     edges := [ {| key := "u|v"; source := "u"; target := "v";
                   allDBs := "dbX"; afmprob := None; edgeHidden := true |} ] |}.

Definition sampleState : State :=
  {| graph := pairGraph; nodesBlueSet := ∅;
     filters := {| thr := 0; onlyNew := false; conf := 0 |};
     showEdges := true; showAllEdges := false; clusterMode := false;
     focusedNode := None; prevCamState := None;
     camera := {| cx := 1 # 2; cy := 1 # 2; ratio := 1; angle := 0 |};
     defocusTimer := false; isAnimating := false |}.

End ViewerSpec.

(** ** The command lines of the scripts

    Each script has its own [parseArgs].  All three fill an object literal
    [args = {}], read here as a [gmap]; a flag holds the string given for it
    or [true]. *)

Module Argv.
Import Js.

Inductive ArgVal := Str (s : string) | Flag.

(** [args[k] = v].  On an object literal the key [__proto__] is the
    prototype accessor: assigning it a string or a boolean does nothing. *)
Definition setArg (k : string) (v : ArgVal) (args : gmap string ArgVal)
  : gmap string ArgVal :=
  if String.eqb k "__proto__" then args else <[k := v]> args.

(** A value in a condition or on the left of [||]. *)
Definition truthyVal (v : option ArgVal) : bool :=
  match v with
  | Some (Str s) => truthy s
  | Some Flag => true
  | None => false
  end.

(** [String(v)] *)
Definition showVal (v : ArgVal) : string :=
  match v with Str s => s | Flag => "true" end.

(** [args.k1 || args.k2] *)
Definition either (args : gmap string ArgVal) (k1 k2 : string) : option ArgVal :=
  if truthyVal (args !! k1) then args !! k1
  else if truthyVal (args !! k2) then args !! k2 else None.

Definition isEq (c : ascii) : bool := Ascii.eqb c "="%char.

(** [s.replace(/^--/, '')] *)
Definition stripDashes (s : string) : string :=
  match s with
  | String "-"%char (String "-"%char raw) => raw
  | _ => s
  end.

(** [s.slice(0, i)] and [s.slice(i + 1)], for [i] the index of the first
    code unit of the class [sep]; [None] when there is none. *)
Fixpoint cut (sep : ascii → bool) (s : string) : option (string * string) :=
  match s with
  | EmptyString => None
  | String c s' =>
      if sep c then Some (EmptyString, s')
      else (λ kv, (String c kv.1, kv.2)) <$> cut sep s'
  end.

(** How often the code unit [c] occurs in [s]. *)
Fixpoint occurrences (c : ascii) (s : string) : nat :=
  match s with
  | EmptyString => 0
  | String d s' => (if Ascii.eqb d c then 1 else 0) + occurrences c s'
  end.

End Argv.

(** *** [scripts/tsv-to-graph.js]: from [process.argv] to the run *)

Module TsvToGraphCli.
Import Js Argv TsvToGraph.

(** [parseArgs], on [argv.slice(2)].  A token that does not start with [--]
    is skipped unless the flag before it took it as its value.  The
    destructuring [[k, v] = raw.split('=')] keeps the first two pieces; the
    split of a string that includes [=] has at least two. *)
Fixpoint parseArgs (parts : list string) (args : gmap string ArgVal)
  : gmap string ArgVal :=
  match parts with
  | [] => args
  | tok :: rest =>
      if negb (startsWith "--" tok) then parseArgs rest args
      else
        let raw := stripDashes tok in
        if includes raw "=" then
          match splitBy isEq raw with
          | k :: v :: _ => parseArgs rest (setArg k (Str v) args)
          | _ => parseArgs rest args
          end
        else
          match rest with
          | next :: rest' =>
              if truthy next && negb (startsWith "-" next)
              then parseArgs rest' (setArg raw (Str next) args)
              else parseArgs rest (setArg raw Flag args)
          | [] => setArg raw Flag args
          end
  end.

(** [String(args.k || dflt)] *)
Definition strOr (args : gmap string ArgVal) (k dflt : string) : string :=
  match args !! k with
  | Some v => if truthyVal (Some v) then showVal v else dflt
  | None => dflt
  end.

(** [limit] is compared as [++row > limit] only, [row] counting from 1: a
    [NaN] never stops the loop, a number below 1 stops it at the first row,
    and any other number stops it as its integer part does. *)
Definition limitOf (x : jsnum) : option nat :=
  match x with
  | NaN => None
  | Num q => Some (Z.to_nat (Qfloor q))
  end.

Section WithNumber.
Context (Number : string → jsnum).

(** [Number(v)] *)
Definition numVal (v : ArgVal) : jsnum :=
  match v with Str s => Number s | Flag => Num 1 end.

(** The constants [run] derives from [args], from [sourceCol] to [limit].
    The two output paths only name the files written. *)
Definition configOf (args : gmap string ArgVal) : Args :=
  {| sourceCol := strOr args "source" "protein1";
     targetCol := strOr args "target" "protein2";
     locality1Col := strOr args "locality1" "locality1";
     locality2Col := strOr args "locality2" "locality2";
     name1Col := strOr args "name1" "name1";
     name2Col := strOr args "name2" "name2";
     weightCol := if truthyVal (args !! "weight")
                  then showVal <$> args !! "weight" else None;
     allDBsCol := strOr args "allDBs" "allDBs";
     directed := truthyVal (args !! "directed");
     afmprobCol := strOr args "afmprob" "AFMprob";
     limit := match args !! "limit" with
              | Some v => if truthyVal (Some v) then limitOf (numVal v) else None
              | None => None
              end |}.

(** [args.input || args.i], then [fs.existsSync]; [fs] maps the path given
    to the lines of the file it names. *)
Definition inputOf (fs : string → option (list string)) (args : gmap string ArgVal)
  : Input :=
  match either args "input" "i" with
  | None => NoInputArg
  | Some v =>
      match fs (showVal v) with
      | Some lines => InputLines lines
      | None => InputNotFound
      end
  end.

(** The script, from [process.argv]: the earlier version and the later. *)
Definition main (fs : string → option (list string)) (argv : list string) : Outcome :=
  let args := parseArgs (drop 2 argv) ∅ in
  run Number (configOf args) (inputOf fs args).

Definition mainLocality (fs : string → option (list string)) (argv : list string)
  : Outcome :=
  let args := parseArgs (drop 2 argv) ∅ in
  runLocality Number (configOf args) (inputOf fs args).

End WithNumber.

End TsvToGraphCli.

(** *** [scripts/filter-alldbs-none.js]

    The script keeps the rows of a table whose [allDBs] cell is "none".  Its
    first line is the header, whatever it holds.  [process.exit(1)] inside
    the loop ends the run at once: nothing is written. *)

Module FilterAllDBsNone.
Import Js Argv.

(** [parseArgs]: as in [tsv-to-graph.js], but a [--k=v] token is cut at its
    first [=] ([indexOf], which finds one where [includes] did). *)
Fixpoint parseArgs (parts : list string) (args : gmap string ArgVal)
  : gmap string ArgVal :=
  match parts with
  | [] => args
  | token :: rest =>
      if negb (startsWith "--" token) then parseArgs rest args
      else
        let raw := stripDashes token in
        if includes raw "=" then
          match cut isEq raw with
          | Some (k, v) => parseArgs rest (setArg k (Str v) args)
          | None => parseArgs rest args
          end
        else
          match rest with
          | next :: rest' =>
              if truthy next && negb (startsWith "-" next)
              then parseArgs rest' (setArg raw (Str next) args)
              else parseArgs rest (setArg raw Flag args)
          | [] => setArg raw Flag args
          end
  end.

Inductive Message :=
  | MissingInput
  | InputNotFoundMsg (path : string)
  | NoAllDBsColumn (columns : list string)
  | SelectNotFound (select : string) (columns : list string).

(** How a run ends: [process.exit(1)] after a message, or the lines it
    gathered, written to [--output] when one is given and to the standard
    output otherwise. *)
Inductive Outcome :=
  | Exit1 (msg : Message)
  | Done (outLines : list string) (output : option string).

(** The loop variables once the header has been read. *)
Record St := {
  colIndex : nat;
  selectIndex : option nat;
  outLines : list string;
  seen : gset string }.

(** [h.trim().toLowerCase() === 'alldbs'] *)
Definition isAllDBs (h : string) : bool := String.eqb (toLowerCase (trim h)) "alldbs".

(** [h.trim() === select]; a [select] that is [true] equals no string. *)
Definition isSelected (select : ArgVal) (h : string) : bool :=
  match select with
  | Str s => String.eqb (trim h) s
  | Flag => false
  end.

(** The body of [if (header === null) { ... }]. *)
Definition readHeader (select : option ArgVal) (line : string) : Message + St :=
  let header := splitBy TsvToGraph.isTab line in
  match findIndex isAllDBs header with
  | None => inl (NoAllDBsColumn header)
  | Some c =>
      match select with
      | Some sel =>
          match findIndex (isSelected sel) header with
          | None => inl (SelectNotFound (showVal sel) header)
          | Some i => inr {| colIndex := c; selectIndex := Some i;
                             outLines := []; seen := ∅ |}
          end
      | None => inr {| colIndex := c; selectIndex := None;
                      outLines := [line]; seen := ∅ |}
      end
  end.

(** [(parts[colIndex] || '').trim().toLowerCase() === 'none'] *)
Definition isNoneRow (c : nat) (line : string) : bool :=
  TsvToGraph.isNone (default "" (splitBy TsvToGraph.isTab line !! c)).

Definition push (x : string) (st : St) : St :=
  {| colIndex := colIndex st; selectIndex := selectIndex st;
     outLines := outLines st ++ [x]; seen := seen st |}.

(** The rest of the loop body, for a line after the header. *)
Definition readRow (wantUnique : bool) (st : St) (line : string) : St :=
  if negb (truthy line) then st
  else if negb (isNoneRow (colIndex st) line) then st
  else
    match selectIndex st with
    | Some i =>
        let val := default "" (splitBy TsvToGraph.isTab line !! i) in
        if wantUnique then
          if bool_decide (val ∈ seen st) then st
          else {| colIndex := colIndex st; selectIndex := selectIndex st;
                  outLines := outLines st ++ [val]; seen := {[val]} ∪ seen st |}
        else push val st
    | None => push line st
    end.

(** [run], on what the input argument names: [None] when no such file
    exists. *)
Definition run (fs : string → option (list string)) (args : gmap string ArgVal)
  : Outcome :=
  match either args "input" "i" with
  | None => Exit1 MissingInput
  | Some input =>
      match fs (showVal input) with
      | None => Exit1 (InputNotFoundMsg (showVal input))
      | Some lines =>
          let select := either args "select" "s" in
          let wantUnique := truthyVal (args !! "unique") in
          let output := showVal <$> either args "output" "o" in
          match lines with
          | [] => Done [] output
          | first :: rest =>
              match readHeader select first with
              | inl msg => Exit1 msg
              | inr st => Done (outLines (foldl (readRow wantUnique) st rest)) output
              end
          end
      end
  end.

(** [outLines.join('\n')] *)
Definition content (outLines : list string) : string :=
  String.concat (String "010" EmptyString) outLines.

Definition main (fs : string → option (list string)) (argv : list string) : Outcome :=
  run fs (parseArgs (drop 2 argv) ∅).

Definition newline : string := String "010" EmptyString.

Definition isNewline (c : ascii) : bool := Ascii.eqb c "010"%char.

(** [s.endsWith('\n')] *)
Fixpoint endsWithNewline (s : string) : bool :=
  match s with
  | EmptyString => false
  | String c EmptyString => isNewline c
  | String _ s' => endsWithNewline s'
  end.

Inductive Sink := ToFile (path : string) | ToStdout.

(** What a run writes and where: [content] as it is to the file
    [--output] names, [content + (content.endsWith('\n') ? '' : '\n')] to
    the standard output; nothing after [process.exit(1)]. *)
Definition writes (o : Outcome) : option (Sink * string) :=
  match o with
  | Exit1 _ => None
  | Done outLines (Some path) => Some (ToFile path, content outLines)
  | Done outLines None =>
      Some (ToStdout,
            content outLines
            +:+ (if endsWithNewline (content outLines) then "" else newline))
  end.

(** The pieces of a text without the empty piece after its last line
    terminator. *)
Fixpoint dropLastEmpty (pieces : list string) : list string :=
  match pieces with
  | [] => []
  | [x] => if truthy x then [x] else []
  | x :: rest => x :: dropLastEmpty rest
  end.

(** The lines [readline] yields for a text whose only line terminator is
    the line feed. *)
Definition linesOf (text : string) : list string :=
  dropLastEmpty (splitBy isNewline text).

End FilterAllDBsNone.

(** *** [scripts/generate-graph.js]: [parseArgs], [main] and the edge
    probability *)

Module GenerateGraphCli.
Import Js Argv.

(** [parseArgs]: every token is split at [=]; a token without one sets its
    key to [true], and no token takes the next one as its value. *)
Definition parseArgs (parts : list string) : gmap string ArgVal :=
  foldl (λ args part,
           match splitBy isEq part with
           | key :: vals =>
               if negb (truthy key) then args
               else setArg (stripDashes key)
                      (match vals with [] => Flag | val :: _ => Str val end) args
           | [] => args
           end)
        ∅ parts.

Section WithNumber.
Context (Number : string → jsnum).

(** [Number(args.k1 || args.k2 || dflt)] *)
Definition numOr (args : gmap string ArgVal) (k1 k2 : string) (dflt : Q) : jsnum :=
  match either args k1 k2 with
  | Some (Str s) => Number s
  | Some Flag => Num 1
  | None => Num dflt
  end.

Definition nodesOf (args : gmap string ArgVal) : jsnum := numOr args "nodes" "n" 2000.
Definition avgDegreeOf (args : gmap string ArgVal) : jsnum := numOr args "avgDegree" "d" 8.

End WithNumber.

(** The numbers [generateGraph] can be handed: [main] passes what [Number]
    makes of a flag, which can be any number, [NaN] and the two infinities
    included ([--nodes=Infinity]). *)
Inductive number :=
  | NotANumber
  | Infinity (negative : bool)
  | Finite (q : Q).

(** [avgDegree || 8]: [0] and [NaN] are falsy. *)
Definition orEight (avgDegree : number) : number :=
  match avgDegree with
  | NotANumber => Finite 8
  | Infinity _ => avgDegree
  | Finite a => if Qeq_bool a 0 then Finite 8 else avgDegree
  end.

(** [Math.max(1, nodes - 1)] *)
Definition divisor (nodes : number) : number :=
  match nodes with
  | NotANumber => NotANumber
  | Infinity true => Finite 1
  | Infinity false => Infinity false
  | Finite n => Finite (Qmax 1 (n - 1))
  end.

(** [a / d], for a divisor that is [NaN], [Infinity] or at least 1: an
    infinity divided by an infinity is [NaN], a finite number divided by
    one is zero. *)
Definition quotient (a d : number) : number :=
  match d, a with
  | NotANumber, _ => NotANumber
  | _, NotANumber => NotANumber
  | Infinity _, Infinity _ => NotANumber
  | Infinity _, Finite _ => Finite 0
  | Finite _, Infinity s => Infinity s
  | Finite x, Finite y => Finite (y / x)
  end.

(** [Math.min(0.999, Math.max(0, q))]: [NaN] when [q] is. *)
Definition clampProbability (q : number) : number :=
  match q with
  | NotANumber => NotANumber
  | Infinity true => Finite 0
  | Infinity false => Finite (999 # 1000)
  | Finite x => Finite (Qmin (999 # 1000) (Qmax 0 x))
  end.

(** [Math.min(0.999, Math.max(0, (avgDegree || 8) / Math.max(1, nodes - 1)))] *)
Definition probability (nodes avgDegree : number) : number :=
  clampProbability (quotient (orEight avgDegree) (divisor nodes)).

End GenerateGraphCli.

(** ** Notions the further properties are stated with *)

Module DatasetSpec.
Import Js TsvToGraph.

(** The provenance tags gathered for a node. *)
Definition tags (acc : Acc) (n : string) : list string :=
  default [] (nodeIdToAllDBs acc !! n).

(** What ingestion maintains about the tags: no tag twice, and the tags of
    a node are the non-empty tags of the rows that name it. *)
Record ProvOk (acc : Acc) : Prop := {
  po_nodup : ∀ n, NoDup (tags acc n);
  po_rows : ∀ n v, v ∈ tags acc n
                   ↔ truthy v = true
                     ∧ ∃ r, r ∈ edgesRaw acc ∧ Spec.touches n r ∧ radb r = v }.

(** A line the ingestion loop looks at: neither empty nor a comment. *)
Definition significant (line : string) : bool :=
  truthy line && negb (startsWith "#" line).

(** The default columns, with a limit of [n] rows. *)
Definition withLimit (n : nat) : Args :=
  {| sourceCol := "protein1"; targetCol := "protein2";
     locality1Col := "locality1"; locality2Col := "locality2";
     name1Col := "name1"; name2Col := "name2";
     weightCol := None; allDBsCol := "allDBs"; directed := false;
     afmprobCol := "AFMprob"; limit := Some n |}.

(** The ids of the nodes of a dataset, in order. *)
Definition ids (d : Dataset.t) : list string := Dataset.id <$> Dataset.nodes d.

(** What one edge puts in the adjacency list of [n]: its other end, once
    for each end that is [n]. *)
Definition otherEnds (n : string) (e : Dataset.Edge) : list string :=
  (if String.eqb (Dataset.source e) n then [Dataset.target e] else [])
  ++ (if String.eqb (Dataset.target e) n then [Dataset.source e] else []).

(** A dataset that hangs together: the counts are those of its lists, no
    node id and no edge id occurs twice, no edge id is empty, every edge
    joins two nodes of the dataset, no two edges have the same source and
    the same target, and the adjacency map has one entry for each node,
    which lists the other ends of the node's edges in the order of the
    edges. *)
Record wellFormed (d : Dataset.t) : Prop := {
  wf_order : Dataset.order d = length (Dataset.nodes d);
  wf_size : Dataset.size d = length (Dataset.edges d);
  wf_ids : NoDup (ids d);
  wf_eids : NoDup (Dataset.eid <$> Dataset.edges d);
  wf_eid : ∀ e, e ∈ Dataset.edges d → truthy (Dataset.eid e) = true;
  wf_ends : ∀ e, e ∈ Dataset.edges d →
            Dataset.source e ∈ ids d ∧ Dataset.target e ∈ ids d;
  wf_pairs : NoDup ((λ e, (Dataset.source e, Dataset.target e)) <$> Dataset.edges d);
  wf_adjacency : ∀ n, Dataset.adjacency d !! n
                      = if bool_decide (n ∈ ids d)
                        then Some (concat (otherEnds n <$> Dataset.edges d))
                        else None }.

End DatasetSpec.

(** ** [GraphViewer]: what [init] computes before it builds the graph *)

Module ViewerInit.
Import Js Viewer.

(** [setTotals({nodes: data.nodes.length, edges: data.edges.length,
    blueEdges: blueEdgesCount})] *)
Definition initTotals (d : Dataset.t) : Totals :=
  {| nodesTotal := length (Dataset.nodes d);
     edgesTotal := length (Dataset.edges d);
     blueEdges := foldl (λ acc e, acc + (if isNone (Dataset.edgeAllDBs e) then 1 else 0))%nat
                        0%nat (Dataset.edges d) |}.

(** The loop over [data.edges] that lowers [minProb]; [None] is the
    [Infinity] it starts from. *)
Definition lowest (es : list Dataset.Edge) : option Q :=
  foldl (λ m e,
           match Dataset.afmprob e with
           | Some ap =>
               match m with
               | Some m' => if ltNum ap m' then Some ap else m
               | None => Some ap
               end
           | None => m
           end)
        None es.

(** [minProb], once [if (!Number.isFinite(minProb)) minProb = 0] has run. *)
Definition minProb (es : list Dataset.Edge) : Q := default 0%Q (lowest es).

(** [confidenceRef.current] after [init]: set to [minProb] when it was 0. *)
Definition initConfidence (current : Q) (es : list Dataset.Edge) : Q :=
  if Qeq_bool current 0 then minProb es else current.

(** The filters in force when a dataset has been loaded and no control has
    been touched. *)
Definition initFilters (d : Dataset.t) : Filters :=
  {| thr := 0; onlyNew := false; conf := initConfidence 0 (Dataset.edges d) |}.

(** The edge [init] adds for a dataset edge. *)
Definition loadedEdge (e : Dataset.Edge) : Edge :=
  {| key := loadKey e;
     source := Dataset.source e;
     target := Dataset.target e;
     allDBs := Dataset.edgeAllDBs e;
     afmprob := Dataset.afmprob e;
     edgeHidden := true |}.

End ViewerInit.

(** ** [GraphViewer]: the search box

    [init] builds the name index from the dataset; the effect on
    [searchQuery] scans it.  A suggestion [{id, name}] is a pair. *)

Module ViewerSearch.
Import Js.

Record NameEntry := { id : string; name : string; nameLower : string }.

(** [nameIndexRef.current = data.nodes.map(...)] *)
Definition nameIndex (d : Dataset.t) : list NameEntry :=
  (λ n, let nm := if truthy (Dataset.label n) then Dataset.label n else Dataset.id n in
        {| id := Dataset.id n; name := nm; nameLower := toLowerCase nm |})
  <$> Dataset.nodes d.

(** [s.indexOf(p)] *)
Fixpoint indexOf (s p : string) : option nat :=
  if startsWith p s then Some 0%nat
  else match s with
       | EmptyString => None
       | String _ s' => S <$> indexOf s' p
       end.

(** The loop [for (const e of idx) { ... if (starts.length >= 8) break; }] *)
Fixpoint scan (q : string) (idx : list NameEntry)
    (starts contains : list (string * string))
  : list (string * string) * list (string * string) :=
  match idx with
  | [] => (starts, contains)
  | e :: rest =>
      let found :=
        match indexOf (nameLower e) q with
        | Some 0%nat => (starts ++ [(id e, name e)], contains)
        | Some (S _) => (starts, contains ++ [(id e, name e)])
        | None => (starts, contains)
        end in
      if (8 <=? length found.1)%nat then found
      else scan q rest found.1 found.2
  end.

(** What the effect hands to [setSearchMatches]. *)
Definition searchMatches (searchQuery : string) (idx : list NameEntry)
  : list (string * string) :=
  let q := toLowerCase (trim searchQuery) in
  if negb (truthy q) then []
  else
    let found := scan q idx [] [] in
    if (8 <=? length found.1)%nat then found.1
    else take 8 (found.1 ++ found.2).

(** An entry whose lowered name starts with [q]; one that holds [q]
    further on. *)
Definition isPrefixMatch (q : string) (e : NameEntry) : bool :=
  startsWith q (nameLower e).

Definition isInnerMatch (q : string) (e : NameEntry) : bool :=
  negb (startsWith q (nameLower e)) && includes (nameLower e) q.

Definition suggestion (e : NameEntry) : string * string := (id e, name e).

End ViewerSearch.

(** ** [throttle]

    [throttle(fn, ms)] returns a function that keeps the time [last] of the
    last call it let through, 0 at first; [performance.now()] is the time
    of a call. *)

Module Throttle.
Import Js.

Section Calls.
Context {A : Type}.

(** The calls of [fn] that the calls [calls], each with its time and its
    argument, lead to. *)
Fixpoint ran (ms last : Q) (calls : list (Q * A)) : list (Q * A) :=
  match calls with
  | [] => []
  | (now, a) :: rest =>
      if Qle_bool ms (now - last) then (now, a) :: ran ms now rest
      else ran ms last rest
  end.

(** Calls at least [ms] apart, the first at least [ms] after [last]. *)
Fixpoint spaced (ms last : Q) (l : list (Q * A)) : Prop :=
  match l with
  | [] => True
  | (t, _) :: l' => (ms <= t - last)%Q ∧ spaced ms t l'
  end.

(** The time of the last of the calls [l], [last] when there is none. *)
Definition lastTime (last : Q) (l : list (Q * A)) : Q :=
  List.last (fst <$> l) last.

End Calls.

End Throttle.

(** ** [GraphViewer]: keeping the camera over the graph *)

Module ViewerCamera.
Import Js Viewer.

(** [clampCameraToGraph], on the camera state [st]; [isClamping] is
    [isClampingRef.current]. *)
Definition clampCameraToGraph (isClamping : bool) (st : Camera) : Camera :=
  if isClamping then st
  else
    let mx := (ratio st / 2)%Q in
    let my := (ratio st / 2)%Q in
    let nx := clamp (cx st) mx (1 - mx)%Q in
    let ny := clamp (cy st) my (1 - my)%Q in
    if ltNum (1 # 1000) (Qabs (nx - cx st)) || ltNum (1 # 1000) (Qabs (ny - cy st))
    then {| cx := nx; cy := ny; ratio := ratio st; angle := angle st |}
    else st.

End ViewerCamera.

(** ** The locality groups

    [tsv-to-graph.js] lays the localities out by group, and the viewer
    draws an outline around each group; each has its own copy of the table
    of groups, the script's with the names as written, the viewer's with
    the names in lower case. *)

Module LocalityGroups.
Import Js.

Definition groupDefs : list (string * list string) :=
  [ ("NUCLEUS",
     ["Nucleus"; "Chromosome"; "Spliceosome"; "Centromere"; "Kinetochore";
      "Nucleosome core"; "Telomere"; "Nuclear pore complex";
      "DNA-directed RNA polymerase"; "Primosome"]);
    ("CYTOPLASM",
     ["Cytoplasm"; "Cytoskeleton"; "Endoplasmic reticulum"; "Golgi apparatus";
      "Cytoplasmic vesicle"; "Endosome"; "Lysosome"; "Microtubule";
      "Mitochondrion outer membrane"; "Microsome"; "Intermediate filament";
      "Peroxisome"; "Proteasome"; "Proteaosome"; "Lipid droplet";
      "Sarcoplasmic reticulum"; "Signalosome"; "Inflammasome";
      "Signal recognition particle"; "Thick filament"; "Vacuole";
      "Viral envelope protein"; "Target membrane"; "Membrane"]);
    ("MITOCHONDRIA",
     ["Mitochondrion"; "Mitochondrion inner membrane"; "Mitochondrion nuclei";
      "Mitochondrion nucleoid"]);
    ("EXTRACELLULAR",
     ["Cell membrane"; "Cell projection"; "Synapse"; "Cell junction"; "Cilium";
      "Extracellular matrix"; "Immunoglobulin"; "Postsynaptic cell membrane";
      "Flagellum"; "T cell receptor"; "Keratin"; "Tight junction";
      "Synaptosome"; "Coated pit"; "Basement membrane"; "Dynein"; "MHC II";
      "Gap junction"; "HDL"; "Exosome"; "MHC I"; "LDL"; "VLDL";
      "Membrane attack complex"; "Surface film"; "Chylomicron"; "Virion";
      "Target cell membrane"]);
    ("OTHER", []) ].

(** The loops that fill [memberToGroup]. *)
Fixpoint fillGroups (gi : nat) (defs : list (string * list string))
    (memberToGroup : gmap string nat) : gmap string nat :=
  match defs with
  | [] => memberToGroup
  | def :: rest =>
      fillGroups (S gi) rest
        (foldl (λ m x, <[toLowerCase x := gi]> m) memberToGroup def.2)
  end.

Definition memberToGroup : gmap string nat := fillGroups 0 groupDefs ∅.

(** [groupIndexOf(loc)] *)
Definition groupIndexOf (loc : string) : nat :=
  let k := toLowerCase loc in
  match memberToGroup !! k with
  | Some gi => gi
  | None => (length groupDefs - 1)%nat
  end.

(** [groupDefs[gi].key] *)
Definition keyOf (gi : nat) : option string := fst <$> groupDefs !! gi.

End LocalityGroups.

Module ViewerGroups.
Import Js.

Definition groupDefs : list (string * list string) :=
  [ ("NUCLEUS",
     ["nucleus"; "chromosome"; "spliceosome"; "centromere"; "kinetochore";
      "nucleosome core"; "telomere"; "nuclear pore complex";
      "dna-directed rna polymerase"; "primosome"]);
    ("CYTOPLASM",
     ["cytoplasm"; "cytoskeleton"; "endoplasmic reticulum"; "golgi apparatus";
      "cytoplasmic vesicle"; "endosome"; "lysosome"; "microtubule";
      "mitochondrion outer membrane"; "microsome"; "intermediate filament";
      "peroxisome"; "proteasome"; "proteaosome"; "lipid droplet";
      "sarcoplasmic reticulum"; "signalosome"; "inflammasome";
      "signal recognition particle"; "thick filament"; "vacuole";
      "viral envelope protein"; "target membrane"; "membrane"]);
    ("MITOCHONDRIA",
     ["mitochondrion"; "mitochondrion inner membrane"; "mitochondrion nuclei";
      "mitochondrion nucleoid"]);
    ("EXTRACELLULAR",
     ["cell membrane"; "cell projection"; "synapse"; "cell junction"; "cilium";
      "extracellular matrix"; "immunoglobulin"; "postsynaptic cell membrane";
      "flagellum"; "t cell receptor"; "keratin"; "tight junction";
      "synaptosome"; "coated pit"; "basement membrane"; "dynein"; "mhc ii";
      "gap junction"; "hdl"; "exosome"; "mhc i"; "ldl"; "vldl";
      "membrane attack complex"; "surface film"; "chylomicron"; "virion";
      "target cell membrane"]);
    ("OTHER", []) ].

(** [toGroup(loc)]: the key of the first group, [OTHER] apart, that lists
    the lowered name. *)
Definition toGroup (loc : string) : string :=
  let k := toLowerCase loc in
  match List.find (λ def : string * list string, bool_decide (k ∈ def.2))
          (take (length groupDefs - 1) groupDefs) with
  | Some def => def.1
  | None => "OTHER"
  end.

End ViewerGroups.

(** ** [PathwayNeighborGraph]: the proteins of a pathway and their
    neighbours

    The component reads [graph.json], maps the symbols it is given to node
    ids and hands cytoscape the nodes and edges around them; cytoscape
    refuses an edge one end of which is not among the nodes. *)

Module PathwayNeighborGraph.
Import Js.

Record NodeEl := { id : string; label : string; isProtein : bool }.

Record EdgeEl := { eid : string; source : string; target : string; allDBs : string }.

(** [labelToId]: the lowered label of a node to its id, a later node
    replacing an earlier one of the same lowered label. *)
Definition labelToId (d : Dataset.t) : gmap string string :=
  foldl (λ m n, if truthy (Dataset.label n)
                then <[toLowerCase (Dataset.label n) := Dataset.id n]> m else m)
        ∅ (Dataset.nodes d).

(** [labelToId.get(s.toLowerCase()) || data.nodes.find(n => n.id.toLowerCase() === s.toLowerCase())?.id] *)
Definition idOf (d : Dataset.t) (s : string) : option string :=
  match labelToId d !! toLowerCase s with
  | Some i => if truthy i then Some i else
      Dataset.id <$> List.find (λ n, String.eqb (toLowerCase (Dataset.id n)) (toLowerCase s))
                       (Dataset.nodes d)
  | None =>
      Dataset.id <$> List.find (λ n, String.eqb (toLowerCase (Dataset.id n)) (toLowerCase s))
                       (Dataset.nodes d)
  end.

(** [proteinNodeIds]: an id is pushed when it is truthy. *)
Definition proteinNodeIds (d : Dataset.t) (proteinSymbols : list string) : list string :=
  omap (λ s, match idOf d s with
             | Some i => if truthy i then Some i else None
             | None => None
             end) proteinSymbols.

Definition proteinSet (d : Dataset.t) (proteinSymbols : list string) : gset string :=
  list_to_set (proteinNodeIds d proteinSymbols).

(** [nodeSet]: the proteins, then the other end of every edge at one. *)
Definition nodeSet (d : Dataset.t) (proteinSymbols : list string) : gset string :=
  foldl (λ acc e,
           let acc1 := if bool_decide (Dataset.source e ∈ proteinSet d proteinSymbols)
                       then {[Dataset.target e]} ∪ acc else acc in
           if bool_decide (Dataset.target e ∈ proteinSet d proteinSymbols)
           then {[Dataset.source e]} ∪ acc1 else acc1)
        (proteinSet d proteinSymbols) (Dataset.edges d).

Definition nodes (d : Dataset.t) (proteinSymbols : list string) : list NodeEl :=
  (λ n, {| id := Dataset.id n;
           label := if truthy (Dataset.label n) then Dataset.label n else Dataset.id n;
           isProtein := bool_decide (Dataset.id n ∈ proteinSet d proteinSymbols) |})
  <$> filter (λ n, Dataset.id n ∈ nodeSet d proteinSymbols) (Dataset.nodes d).

Definition edgesRaw (d : Dataset.t) (proteinSymbols : list string) : list Dataset.Edge :=
  filter (λ e, Dataset.source e ∈ proteinSet d proteinSymbols
               ∨ Dataset.target e ∈ proteinSet d proteinSymbols) (Dataset.edges d).

Definition edges (d : Dataset.t) (proteinSymbols : list string) : list EdgeEl :=
  (λ e, {| eid := Viewer.loadKey e;
           source := Dataset.source e;
           target := Dataset.target e;
           allDBs := Dataset.edgeAllDBs e |})
  <$> edgesRaw d proteinSymbols.

(** [newNodeSet]: the ends of the edges kept that are tagged "none". *)
Definition newNodeSet (d : Dataset.t) (proteinSymbols : list string) : gset string :=
  foldl (λ acc (e : Dataset.Edge),
           if TsvToGraph.isNone (Dataset.edgeAllDBs e)
           then {[Dataset.target e]} ∪ ({[Dataset.source e]} ∪ acc) else acc)
        ∅ (edgesRaw d proteinSymbols).

End PathwayNeighborGraph.

(** ** Deduplication by endpoint pair *)

Module DedupSpec.
Import Js TsvToGraph Spec.

(** The endpoint pair a row stands for: as the row gives it in directed
    mode, in lexicographic order otherwise. *)
Definition pairOf (directed : bool) (a b : string) : string * string :=
  if directed then (a, b) else if lt a b then (a, b) else (b, a).

(** "First occurrence wins; later duplicates are dropped", for keys of any
    type. *)
Fixpoint keepFirstBy {A K} `{EqDecision K} (keyOf : A → K) (l : list A) : list A :=
  match l with
  | [] => []
  | r :: rest => r :: filter (λ r', keyOf r' ≠ keyOf r) (keepFirstBy keyOf rest)
  end.

(** The separator that the key of the mode puts between the two ids, [->]
    or [|], does not occur in [s]. *)
Definition sepFree (directed : bool) (s : string) : Prop :=
  if directed then includes s "->" = false else free "|" s.

(** The lines read as data rows, of the lines [l] that the loop looks at
    once the header is known, [row] rows having been counted before. *)
Definition rowsRead (lim : option nat) (row : nat) (l : list string) : list string :=
  match lim with
  | Some n => take (n - row) l
  | None => l
  end.

End DedupSpec.

(** *** The side panel: the confidence slider and the totals it shows

    A handler is a closure of the render it was created in: the state
    variable [confidence] it reads is the value of that render, whatever has
    been passed to [setConfidence] since; a ref holds what was last stored
    in it. *)

Module ViewerControls.
Import Js Viewer.

(** What the panel holds once a render has settled: the [confidence] of
    that render, the refs, and the totals shown. *)
Record Panel := {
  confidence : Q;
  confidenceRef : Q;
  degreeThresholdRef : Z;
  showOnlyNewRef : bool;
  totals : Totals }.

(** The panel once [init] has loaded a dataset and no control has been
    touched. *)
Definition loaded (d : Dataset.t) : Panel :=
  {| confidence := ViewerInit.initConfidence 0 (Dataset.edges d);
     confidenceRef := ViewerInit.initConfidence 0 (Dataset.edges d);
     degreeThresholdRef := 0;
     showOnlyNewRef := false;
     totals := ViewerInit.initTotals d |}.

(** The [onChange] of the confidence slider, with [v] the value moved to:
    [setConfidence(v); confidenceRef.current = v; recomputeTotalsImmediate()],
    followed by the render with the new [confidence].
    [recomputeTotalsImmediate] reads [degreeThresholdRef], [showOnlyNewRef]
    and, for the confidence floor, the [confidence] of the render the
    handler belongs to; neither effect on [confidence] sets the totals. *)
Definition confidenceChanged (blue : gset string) (g : Graph) (v : Q) (p : Panel)
  : Panel :=
  {| confidence := v;
     confidenceRef := v;
     degreeThresholdRef := degreeThresholdRef p;
     showOnlyNewRef := showOnlyNewRef p;
     totals := recomputeTotalsImmediate
                 {| thr := degreeThresholdRef p;
                    onlyNew := showOnlyNewRef p;
                    conf := confidence p |} blue g |}.

(** A table of three interactions that all score 0.3. *)
Definition flatScores : list string :=
  [ Sample.headerLine;
    Sample.tsv ["p1"; "p2"; "dbX"; "0.3"];
    Sample.tsv ["p2"; "p3"; "none"; "0.3"];
    Sample.tsv ["p1"; "p3"; "none"; "0.3"] ].

End ViewerControls.

(** * Properties *)

(** ** Strings and sets *)

Module JsFacts.
Import Js.

Lemma ltNum_spec x y : ltNum x y = true ↔ (x < y)%Q.
Proof.
  unfold ltNum. rewrite negb_true_iff.
  destruct (Qle_bool y x) eqn:E.
  - apply Qle_bool_iff in E. split; [done | intros H; exfalso].
    by apply (Qlt_not_le _ _ H).
  - split; [intros _ | done].
    apply Qnot_le_lt. intros H. apply Qle_bool_iff in H. congruence.
Qed.

Lemma lt_asym s t : lt s t = true → lt t s = false.
Proof.
  unfold lt, String.ltb. rewrite (String.compare_antisym s t).
  by destruct (String.compare t s).
Qed.

Lemma lt_total s t : lt s t = false → lt t s = false → s = t.
Proof.
  unfold lt, String.ltb. rewrite (String.compare_antisym s t).
  destruct (String.compare t s) eqn:E; try done.
  intros _ _. symmetry. by apply String.compare_eq_iff.
Qed.

Lemma elem_of_setAdd x y l : x ∈ setAdd y l ↔ x = y ∨ x ∈ l.
Proof.
  unfold setAdd. case_bool_decide as H.
  - split; [by right | intros [->|?]; done].
  - rewrite elem_of_app, list_elem_of_singleton. tauto.
Qed.

Lemma NoDup_setAdd y l : NoDup l → NoDup (setAdd y l).
Proof.
  intros Hl. unfold setAdd. case_bool_decide as H; [done|].
  apply NoDup_app. split_and!; [done | | apply NoDup_singleton].
  intros x Hx Hy. apply list_elem_of_singleton in Hy. by subst.
Qed.

Lemma setAdd_nonempty y l : setAdd y l ≠ [].
Proof.
  unfold setAdd. case_bool_decide as H.
  - intros ->. by apply not_elem_of_nil in H.
  - by destruct l.
Qed.

Lemma truthy_eqb s : truthy s = true ↔ s ≠ "".
Proof.
  unfold truthy. rewrite negb_true_iff. split.
  - intros H ->. by rewrite String.eqb_refl in H.
  - intros H. by apply String.eqb_neq.
Qed.

End JsFacts.

(** ** Ingestion: what the loop maintains *)

Module IngestFacts.
Import Js JsFacts TsvToGraph Spec.

Lemma isNone_truthy v : isNone v = true → truthy v = true.
Proof. destruct v; [by vm_compute | done]. Qed.

Lemma addADB_none id v st n :
  default false ((addADB id v st).2 !! n) = true
  ↔ (n = id ∧ isNone v = true) ∨ default false (st.2 !! n) = true.
Proof.
  unfold addADB. destruct (truthy v) eqn:Hv; simpl.
  - destruct (isNone v) eqn:Hn; simpl.
    + destruct (decide (n = id)) as [->|Hne].
      * rewrite lookup_insert_eq. simpl. tauto.
      * rewrite lookup_insert_ne by done. split; [by right|].
        intros [[? _]|?]; done.
    + split; [by right | intros [[_ ?]|?]; done].
  - split; [by right|]. intros [[_ Hn]|?]; [|done].
    apply isNone_truthy in Hn. congruence.
Qed.

Lemma elem_of_foldl_setAdd l arr s0 :
  l ∈ foldl (λ s L, setAdd L s) s0 arr ↔ l ∈ s0 ∨ l ∈ arr.
Proof.
  revert s0. induction arr as [|x arr IH]; intros s0; simpl.
  - rewrite elem_of_nil. tauto.
  - rewrite IH, elem_of_setAdd, elem_of_cons. tauto.
Qed.

Lemma foldl_setAdd_nonempty arr s0 :
  s0 ≠ [] → foldl (λ s L, setAdd L s) s0 arr ≠ [].
Proof.
  revert s0. induction arr as [|x arr IH]; intros s0 H; simpl; [done|].
  apply IH, setAdd_nonempty.
Qed.

Lemma addLocs_mono id arr m n s l :
  m !! n = Some s → l ∈ s → ∃ s', addLocs id arr m !! n = Some s' ∧ l ∈ s'.
Proof.
  intros Hm Hl. unfold addLocs. destruct arr as [|x arr]; [eauto|].
  destruct (decide (n = id)) as [->|Hne].
  - rewrite lookup_insert_eq. eexists; split; [done|].
    apply elem_of_foldl_setAdd. left. by rewrite Hm.
  - rewrite lookup_insert_ne by done. eauto.
Qed.

Lemma addLocs_new id arr m l :
  l ∈ arr → ∃ s, addLocs id arr m !! id = Some s ∧ l ∈ s.
Proof.
  intros Hl. unfold addLocs. destruct arr as [|x arr].
  - by apply elem_of_nil in Hl.
  - rewrite lookup_insert_eq. eexists; split; [done|].
    apply elem_of_foldl_setAdd. by right.
Qed.

Lemma addLocs_ok id arr m :
  (∀ l, l ∈ arr → truthy l = true) →
  (∀ n s, m !! n = Some s → s ≠ [] ∧ ∀ l, l ∈ s → truthy l = true) →
  ∀ n s, addLocs id arr m !! n = Some s → s ≠ [] ∧ ∀ l, l ∈ s → truthy l = true.
Proof.
  intros Harr Hm n s. unfold addLocs. destruct arr as [|x arr]; [apply Hm|].
  destruct (decide (n = id)) as [->|Hne].
  - rewrite lookup_insert_eq. intros [= <-]. split.
    + change (foldl (λ s L, setAdd L s) (setAdd x (default [] (m !! id))) arr ≠ []).
      apply foldl_setAdd_nonempty, setAdd_nonempty.
    + intros l Hl. apply elem_of_foldl_setAdd in Hl as [Hl|Hl].
      * apply elem_of_setAdd in Hl as [->|Hl]; [apply Harr; by left|].
        destruct (m !! id) as [s0|] eqn:E; simpl in Hl.
        -- by apply (Hm _ _ E).
        -- by apply elem_of_nil in Hl.
      * apply Harr. by right.
  - rewrite lookup_insert_ne by done. apply Hm.
Qed.

Lemma splitLocs_truthy s l : l ∈ splitLocs s → truthy l = true.
Proof.
  unfold splitLocs. rewrite list_elem_of_filter. intros [H _].
  by apply Is_true_eq_true.
Qed.

Lemma emptyAcc_ok : AccOk emptyAcc.
Proof.
  split; simpl.
  - constructor.
  - intros r Hr. by apply elem_of_nil in Hr.
  - intros n. rewrite lookup_empty. simpl. split; [done|].
    intros (r & Hr & _). by apply elem_of_nil in Hr.
  - intros r Hr. by apply elem_of_nil in Hr.
  - intros r l Hr. by apply elem_of_nil in Hr.
  - intros r l Hr. by apply elem_of_nil in Hr.
  - intros n s. by rewrite lookup_empty.
  - intros r l Hr. by apply elem_of_nil in Hr.
Qed.

Section WithNumber.
Context (Number : string → jsnum).

(** A data row either is skipped or appends exactly one raw edge. *)
Lemma ingestRow_edgesRaw c line acc :
  edgesRaw (ingestRow Number c line acc) = edgesRaw acc
  ∨ ∃ r, edgesRaw (ingestRow Number c line acc) = edgesRaw acc ++ [r].
Proof.
  unfold ingestRow.
  destruct (negb (truthy _) || negb (truthy _)); simpl; eauto.
Qed.

Lemma ingestRow_ok c line acc : AccOk acc → AccOk (ingestRow Number c line acc).
Proof.
  intros [Hnd Hends Hnone Hle Hl1 Hl2 Hlocs Hrl]. unfold ingestRow.
  set (parts := splitBy isTab line).
  set (a := cell parts (sIdx c)). set (b := cell parts (tIdx c)).
  destruct (negb (truthy a) || negb (truthy b)) eqn:Hab; [by split|].
  set (l1 := splitLocs (cellOr parts (loc1Idx c))).
  set (l2 := splitLocs (cellOr parts (loc2Idx c))).
  set (adb := cellOr parts (adbIdx c)).
  split; simpl.
  - by do 2 apply NoDup_setAdd.
  - intros r. rewrite elem_of_app, list_elem_of_singleton, !elem_of_setAdd.
    intros [Hr| ->]; simpl; [|tauto].
    destruct (Hends r Hr); tauto.
  - intros n. rewrite !addADB_none. simpl. rewrite Hnone. split.
    + intros [[-> Hn]|[[-> Hn]|(r & Hr & Ht & Hn)]].
      * eexists. split; [apply elem_of_app; right; by apply list_elem_of_singleton|].
        split; [by right | done].
      * eexists. split; [apply elem_of_app; right; by apply list_elem_of_singleton|].
        split; [by left | done].
      * exists r. split; [apply elem_of_app; by left | done].
    + intros (r & Hr & Ht & Hn). apply elem_of_app in Hr as [Hr|Hr].
      * right; right. eauto.
      * apply list_elem_of_singleton in Hr as ->. simpl in *.
        destruct Ht as [<-| <-]; tauto.
  - intros r. rewrite elem_of_app, list_elem_of_singleton, !elem_of_setAdd.
    intros [Hr| ->]; simpl; [|tauto].
    destruct (Hle r Hr); tauto.
  - intros r l. rewrite elem_of_app, list_elem_of_singleton.
    intros [Hr| ->] Hl; simpl in *.
    + destruct (Hl1 r l Hr Hl) as (s & Hs & Hin).
      destruct (addLocs_mono a l1 _ _ _ _ Hs Hin) as (s' & Hs' & Hin').
      by apply (addLocs_mono b l2 _ _ _ _ Hs' Hin').
    + destruct (addLocs_new a l1 (proteinToLocs acc) l Hl) as (s & Hs & Hin).
      by apply (addLocs_mono b l2 _ _ _ _ Hs Hin).
  - intros r l. rewrite elem_of_app, list_elem_of_singleton.
    intros [Hr| ->] Hl; simpl in *.
    + destruct (Hl2 r l Hr Hl) as (s & Hs & Hin).
      destruct (addLocs_mono a l1 _ _ _ _ Hs Hin) as (s' & Hs' & Hin').
      by apply (addLocs_mono b l2 _ _ _ _ Hs' Hin').
    + by apply addLocs_new.
  - apply addLocs_ok; [apply splitLocs_truthy|].
    apply addLocs_ok; [apply splitLocs_truthy | done].
  - intros r l. rewrite elem_of_app, list_elem_of_singleton.
    intros [Hr| ->] Hl; simpl in *; [by eapply Hrl|].
    apply elem_of_app in Hl as [Hl|Hl]; by eapply splitLocs_truthy.
Qed.

Lemma ingest_ok args lines header row acc :
  AccOk acc → AccOk (ingest Number args lines header row acc).2.
Proof.
  revert header row acc.
  induction lines as [|line rest IH]; intros header row acc Hok; cbn [ingest]; [done|].
  destruct (negb (truthy line)); [by apply IH|].
  destruct (startsWith "#" line); [by apply IH|].
  destruct header as [c|]; [|by apply IH].
  destruct (overLimit (S row) (limit args)); [done|].
  by apply IH, ingestRow_ok.
Qed.

Lemma run_acc_ok args lines : AccOk (ingest Number args lines None 0 emptyAcc).2.
Proof. apply ingest_ok, emptyAcc_ok. Qed.


(** As long as no line yields the header, nothing is accumulated. *)
Lemma ingest_no_header args lines row acc :
  Forall (λ line, yieldsHeader args line = false) lines →
  ingest Number args lines None row acc = (None, acc).
Proof.
  induction 1 as [|line rest Hline _ IH]; cbn [ingest]; [done|].
  unfold yieldsHeader in Hline.
  destruct (truthy line); cbn [negb]; [|done].
  destruct (startsWith "#" line); [done|].
  destruct (detectHeader args line) as [c|]; [|done].
  cbn [andb negb] in Hline. apply bool_decide_eq_false in Hline.
  by destruct Hline.
Qed.

End WithNumber.

End IngestFacts.

(** ** Row validation and the header scan *)

Module RowFacts.
Import Js JsFacts TsvToGraph Spec IngestFacts.



(** C2, as the code has it.  When no line of the input yields the header,
    the run does not fail: it exits with code 0, prints nothing on the error
    stream, and writes a dataset, which has neither nodes nor edges.  The
    later version of the script writes the empty locality dataset as well. *)
Theorem C2_missing_header_is_not_fatal (Number : string → jsnum) args lines :
  Forall (λ line, yieldsHeader args line = false) lines →
  (exitCode (run Number args (InputLines lines)) = 0%nat
   ∧ stderr (run Number args (InputLines lines)) = []
   ∧ ∃ d, written (run Number args (InputLines lines)) = [d]
          ∧ Dataset.nodes d = [] ∧ Dataset.edges d = [])
  ∧ (exitCode (runLocality Number args (InputLines lines)) = 0%nat
     ∧ stderr (runLocality Number args (InputLines lines)) = []
     ∧ ∃ d dL, written (runLocality Number args (InputLines lines)) = [d; dL]
               ∧ Dataset.nodes d = [] ∧ Dataset.edges d = []
               ∧ Dataset.nodes dL = [] ∧ Dataset.edges dL = []).
Proof.
  intros H. unfold run, runLocality.
  rewrite (ingest_no_header Number args lines 0 emptyAcc H).
  cbn. split; split_and!; try done; eauto 10.
Qed.

Lemma C2_witness :
  (exitCode (run Sample.decimal defaultArgs
               (InputLines [Sample.tsv ["id_a"; "id_b"]; Sample.tsv ["p1"; "p2"]])) = 0%nat
   ∧ stderr (run Sample.decimal defaultArgs
               (InputLines [Sample.tsv ["id_a"; "id_b"]; Sample.tsv ["p1"; "p2"]])) = []
   ∧ ∃ d, written (run Sample.decimal defaultArgs
                     (InputLines [Sample.tsv ["id_a"; "id_b"]; Sample.tsv ["p1"; "p2"]])) = [d]
          ∧ Dataset.nodes d = [] ∧ Dataset.edges d = [])
  ∧ (exitCode (runLocality Sample.decimal defaultArgs
                 (InputLines [Sample.tsv ["id_a"; "id_b"]; Sample.tsv ["p1"; "p2"]])) = 0%nat
     ∧ stderr (runLocality Sample.decimal defaultArgs
                 (InputLines [Sample.tsv ["id_a"; "id_b"]; Sample.tsv ["p1"; "p2"]])) = []
     ∧ ∃ d dL, written (runLocality Sample.decimal defaultArgs
                          (InputLines [Sample.tsv ["id_a"; "id_b"]; Sample.tsv ["p1"; "p2"]]))
               = [d; dL]
               ∧ Dataset.nodes d = [] ∧ Dataset.edges d = []
               ∧ Dataset.nodes dL = [] ∧ Dataset.edges dL = []).
Proof.
  apply (C2_missing_header_is_not_fatal Sample.decimal defaultArgs
           [Sample.tsv ["id_a"; "id_b"]; Sample.tsv ["p1"; "p2"]]).
  repeat constructor.
Defined.

End RowFacts.

(** ** Graph assembly and export *)

Module AssembleFacts.
Import Js JsFacts TsvToGraph Spec IngestFacts.

Lemma append_cancel_l s b b' : s +:+ b = s +:+ b' → b = b'.
Proof. induction s as [|c s IH]; simpl; [done|]. intros [= H]. by apply IH. Qed.

(** A separator that starts with a code unit absent from the left parts
    splits a string in one way only. *)
Lemma append_sep_inj c sep a b a' b' :
  free c a → free c a' →
  a +:+ String c sep +:+ b = a' +:+ String c sep +:+ b' → a = a' ∧ b = b'.
Proof.
  revert a'. induction a as [|d a IH]; intros [|d' a'] Ha Ha'; simpl.
  - intros [= H]. split; [done|]. by apply append_cancel_l in H.
  - intros [= -> _]. by destruct Ha'.
  - intros [= -> _]. by destruct Ha.
  - intros [= -> H]. destruct Ha as [_ Ha], Ha' as [_ Ha'].
    destruct (IH a' Ha Ha' H) as [-> ->]. done.
Qed.

Lemma edgeKey_sym a b : edgeKey false a b = edgeKey false b a.
Proof.
  unfold edgeKey. destruct (lt a b) eqn:Hab.
  - by rewrite (lt_asym _ _ Hab).
  - destruct (lt b a) eqn:Hba; [done|].
    by rewrite (lt_total _ _ Hab Hba).
Qed.

Lemma edgeKey_undirected_inj a b a' b' :
  free "|" a → free "|" b → free "|" a' → free "|" b' →
  edgeKey false a b = edgeKey false a' b' →
  (a = a' ∧ b = b') ∨ (a = b' ∧ b = a').
Proof.
  intros Ha Hb Ha' Hb'. unfold edgeKey.
  destruct (lt a b), (lt a' b'); intros H;
    apply (append_sep_inj "|" "") in H as [-> ->]; auto.
Qed.

Lemma edgeKey_directed_inj a b a' b' :
  free "-" a → free "-" a' →
  edgeKey true a b = edgeKey true a' b' → a = a' ∧ b = b'.
Proof. intros Ha Ha'. unfold edgeKey. by apply (append_sep_inj "-" ">"). Qed.

(** *** [keepFirst] *)

Section KeepFirst.
Context {A : Type} (keyOf : A → string).

Lemma elem_of_keys_keepFirst k (l : list A) :
  k ∈ keyOf <$> keepFirst keyOf l ↔ k ∈ keyOf <$> l.
Proof.
  induction l as [|r rest IH]; simpl; [done|].
  rewrite !elem_of_cons, <-IH, !list_elem_of_fmap.
  split.
  - intros [->|(x & -> & Hx)]; [by left|].
    apply list_elem_of_filter in Hx as [_ Hx]. right. eauto.
  - intros [->|(x & -> & Hx)]; [by left|].
    destruct (decide (keyOf x = keyOf r)) as [E|E]; [by left|].
    right. exists x. split; [done|]. by apply list_elem_of_filter.
Qed.

(** [keepFirst] keeps a row exactly when no row before it has its key. *)
Lemma elem_of_keepFirst_first (l : list A) x :
  x ∈ keepFirst keyOf l
  ↔ ∃ pre post, l = pre ++ x :: post ∧ ∀ y, y ∈ pre → keyOf y ≠ keyOf x.
Proof.
  induction l as [|r rest IH]; simpl.
  - split; [by intros ?%elem_of_nil|]. intros (pre & post & E & _).
    by destruct pre.
  - rewrite elem_of_cons, list_elem_of_filter, IH. split.
    + intros [->|[Hne (pre & post & -> & Hpre)]].
      * exists [], rest. split; [done|]. intros y Hy. by apply elem_of_nil in Hy.
      * exists (r :: pre), post. split; [done|].
        intros y [->|Hy]%elem_of_cons; [congruence | by apply Hpre].
    + intros (pre & post & E & Hpre). destruct pre as [|r' pre]; simpl in E.
      * injection E as -> _. by left.
      * injection E as Er Erest. subst r' rest. right. split.
        -- intros E. apply (Hpre r); [by left | done].
        -- exists pre, post. split; [done|]. intros y Hy. apply Hpre. by right.
Qed.

Lemma NoDup_keys_filter (P : A → Prop) `{!∀ x, Decision (P x)} (l : list A) :
  NoDup (keyOf <$> l) → NoDup (keyOf <$> filter P l).
Proof.
  intros Hnd. apply (sublist_NoDup _ _ Hnd), fmap_sublist, sublist_filter.
Qed.

Lemma NoDup_keys_keepFirst (l : list A) : NoDup (keyOf <$> keepFirst keyOf l).
Proof.
  induction l as [|r rest IH]; simpl; [constructor|].
  constructor; [|by apply NoDup_keys_filter].
  rewrite list_elem_of_fmap. intros (x & E & Hx).
  apply list_elem_of_filter in Hx as [Hx _]. congruence.
Qed.

Lemma length_keepFirst (l : list A) :
  length (keepFirst keyOf l) = size (list_to_set (keyOf <$> l) : gset string).
Proof.
  rewrite <-(length_fmap keyOf (keepFirst keyOf l)).
  rewrite <-(size_list_to_set (C := gset string)) by apply NoDup_keys_keepFirst.
  f_equal. apply set_eq. intros k.
  by rewrite !elem_of_list_to_set, elem_of_keys_keepFirst.
Qed.

(** Dropping, from what [keepFirst] keeps, the rows whose key has been seen
    before. *)
Lemma keepFirst_unseen_cons_seen (seen : gset string) r (rest : list A) :
  keyOf r ∈ seen →
  filter (λ x, keyOf x ∉ seen) (keepFirst keyOf (r :: rest))
  = filter (λ x, keyOf x ∉ seen) (keepFirst keyOf rest).
Proof.
  intros Hr. simpl. rewrite filter_cons_False by tauto.
  rewrite list_filter_filter. apply list_filter_iff.
  intros x. split; [tauto|]. intros Hx. split; [done|]. congruence.
Qed.

Lemma keepFirst_unseen_cons_new (seen : gset string) r (rest : list A) :
  keyOf r ∉ seen →
  filter (λ x, keyOf x ∉ seen) (keepFirst keyOf (r :: rest))
  = r :: filter (λ x, keyOf x ∉ {[keyOf r]} ∪ seen) (keepFirst keyOf rest).
Proof.
  intros Hr. simpl. rewrite filter_cons_True by done. f_equal.
  rewrite list_filter_filter. apply list_filter_iff.
  intros x. rewrite not_elem_of_union, not_elem_of_singleton. tauto.
Qed.

Lemma filter_unseen_all (seen : gset string) (l : list A) :
  (∀ x, x ∈ l → keyOf x ∉ seen) → filter (λ x, keyOf x ∉ seen) l = l.
Proof.
  induction l as [|x t IH]; intros H; [done|].
  rewrite filter_cons_True by (apply H; by left).
  f_equal. apply IH. intros y Hy. apply H. by right.
Qed.

End KeepFirst.

(** *** [addNodes] and [addEdges] never throw *)

Lemma addNodes_spec ids g :
  NoDup ids → (∀ n, n ∈ ids → n ∉ Graphology.nodes g) →
  addNodes ids g
  = Some {| Graphology.nodes := Graphology.nodes g ++ ids;
            Graphology.edges := Graphology.edges g |}.
Proof.
  revert g. induction ids as [|n ids IH]; intros g Hnd Hfresh; simpl.
  - rewrite app_nil_r. by destruct g.
  - apply NoDup_cons in Hnd as [Hn Hnd].
    unfold Graphology.addNode, Graphology.hasNode.
    rewrite bool_decide_eq_false_2 by (apply Hfresh; by left). simpl.
    rewrite IH; simpl.
    + by rewrite <-(assoc_L (++)).
    + done.
    + intros m Hm. rewrite elem_of_app, list_elem_of_singleton.
      intros [?| ->]; [|done]. eapply Hfresh; [by right | done].
Qed.

Lemma linked_key directed a b e :
  Graphology.linked directed a b e = true →
  edgeKey directed (Graphology.source e) (Graphology.target e) = edgeKey directed a b.
Proof.
  unfold Graphology.linked. intros H.
  apply orb_true_iff in H as [H|H].
  - apply andb_true_iff in H as [Hs Ht].
    apply String.eqb_eq in Hs, Ht. by rewrite Hs, Ht.
  - apply andb_true_iff in H as [H Ht]. apply andb_true_iff in H as [Hd Hs].
    apply String.eqb_eq in Hs, Ht. rewrite Hs, Ht.
    destruct directed; [done|]. apply edgeKey_sym.
Qed.

Lemma addEdges_spec directed raw seen g :
  (∀ r, r ∈ raw → ra r ∈ Graphology.nodes g ∧ rb r ∈ Graphology.nodes g) →
  keyed directed seen g →
  addEdges directed raw seen g
  = Some {| Graphology.nodes := Graphology.nodes g;
            Graphology.edges :=
              Graphology.edges g
              ++ ((λ r, graphEdge (edgeKey directed (ra r) (rb r)) r)
                  <$> filter (λ r, edgeKey directed (ra r) (rb r) ∉ seen)
                        (keepFirst (λ r, edgeKey directed (ra r) (rb r)) raw)) |}.
Proof.
  revert seen g. induction raw as [|r rest IH]; intros seen g Hends Hkeyed.
  - simpl. rewrite app_nil_r. by destruct g.
  - cbn [addEdges]. unfold Graphology.hasNode.
    destruct (Hends r) as [Ha Hb]; [by left|].
    rewrite !bool_decide_eq_true_2 by done. cbn [negb orb].
    assert (∀ r0, r0 ∈ rest → ra r0 ∈ Graphology.nodes g ∧ rb r0 ∈ Graphology.nodes g)
      as Hrest by (intros r0 Hr0; apply Hends; by right).
    case_bool_decide as Hseen.
    + rewrite IH by done.
      by rewrite (keepFirst_unseen_cons_seen (λ r, edgeKey directed (ra r) (rb r))).
    + rewrite (keepFirst_unseen_cons_new (λ r, edgeKey directed (ra r) (rb r))) by done.
      unfold Graphology.addEdgeWithKey. unfold Graphology.hasNode.
      cbn [Graphology.source Graphology.target Graphology.key graphEdge].
      rewrite !bool_decide_eq_true_2 by done. cbn [negb orb].
      destruct (existsb _ (Graphology.edges g)) eqn:Hk.
      { apply existsb_exists in Hk as (e & He & Hek).
        apply String.eqb_eq in Hek. apply list_elem_of_In in He.
        destruct (Hkeyed e He) as [_ Hin]. congruence. }
      destruct (existsb (Graphology.linked _ _ _) (Graphology.edges g)) eqn:Hl.
      { apply existsb_exists in Hl as (e & He & Hlk).
        apply linked_key in Hlk. apply list_elem_of_In in He.
        destruct (Hkeyed e He) as [Hke Hin]. congruence. }
      cbn [mbind option_bind]. rewrite IH; [|exact Hrest|].
      * simpl. by rewrite <-(assoc_L (++)).
      * intros e. unfold keyed. cbn [Graphology.edges].
        rewrite elem_of_app, list_elem_of_singleton.
        intros [He| ->].
        -- destruct (Hkeyed e He). split; [done|]. apply elem_of_union; by right.
        -- simpl. split; [done|]. apply elem_of_union; left. by apply elem_of_singleton.
Qed.

Lemma assemble_spec args acc :
  AccOk acc →
  assemble args acc
  = Some {| Graphology.nodes := nodeSet acc;
            Graphology.edges :=
              (λ r, graphEdge (edgeKey (directed args) (ra r) (rb r)) r)
              <$> keepFirst (λ r, edgeKey (directed args) (ra r) (rb r)) (edgesRaw acc) |}.
Proof.
  intros Hok. unfold assemble.
  rewrite addNodes_spec; [|apply Hok|].
  - cbn [mbind option_bind]. rewrite addEdges_spec.
    + cbn [Graphology.nodes Graphology.edges Graphology.empty app].
      do 3 f_equal.
      apply (filter_unseen_all (λ r, edgeKey (directed args) (ra r) (rb r))).
      intros x _. apply not_elem_of_empty.
    + apply Hok.
    + intros e He. by apply elem_of_nil in He.
  - intros n _ Hn. by apply elem_of_nil in Hn.
Qed.

End AssembleFacts.

(** ** The export loop *)

Module ExportFacts.
Import Js JsFacts Spec.

Lemma initAdjacency_lookup ns adj n :
  Exporter.initAdjacency ns adj !! n
  = if bool_decide (n ∈ ns) then Some [] else adj !! n.
Proof.
  revert adj. induction ns as [|m ns IH]; intros adj; simpl; [done|].
  rewrite IH. destruct (decide (n = m)) as [->|Hne].
  - rewrite (bool_decide_eq_true_2 (m ∈ m :: ns)) by (by left).
    case_bool_decide; [done|]. by rewrite lookup_insert_eq.
  - rewrite lookup_insert_ne by done.
    apply (f_equal (λ b : bool, if b then Some [] else adj !! n)).
    apply bool_decide_ext. rewrite elem_of_cons.
    split; [intros ?; by right | intros [?|?]; done].
Qed.

Lemma push_spec k v adj l :
  adj !! k = Some l →
  ∃ adj', Dataset.push k v adj = Some adj'
    ∧ ∀ n, adj' !! n
           = (λ l, l ++ (if String.eqb k n then [v] else [])) <$> adj !! n.
Proof.
  intros Hk. unfold Dataset.push. rewrite Hk. eexists. split; [done|].
  intros n. destruct (String.eqb k n) eqn:E.
  - apply String.eqb_eq in E as <-. by rewrite lookup_insert_eq, Hk.
  - apply String.eqb_neq in E. rewrite lookup_insert_ne by done.
    destruct (adj !! n); simpl; [|done]. by rewrite app_nil_r.
Qed.

Lemma exportEdges_spec es out adj :
  (∀ e, e ∈ es → is_Some (adj !! Graphology.source e)
                 ∧ is_Some (adj !! Graphology.target e)) →
  ∃ adj', Exporter.exportEdges es out adj
          = Some (out ++ (Exporter.exportEdge <$> es), adj')
    ∧ ∀ n, adj' !! n = (λ l, l ++ concat (contrib n <$> es)) <$> adj !! n.
Proof.
  revert out adj. induction es as [|e rest IH]; intros out adj Hends.
  - exists adj. simpl. rewrite app_nil_r. split; [done|].
    intros n. destruct (adj !! n); simpl; [|done]. by rewrite app_nil_r.
  - destruct (Hends e) as [[ls Hs] [lt Ht]]; [by left|].
    destruct (push_spec _ (Graphology.target e) _ _ Hs) as (adj1 & Hp1 & H1).
    assert (is_Some (adj1 !! Graphology.target e)) as [lt' Ht'].
    { rewrite H1, Ht. by eexists. }
    destruct (push_spec _ (Graphology.source e) _ _ Ht') as (adj2 & Hp2 & H2).
    destruct (IH (out ++ [Exporter.exportEdge e]) adj2) as (adj' & Hx & Hl).
    { intros e' He'. destruct (Hends e') as [[? E1] [? E2]]; [by right|].
      rewrite !H2, !H1, E1, E2. split; by eexists. }
    exists adj'. cbn [Exporter.exportEdges]. rewrite Hp1. cbn [mbind option_bind].
    rewrite Hp2. cbn [mbind option_bind]. rewrite Hx.
    split; [by rewrite <-(assoc_L (++))|].
    intros n. rewrite Hl, H2, H1. destruct (adj !! n) as [l|]; simpl; [|done].
    unfold contrib. by rewrite <-!(assoc_L (++)).
Qed.

Lemma export_spec mk g :
  Graphology.wf g →
  ∃ d, Exporter.export mk g = Some d
    ∧ Dataset.nodes d = Exporter.exportNodes mk g
    ∧ Dataset.edges d = Exporter.exportEdge <$> Graphology.edges g
    ∧ Dataset.order d = length (Graphology.nodes g)
    ∧ Dataset.size d = length (Graphology.edges g)
    ∧ Dataset.view d = None
    ∧ ∀ n, Dataset.adjacency d !! n
           = if bool_decide (n ∈ Graphology.nodes g)
             then Some (concat (contrib n <$> Graphology.edges g)) else None.
Proof.
  intros Hwf. unfold Exporter.export.
  destruct (exportEdges_spec (Graphology.edges g) []
              (Exporter.initAdjacency (Graphology.nodes g) ∅)) as (adj' & Hx & Hl).
  { intros e He. destruct (Hwf e He) as [Hs Ht].
    rewrite !initAdjacency_lookup, !bool_decide_eq_true_2 by done.
    split; by eexists. }
  rewrite Hx. cbn [mbind option_bind]. eexists. split; [done|].
  cbn. unfold Exporter.exportNodes. rewrite !length_fmap.
  split_and!; try done.
  intros n. rewrite Hl, initAdjacency_lookup.
  case_bool_decide; [done|]. by rewrite lookup_empty.
Qed.

(** The entries of a node's adjacency list are the other ends of its edges. *)
Lemma elem_of_contribs a b (es : list Graphology.EdgeData) :
  b ∈ concat (contrib a <$> es)
  ↔ ∃ e, e ∈ es
      ∧ ((Graphology.source e = a ∧ Graphology.target e = b)
         ∨ (Graphology.target e = a ∧ Graphology.source e = b)).
Proof.
  induction es as [|e rest IH]; simpl.
  - split; [by intros ?%elem_of_nil | by intros (? & ?%elem_of_nil & _)].
  - rewrite elem_of_app, IH. unfold contrib at 1. rewrite elem_of_app.
    split.
    + intros [[H|H]|(e' & He' & H)].
      * destruct (String.eqb _ a) eqn:E; [|by apply elem_of_nil in H].
        apply String.eqb_eq in E. apply list_elem_of_singleton in H.
        exists e. split; [by left | by left].
      * destruct (String.eqb (Graphology.target e) a) eqn:E; [|by apply elem_of_nil in H].
        apply String.eqb_eq in E. apply list_elem_of_singleton in H.
        exists e. split; [by left | by right].
      * exists e'. split; [by right | done].
    + intros (e' & He' & H). apply elem_of_cons in He' as [->|He'].
      * left. destruct H as [[<- <-]|[<- <-]].
        -- left. rewrite String.eqb_refl. by apply list_elem_of_singleton.
        -- right. rewrite String.eqb_refl. by apply list_elem_of_singleton.
      * right. eauto.
Qed.

Lemma length_contribs n (es : list Graphology.EdgeData) :
  length (concat (contrib n <$> es))
  = Graphology.degree {| Graphology.nodes := []; Graphology.edges := es |} n.
Proof.
  unfold Graphology.degree. cbn [Graphology.edges].
  induction es as [|e rest IH]; [done|].
  cbn [fmap list_fmap concat foldr]. rewrite length_app, IH. f_equal.
  unfold contrib, Graphology.ends. rewrite length_app.
  by destruct (String.eqb _ n), (String.eqb (Graphology.target e) n).
Qed.

End ExportFacts.

(** ** The default view *)

Module DefaultViewFacts.
Import Js JsFacts TsvToGraph Spec IngestFacts AssembleFacts ExportFacts.

Lemma elem_of_keepFirst {A} (keyOf : A → string) (l : list A) x :
  x ∈ keepFirst keyOf l → x ∈ l.
Proof.
  revert x. induction l as [|r rest IH]; intros x; simpl; [done|].
  rewrite !elem_of_cons. intros [->|Hx]; [by left|].
  apply list_elem_of_filter in Hx as [_ Hx]. right. by apply IH.
Qed.

Lemma assembled_wf args acc : AccOk acc → Graphology.wf (assembled args acc).
Proof.
  intros Hok e. unfold assembled. cbn [Graphology.edges Graphology.nodes].
  rewrite list_elem_of_fmap. intros (r & -> & Hr).
  apply elem_of_keepFirst in Hr. by apply Hok.
Qed.

Lemma defaultView_spec args acc :
  AccOk acc →
  ∃ d, defaultView args acc = Some d
    ∧ Dataset.nodes d
      = (λ n, nodeOut acc n (Graphology.degree (assembled args acc) n)) <$> nodeSet acc
    ∧ Dataset.edges d
      = edgeOfRow (directed args)
        <$> keepFirst (λ r, edgeKey (directed args) (ra r) (rb r)) (edgesRaw acc)
    ∧ ∀ n, Dataset.adjacency d !! n
           = if bool_decide (n ∈ nodeSet acc)
             then Some (concat (contrib n <$> Graphology.edges (assembled args acc)))
             else None.
Proof.
  intros Hok. unfold defaultView. rewrite assemble_spec by done.
  cbn [mbind option_bind]. fold (assembled args acc).
  destruct (export_spec (nodeOut acc) _ (assembled_wf args acc Hok))
    as (d & Hd & Hn & He & _ & _ & _ & Hadj).
  exists d. split_and!; try done.
  rewrite He. unfold assembled. cbn [Graphology.edges].
  by rewrite <-list_fmap_compose.
Qed.

End DefaultViewFacts.

(** ** The locality view *)

Module LocalityFacts.
Import Js JsFacts TsvToGraph Spec IngestFacts AssembleFacts ExportFacts DefaultViewFacts.

(** *** Node instances *)

Lemma addInstance_ok acc id st loc : InstOk st → InstOk (addInstance acc id st loc).
Proof.
  intros [Hseen Hnd Hadj Hfresh]. unfold addInstance.
  case_bool_decide as Hk; [by split|].
  split; cbn [nodesOutL adjacencyL nodeSeenL].
  - intros k. rewrite fmap_app, elem_of_app, elem_of_union, elem_of_singleton, Hseen.
    cbn. rewrite list_elem_of_singleton. tauto.
  - rewrite fmap_app. apply NoDup_app. split_and!; [done| |apply NoDup_singleton].
    intros k Hin Hk'. cbn in Hk'. apply list_elem_of_singleton in Hk' as ->.
    by apply Hk, Hseen.
  - intros k. destruct (decide (k = nodeKey id loc)) as [->|Hne].
    + rewrite lookup_insert_eq, bool_decide_eq_true_2; [done|].
      apply elem_of_union. left. by apply elem_of_singleton.
    + rewrite lookup_insert_ne by done. rewrite Hadj.
      apply (f_equal (λ b : bool, if b then Some [] else None)).
      apply bool_decide_ext. rewrite elem_of_union, elem_of_singleton. tauto.
  - intros n. rewrite elem_of_app, list_elem_of_singleton.
    intros [Hn| ->]; [by apply Hfresh | done].
Qed.

Lemma addInstance_mono acc id st loc k :
  k ∈ nodeSeenL st → k ∈ nodeSeenL (addInstance acc id st loc).
Proof.
  intros Hk. unfold addInstance. case_bool_decide; [done|].
  cbn. apply elem_of_union. by right.
Qed.

Lemma addInstance_covers acc id st loc :
  nodeKey id loc ∈ nodeSeenL (addInstance acc id st loc).
Proof.
  unfold addInstance. case_bool_decide; [done|].
  cbn. apply elem_of_union. left. by apply elem_of_singleton.
Qed.

Lemma instances_of_id acc id locs st :
  InstOk st →
  InstOk (foldl (addInstance acc id) st locs)
  ∧ (∀ k, k ∈ nodeSeenL st → k ∈ nodeSeenL (foldl (addInstance acc id) st locs))
  ∧ (∀ loc, loc ∈ locs → nodeKey id loc ∈ nodeSeenL (foldl (addInstance acc id) st locs)).
Proof.
  revert st. induction locs as [|loc locs IH]; intros st Hok; simpl.
  - split_and!; [done|done|]. intros loc Hloc. by apply elem_of_nil in Hloc.
  - destruct (IH _ (addInstance_ok acc id st loc Hok)) as (Hok' & Hmono & Hcov).
    split_and!; [done| |].
    + intros k Hk. by apply Hmono, addInstance_mono.
    + intros l. rewrite elem_of_cons. intros [->|Hl]; [|by apply Hcov].
      apply Hmono, addInstance_covers.
Qed.

Lemma instances_of_ids acc ids st :
  InstOk st →
  InstOk (foldl (λ st id, foldl (addInstance acc id) st (locsOf acc id)) st ids)
  ∧ (∀ k, k ∈ nodeSeenL st →
          k ∈ nodeSeenL (foldl (λ st id, foldl (addInstance acc id) st (locsOf acc id)) st ids))
  ∧ (∀ id loc, id ∈ ids → loc ∈ locsOf acc id →
       nodeKey id loc
       ∈ nodeSeenL (foldl (λ st id, foldl (addInstance acc id) st (locsOf acc id)) st ids)).
Proof.
  revert st. induction ids as [|id ids IH]; intros st Hok; simpl.
  - split_and!; [done|done|]. intros id loc Hid. by apply elem_of_nil in Hid.
  - destruct (instances_of_id acc id (locsOf acc id) st Hok) as (Hok1 & Hmono1 & Hcov1).
    destruct (IH _ Hok1) as (Hok' & Hmono & Hcov).
    split_and!; [done| |].
    + intros k Hk. by apply Hmono, Hmono1.
    + intros i loc. rewrite elem_of_cons. intros [->|Hi] Hloc.
      * by apply Hmono, Hcov1.
      * by apply Hcov.
Qed.

Lemma createInstances_ok acc :
  InstOk (createInstances acc)
  ∧ ∀ id loc, id ∈ nodeSet acc → loc ∈ locsOf acc id →
      nodeKey id loc ∈ Dataset.id <$> nodesOutL (createInstances acc).
Proof.
  unfold createInstances.
  destruct (instances_of_ids acc (nodeSet acc)
              {| nodesOutL := []; adjacencyL := ∅; nodeSeenL := ∅ |})
    as (Hok & _ & Hcov).
  - split; cbn.
    + intros k. rewrite elem_of_nil. set_solver.
    + constructor.
    + intros k. by rewrite lookup_empty, bool_decide_eq_false_2 by set_solver.
    + intros n Hn. by apply elem_of_nil in Hn.
  - split; [done|]. intros id loc Hid Hloc. by apply Hok, Hcov.
Qed.

(** *** [nodeIndexL] *)

Lemma indexNodes_other ns i m k :
  k ∉ Dataset.id <$> ns → indexNodes ns i m !! k = m !! k.
Proof.
  revert i m. induction ns as [|n ns IH]; intros i m Hk; simpl; [done|].
  rewrite fmap_cons, not_elem_of_cons in Hk. destruct Hk as [Hne Hk].
  rewrite IH by done. by rewrite lookup_insert_ne.
Qed.

Lemma indexNodes_lookup ns i m k j :
  k ∈ Dataset.id <$> ns → indexNodes ns i m !! k = Some j →
  (i ≤ j)%nat ∧ (Dataset.id <$> ns) !! (j - i)%nat = Some k.
Proof.
  revert i m. induction ns as [|n ns IH]; intros i m Hk Hj; simpl in *.
  - by apply elem_of_nil in Hk.
  - destruct (decide (k ∈ Dataset.id <$> ns)) as [Hin|Hout].
    + destruct (IH _ _ Hin Hj) as [Hle Hl]. split; [lia|].
      replace (j - i)%nat with (S (j - S i)) by lia. done.
    + rewrite indexNodes_other in Hj by done.
      apply elem_of_cons in Hk as [->|Hk]; [|done].
      rewrite lookup_insert_eq in Hj. injection Hj as <-.
      split; [done|]. by rewrite Nat.sub_diag.
Qed.

Lemma indexNodes_is_Some ns i m k :
  k ∈ Dataset.id <$> ns → is_Some (indexNodes ns i m !! k).
Proof.
  revert i m. induction ns as [|n ns IH]; intros i m Hk; simpl in *.
  - by apply elem_of_nil in Hk.
  - destruct (decide (k ∈ Dataset.id <$> ns)) as [Hin|Hout]; [by apply IH|].
    rewrite indexNodes_other by done.
    apply elem_of_cons in Hk as [->|Hk]; [|done].
    rewrite lookup_insert_eq. by eexists.
Qed.

Lemma indexNodes_indexed ns :
  indexed (Dataset.id <$> ns) (indexNodes ns 0 ∅).
Proof.
  split.
  - intros k i Hi.
    destruct (decide (k ∈ Dataset.id <$> ns)) as [Hin|Hout].
    + destruct (indexNodes_lookup _ _ _ _ _ Hin Hi) as [_ H].
      by rewrite Nat.sub_0_r in H.
    + by rewrite indexNodes_other, lookup_empty in Hi.
  - intros k. apply indexNodes_is_Some.
Qed.

(** *** The edge loop *)

Lemma push_pair aKey bKey adj :
  is_Some (adj !! aKey) → is_Some (adj !! bKey) →
  ∃ adj2, (Dataset.push aKey bKey adj ≫= Dataset.push bKey aKey) = Some adj2
    ∧ ∀ n, adj2 !! n = (λ l, l ++ extra aKey bKey n) <$> adj !! n.
Proof.
  intros [la Ha] [lb Hb].
  destruct (push_spec aKey bKey adj la Ha) as (adj1 & Hp1 & H1).
  assert (is_Some (adj1 !! bKey)) as [lb' Hb'] by (rewrite H1, Hb; by eexists).
  destruct (push_spec bKey aKey adj1 lb' Hb') as (adj2 & Hp2 & H2).
  exists adj2. rewrite Hp1. cbn [mbind option_bind]. split; [done|].
  intros n. rewrite H2, H1. destruct (adj !! n); simpl; [|done].
  unfold extra. by rewrite <-(assoc_L (++)).
Qed.

Lemma incDegree_alter_lookup i j (ns : list Dataset.Node) p n :
  alter incDegree j (alter incDegree i ns) !! p = Some n →
  ∃ n0, ns !! p = Some n0
    ∧ Dataset.id n = Dataset.id n0
    ∧ Dataset.hasAllDBsNone n = Dataset.hasAllDBsNone n0
    ∧ Dataset.degree n
      = (Dataset.degree n0 + (if decide (i = p) then 1 else 0)
         + (if decide (j = p) then 1 else 0))%nat.
Proof.
  rewrite !list_lookup_alter.
  destruct (decide (j = p)) as [->|Hj], (decide (i = p)) as [->|Hi];
    destruct (ns !! p) as [n0|]; simpl; intros [= <-]; exists n0;
    split_and!; try done; simpl; lia.
Qed.

Lemma incDegree_alter_ids i j (ns : list Dataset.Node) :
  Dataset.id <$> alter incDegree j (alter incDegree i ns) = Dataset.id <$> ns.
Proof.
  apply list_eq. intros p. rewrite !list_lookup_fmap, !list_lookup_alter.
  destruct (decide (j = p)) as [->|Hj], (decide (i = p)) as [->|Hi];
    by destruct (ns !! p).
Qed.

Lemma elem_of_extra aKey bKey a b :
  b ∈ extra aKey bKey a ↔ (aKey = a ∧ b = bKey) ∨ (bKey = a ∧ b = aKey).
Proof.
  unfold extra. rewrite elem_of_app.
  destruct (String.eqb_spec aKey a) as [E1|E1], (String.eqb_spec bKey a) as [E2|E2];
    rewrite ?list_elem_of_singleton, ?elem_of_nil; tauto.
Qed.

Lemma length_extra aKey bKey k :
  length (extra aKey bKey k)
  = ((if decide (aKey = k) then 1 else 0) + (if decide (bKey = k) then 1 else 0))%nat.
Proof.
  unfold extra. rewrite length_app.
  destruct (String.eqb_spec aKey k) as [E1|E1], (String.eqb_spec bKey k) as [E2|E2];
    repeat case_decide; done.
Qed.

Lemma LocOk_step ids idx aKey bKey st i j adj2 seen out :
  NoDup ids → indexed ids idx → LocOk ids st →
  idx !! aKey = Some i → idx !! bKey = Some j →
  (∀ n, adj2 !! n = (λ l, l ++ extra aKey bKey n) <$> adjL st !! n) →
  LocOk ids {| seenEdgesL := seen; edgesOutL := out; adjL := adj2;
               nodesL := alter incDegree j (alter incDegree i (nodesL st)) |}.
Proof.
  intros Hnd [Hidx _] [Hids Hadj Hdeg Hsym Hflag] Hi Hj H2.
  apply Hidx in Hi, Hj.
  assert (∀ a, default [] (adj2 !! a) = default [] (adjL st !! a) ++ extra aKey bKey a)
    as Hdef.
  { intros a. rewrite H2. destruct (adjL st !! a) as [l|] eqn:E; simpl; [done|].
    assert (a ∉ ids) as Ha by (rewrite <-Hadj, E; by intros [? ?]).
    unfold extra.
    destruct (String.eqb aKey a) eqn:E1.
    { apply String.eqb_eq in E1 as <-. exfalso. apply Ha.
      apply list_elem_of_lookup. eauto. }
    destruct (String.eqb bKey a) eqn:E2; [|done].
    apply String.eqb_eq in E2 as <-. exfalso. apply Ha.
    apply list_elem_of_lookup. eauto. }
  split; cbn [nodesL adjL].
  - by rewrite incDegree_alter_ids.
  - intros k. rewrite H2, <-Hadj. by rewrite fmap_is_Some.
  - intros p n Hn.
    apply incDegree_alter_lookup in Hn as (n0 & Hn0 & Hid & _ & Hd).
    rewrite Hd, Hid, Hdef, length_app, length_extra, (Hdeg p n0 Hn0).
    assert (ids !! p = Some (Dataset.id n0)) as Hp.
    { rewrite <-Hids, list_lookup_fmap, Hn0. done. }
    assert (∀ q k, ids !! q = Some k →
              (if decide (q = p) then 1 else 0)%nat
              = (if decide (k = Dataset.id n0) then 1 else 0)%nat) as Hpos.
    { intros q k Hq. destruct (decide (q = p)) as [->|Hne].
      - rewrite Hp in Hq. injection Hq as <-. by rewrite decide_True.
      - rewrite decide_False; [done|]. intros ->.
        apply Hne. by eapply NoDup_lookup. }
    rewrite (Hpos i aKey Hi), (Hpos j bKey Hj). lia.
  - intros a b. rewrite !Hdef, !elem_of_app, !elem_of_extra, (Hsym a b).
    split; (intros [?|[[? ?]|[? ?]]]; [by left|right..]); subst; tauto.
  - intros n Hn. apply list_elem_of_lookup in Hn as [p Hn].
    apply incDegree_alter_lookup in Hn as (n0 & Hn0 & _ & Hf & _).
    rewrite Hf. apply Hflag. apply list_elem_of_lookup. eauto.
Qed.

Lemma addEdgesL_spec acc ids idx raw st :
  NoDup ids → indexed ids idx →
  (∀ r, r ∈ raw → (route acc r).1 ∈ ids ∧ (route acc r).2 ∈ ids) →
  LocOk ids st →
  (∀ e, e ∈ edgesOutL st → Dataset.eid e ∈ seenEdgesL st) →
  ∃ st', addEdgesL acc idx raw st = Some st'
    ∧ LocOk ids st'
    ∧ edgesOutL st'
      = edgesOutL st
        ++ (routedEdge acc <$> filter (λ r, routeId acc r ∉ seenEdgesL st)
                                 (keepFirst (routeId acc) raw)).
Proof.
  intros Hnd Hidx. revert st.
  induction raw as [|r rest IH]; intros st Hroute Hok Hseen.
  - exists st. simpl. by rewrite app_nil_r.
  - cbn [addEdgesL].
    destruct (Hroute r) as [Ha Hb]; [by left|].
    destruct (proj2 Hidx _ Ha) as [i Hi]. destruct (proj2 Hidx _ Hb) as [j Hj].
    rewrite Hi, Hj.
    assert (∀ r0, r0 ∈ rest → (route acc r0).1 ∈ ids ∧ (route acc r0).2 ∈ ids)
      as Hrest by (intros r0 Hr0; apply Hroute; by right).
    fold (routeId acc r).
    case_bool_decide as Hin.
    + destruct (IH st Hrest Hok Hseen) as (st' & Hst' & Hok' & He).
      exists st'. split_and!; [done|done|].
      by rewrite He, (keepFirst_unseen_cons_seen (routeId acc)).
    + destruct (push_pair (route acc r).1 (route acc r).2 (adjL st))
        as (adj2 & Hp & H2); [by apply Hok..|].
      destruct (Dataset.push (route acc r).1 (route acc r).2 (adjL st))
        as [adj1|] eqn:Hp1; [|done].
      cbn [mbind option_bind] in Hp |- *. rewrite Hp. cbn [mbind option_bind].
      set (st1 := {| seenEdgesL := {[routeId acc r]} ∪ seenEdgesL st;
                     edgesOutL := edgesOutL st
                                  ++ [edgeOutL (route acc r).1 (route acc r).2 r];
                     adjL := adj2;
                     nodesL := alter incDegree j (alter incDegree i (nodesL st)) |}).
      destruct (IH st1 Hrest) as (st' & Hst' & Hok' & He).
      { by apply (LocOk_step ids idx (route acc r).1 (route acc r).2 st i j adj2). }
      { subst st1. cbn [edgesOutL seenEdgesL]. intros e.
        rewrite elem_of_app, list_elem_of_singleton, elem_of_union, elem_of_singleton.
        intros [He| ->]; [right; by apply Hseen | by left]. }
      exists st'. split_and!; [done|done|].
      rewrite He. subst st1. cbn [edgesOutL seenEdgesL].
      rewrite (keepFirst_unseen_cons_new (routeId acc)) by done.
      by rewrite <-(assoc_L (++)).
Qed.

(** *** Routing *)

Lemma rowLocs_a acc r :
  AccOk acc → r ∈ edgesRawLoc acc →
  rowLocs acc (la r) (locs1 r) ≠ []
  ∧ ∀ l, l ∈ rowLocs acc (la r) (locs1 r) → l ∈ locsOf acc (la r) ∧ truthy l = true.
Proof.
  intros Hok Hr. unfold rowLocs.
  destruct (locs1 r) as [|x t] eqn:E.
  - unfold locsOf. destruct (proteinToLocs acc !! la r) as [s|] eqn:Es; simpl.
    + destruct (ok_locs acc Hok _ _ Es) as [Hne Ht]. split; [done|]. auto.
    + split; [done|]. intros l ->%list_elem_of_singleton. split; [by left | done].
  - split; [done|]. intros l Hl. rewrite <-E in Hl. split.
    + destruct (ok_locs1 acc Hok r l Hr Hl) as (s & Hs & Hin).
      unfold locsOf. by rewrite Hs.
    + apply (ok_row_locs acc Hok r l Hr). apply elem_of_app. by left.
Qed.

Lemma rowLocs_b acc r :
  AccOk acc → r ∈ edgesRawLoc acc →
  rowLocs acc (lb r) (locs2 r) ≠ []
  ∧ ∀ l, l ∈ rowLocs acc (lb r) (locs2 r) → l ∈ locsOf acc (lb r) ∧ truthy l = true.
Proof.
  intros Hok Hr. unfold rowLocs.
  destruct (locs2 r) as [|x t] eqn:E.
  - unfold locsOf. destruct (proteinToLocs acc !! lb r) as [s|] eqn:Es; simpl.
    + destruct (ok_locs acc Hok _ _ Es) as [Hne Ht]. split; [done|]. auto.
    + split; [done|]. intros l ->%list_elem_of_singleton. split; [by left | done].
  - split; [done|]. intros l Hl. rewrite <-E in Hl. split.
    + destruct (ok_locs2 acc Hok r l Hr Hl) as (s & Hs & Hin).
      unfold locsOf. by rewrite Hs.
    + apply (ok_row_locs acc Hok r l Hr). apply elem_of_app. by right.
Qed.

Lemma firstOr_head l x :
  head l = Some x → truthy x = true → firstOr l = x.
Proof. destruct l as [|y t]; [done|]. intros [= ->] Ht. simpl. by rewrite Ht. Qed.



Lemma usedLocs_in aLocs bLocs :
  aLocs ≠ [] → bLocs ≠ [] →
  (∀ l, l ∈ aLocs → truthy l = true) → (∀ l, l ∈ bLocs → truthy l = true) →
  (usedLocs aLocs bLocs).1 ∈ aLocs ∧ (usedLocs aLocs bLocs).2 ∈ bLocs.
Proof.
  intros Ha Hb Hta Htb. unfold usedLocs.
  destruct (List.find _ aLocs) as [l|] eqn:E; simpl.
  - apply find_some in E as [Hin Hl]. apply bool_decide_eq_true in Hl.
    split; [by apply list_elem_of_In | done].
  - destruct aLocs as [|x ta]; [done|]. destruct bLocs as [|y tb]; [done|].
    simpl. rewrite (Hta x), (Htb y) by (by left). split; by left.
Qed.

Lemma route_in acc r :
  AccOk acc → r ∈ edgesRawLoc acc →
  (route acc r).1 ∈ Dataset.id <$> nodesOutL (createInstances acc)
  ∧ (route acc r).2 ∈ Dataset.id <$> nodesOutL (createInstances acc).
Proof.
  intros Hok Hr.
  destruct (rowLocs_a acc r Hok Hr) as [Hna Ha].
  destruct (rowLocs_b acc r Hok Hr) as [Hnb Hb].
  destruct (usedLocs_in _ _ Hna Hnb (λ l H, proj2 (Ha l H)) (λ l H, proj2 (Hb l H)))
    as [Hua Hub].
  destruct (ok_loc_ends acc Hok r Hr) as [Hla Hlb].
  unfold route. cbn [fst snd].
  split; apply (proj2 (createInstances_ok acc)); try done.
  - by apply Ha.
  - by apply Hb.
Qed.

Lemma localityView_spec acc :
  AccOk acc →
  ∃ d, localityView acc = Some d
    ∧ Dataset.view d = Some "locality"
    ∧ Dataset.edges d = routedEdge acc <$> keepFirst (routeId acc) (edgesRawLoc acc)
    ∧ Dataset.id <$> Dataset.nodes d = Dataset.id <$> nodesOutL (createInstances acc)
    ∧ (∀ a b, b ∈ Dataset.neighbours d a ↔ a ∈ Dataset.neighbours d b)
    ∧ (∀ n, n ∈ Dataset.nodes d →
            Dataset.degree n = length (Dataset.neighbours d (Dataset.id n)))
    ∧ (∀ n, n ∈ Dataset.nodes d → Dataset.hasAllDBsNone n = None).
Proof.
  intros Hok. unfold localityView.
  destruct (createInstances_ok acc) as [[Hseen Hnd Hadj Hfresh] Hcov].
  set (inst := createInstances acc) in *.
  set (st0 := {| seenEdgesL := ∅; edgesOutL := [];
                 adjL := adjacencyL inst; nodesL := nodesOutL inst |}).
  destruct (addEdgesL_spec acc (Dataset.id <$> nodesOutL inst)
              (indexNodes (nodesOutL inst) 0 ∅) (edgesRawLoc acc) st0)
    as (st' & Hst' & [Hids Hadj' Hdeg Hsym Hflag] & He).
  - done.
  - apply indexNodes_indexed.
  - intros r Hr. by apply route_in.
  - split; subst st0; cbn [nodesL adjL].
    + done.
    + intros k. rewrite Hadj, <-Hseen. case_bool_decide as Hk.
      * split; [done|]. intros _. by eexists.
      * split; [|done]. by intros [? ?].
    + intros p n Hn. rewrite Hadj.
      destruct (Hfresh n) as [-> _]; [apply list_elem_of_lookup; eauto|].
      by case_bool_decide.
    + intros a b. rewrite !Hadj. repeat case_bool_decide; simpl; by rewrite !elem_of_nil.
    + intros n Hn. by apply Hfresh.
  - intros e He. by apply elem_of_nil in He.
  - rewrite Hst'. cbn [mbind option_bind]. eexists. split; [done|].
    cbn [Dataset.view Dataset.edges Dataset.nodes]. unfold Dataset.neighbours.
    cbn [Dataset.adjacency]. split_and!; try done.
    + rewrite He. subst st0. cbn [edgesOutL seenEdgesL app]. f_equal.
      apply (filter_unseen_all (routeId acc)). intros x _. apply not_elem_of_empty.
    + intros n Hn. apply list_elem_of_lookup in Hn as [p Hn]. by eapply Hdeg.
Qed.

End LocalityFacts.

(** ** Adjacency and degrees *)

Module AdjacencyFacts.
Import Js JsFacts TsvToGraph Spec IngestFacts AssembleFacts ExportFacts
       DefaultViewFacts LocalityFacts.

Lemma export_invariants mk g :
  Graphology.wf g →
  (∀ n deg, Dataset.id (mk n deg) = n ∧ Dataset.degree (mk n deg) = deg) →
  ∃ d, Exporter.export mk g = Some d ∧ symmetric d ∧ degreesMatch d.
Proof.
  intros Hwf Hmk.
  destruct (export_spec mk g Hwf) as (d & Hd & Hn & _ & _ & _ & _ & Hadj).
  exists d. split; [done|].
  assert (∀ a b, b ∈ Dataset.neighbours d a
                 ↔ ∃ e, e ∈ Graphology.edges g
                     ∧ ((Graphology.source e = a ∧ Graphology.target e = b)
                        ∨ (Graphology.target e = a ∧ Graphology.source e = b)))
    as Hnb.
  { intros a b. unfold Dataset.neighbours. rewrite Hadj.
    case_bool_decide as Ha; simpl; [apply elem_of_contribs|].
    rewrite elem_of_nil. split; [done|].
    intros (e & He & [[<- _]|[<- _]]); apply Ha; by apply (Hwf e He). }
  split.
  - intros a b. rewrite !Hnb. split; intros (e & He & H); exists e; tauto.
  - intros n. rewrite Hn. unfold Exporter.exportNodes.
    rewrite list_elem_of_fmap. intros (m & -> & Hm).
    destruct (Hmk m (Graphology.degree g m)) as [-> ->].
    unfold Dataset.neighbours. rewrite Hadj, bool_decide_eq_true_2 by done.
    simpl. by rewrite length_contribs.
Qed.

(** Whatever the file holds, a run goes through: it exits with code 0 and
    writes its dataset (the later version: its two datasets). *)
Lemma run_goes_through (Number : string → jsnum) args lines :
  (exitCode (run Number args (InputLines lines)) = 0%nat
   ∧ ∃ d, written (run Number args (InputLines lines)) = [d])
  ∧ (exitCode (runLocality Number args (InputLines lines)) = 0%nat
     ∧ ∃ d dL, written (runLocality Number args (InputLines lines)) = [d; dL]).
Proof.
  pose proof (run_acc_ok Number args lines) as Hok.
  destruct (defaultView_spec args _ Hok) as (d & Hd & _).
  destruct (localityView_spec _ Hok) as (dL & HdL & _).
  unfold run, runLocality. rewrite Hd, HdL. cbn. eauto 10.
Qed.

(** C10.  In every generated dataset (the export of a graph, as
    [generate-graph.js] and the default view of [tsv-to-graph.js] produce it,
    and the locality view) the adjacency map is symmetric and every node's
    [degree] is the length of its adjacency list.  Both views are produced
    for every input. *)
Theorem C10_adjacency_symmetric_degree_matches
    (Number : string → jsnum) args lines g :
  (Graphology.wf g →
   ∃ d, GenerateGraph.generateGraph g = Some d ∧ symmetric d ∧ degreesMatch d)
  ∧ (∃ d, defaultView args (ingest Number args lines None 0 emptyAcc).2 = Some d
          ∧ symmetric d ∧ degreesMatch d)
  ∧ (∃ d, localityView (ingest Number args lines None 0 emptyAcc).2 = Some d
          ∧ symmetric d ∧ degreesMatch d).
Proof.
  pose proof (run_acc_ok Number args lines) as Hok.
  split_and!.
  - intros Hwf. by apply export_invariants.
  - unfold defaultView. rewrite assemble_spec by done. cbn [mbind option_bind].
    apply export_invariants; [|done].
    by apply (assembled_wf args).
  - destruct (localityView_spec _ Hok) as (d & Hd & _ & _ & _ & Hsym & Hdeg & _).
    by exists d.
Qed.

Lemma C10_witness :
  ∃ d, GenerateGraph.generateGraph
         {| Graphology.nodes := ["0"; "1"; "2"];
            Graphology.edges :=
              [{| Graphology.key := "e0"; Graphology.source := "0";
                  Graphology.target := "1"; Graphology.weight := None;
                  Graphology.allDBs := None; Graphology.afmprob := None |};
               {| Graphology.key := "e1"; Graphology.source := "2";
                  Graphology.target := "2"; Graphology.weight := None;
                  Graphology.allDBs := None; Graphology.afmprob := None |}] |}
       = Some d
       ∧ symmetric d ∧ degreesMatch d.
Proof.
  apply (C10_adjacency_symmetric_degree_matches Sample.decimal defaultArgs []).
  intros e He. repeat (apply elem_of_cons in He as [->|He]); cbn.
  - split; [by left | right; by left].
  - split; right; right; by left.
  - by apply elem_of_nil in He.
Defined.

End AdjacencyFacts.

(** ** The novelty flag *)

Module NoveltyFacts.
Import Js JsFacts TsvToGraph Spec IngestFacts AssembleFacts ExportFacts
       DefaultViewFacts LocalityFacts.

(** C3, as the code has it.  In the default view a node's [hasAllDBsNone]
    is set, and it is true exactly when some ingested row that names the
    node has the provenance tag "none" (compared trimmed and without case),
    whether or not that row survives deduplication; so a node with an
    incident "none" edge in the dataset is always flagged.  The nodes of the
    locality view carry no [hasAllDBsNone]. *)
Theorem C3_novelty_flag_follows_rows (Number : string → jsnum) args lines :
  (∃ d, defaultView args (ingest Number args lines None 0 emptyAcc).2 = Some d
     ∧ (∀ n, n ∈ Dataset.nodes d →
          (Dataset.hasAllDBsNone n = Some true ∨ Dataset.hasAllDBsNone n = Some false)
          ∧ (Dataset.hasAllDBsNone n = Some true
             ↔ ∃ r, r ∈ edgesRaw (ingest Number args lines None 0 emptyAcc).2
                    ∧ touches (Dataset.id n) r ∧ isNone (radb r) = true))
     ∧ (∀ n e, n ∈ Dataset.nodes d → e ∈ Dataset.edges d →
          incident (Dataset.id n) e → isNone (Dataset.edgeAllDBs e) = true →
          Dataset.hasAllDBsNone n = Some true))
  ∧ (∃ d, localityView (ingest Number args lines None 0 emptyAcc).2 = Some d
       ∧ ∀ n, n ∈ Dataset.nodes d → Dataset.hasAllDBsNone n = None).
Proof.
  pose proof (run_acc_ok Number args lines) as Hok.
  set (acc := (ingest Number args lines None 0 emptyAcc).2) in *.
  split.
  - destruct (defaultView_spec args acc Hok) as (d & Hd & Hn & He & _).
    exists d. split; [done|].
    assert (∀ n, n ∈ Dataset.nodes d →
              ∃ m, Dataset.id n = m
                ∧ Dataset.hasAllDBsNone n = Some (default false (nodeHasNone acc !! m)))
      as Hnode.
    { intros n. rewrite Hn, list_elem_of_fmap. intros (m & -> & _). by exists m. }
    split.
    + intros n Hin. destruct (Hnode n Hin) as (m & -> & ->).
      rewrite <-(ok_none acc Hok). split.
      * destruct (default false _); auto.
      * split; [by intros [= ->] | by intros ->].
    + intros n e Hin. rewrite He, list_elem_of_fmap.
      intros (r & -> & Hr) Hinc Hnone.
      destruct (Hnode n Hin) as (m & Hm & ->). f_equal.
      apply (ok_none acc Hok). exists r.
      split; [by apply elem_of_keepFirst in Hr|].
      split; [by rewrite <-Hm | done].
  - destruct (localityView_spec acc Hok) as (d & Hd & _ & _ & _ & _ & _ & Hflag).
    by exists d.
Qed.

(** C3 as stated fails in the default view: after the rows ([p1], [p2],
    [dbX]) and ([p1], [p2], [none]) the only edge has the tag [dbX], and
    [p1] is flagged. *)
Lemma C3_counterexample :
  ∃ d n,
    written (run Sample.decimal defaultArgs
               (InputLines [Sample.headerLine;
                            Sample.tsv ["p1"; "p2"; "dbX"; "0.9"];
                            Sample.tsv ["p1"; "p2"; "none"; "0.9"]])) = [d]
    ∧ n ∈ Dataset.nodes d
    ∧ Dataset.hasAllDBsNone n = Some true
    ∧ ¬ ∃ e, e ∈ Dataset.edges d ∧ incident (Dataset.id n) e
             ∧ Dataset.edgeAllDBs e = "none".
Proof.
  do 2 eexists. split; [vm_compute; reflexivity|].
  split; [by left|]. split; [reflexivity|].
  cbn [Dataset.edges]. intros (e & He & _ & H).
  apply list_elem_of_singleton in He as ->. discriminate.
Qed.

(** In the locality view the flag is missing even from the ends of a
    "none" edge. *)
Lemma locality_nodes_unflagged :
  ∃ d0 d e n,
    written (runLocality Sample.decimal defaultArgs
               (InputLines [Sample.headerLine;
                            Sample.tsv ["p1"; "p2"; "none"; "0.9"]])) = [d0; d]
    ∧ e ∈ Dataset.edges d ∧ Dataset.edgeAllDBs e = "none"
    ∧ n ∈ Dataset.nodes d ∧ incident (Dataset.id n) e
    ∧ Dataset.hasAllDBsNone n = None.
Proof.
  do 4 eexists. split; [vm_compute; reflexivity|].
  split; [by left|]. split; [reflexivity|].
  split; [by left|]. split; [by left | reflexivity].
Qed.

End NoveltyFacts.

(** ** Locality routing *)

Module RoutingFacts.
Import Js JsFacts TsvToGraph Spec IngestFacts AssembleFacts ExportFacts
       DefaultViewFacts LocalityFacts.



End RoutingFacts.

(** ** The filter engine *)

Module FilterFacts.
Import Js JsFacts Viewer ViewerSpec.

Lemma length_filter_mono {A} (P Q : A → Prop)
    `{!∀ x, Decision (P x)} `{!∀ x, Decision (Q x)} (l : list A) :
  (∀ x, x ∈ l → P x → Q x) → (length (filter P l) ≤ length (filter Q l))%nat.
Proof.
  induction l as [|x l IH]; intros Himp; [done|].
  rewrite !filter_cons.
  assert (length (filter P l) ≤ length (filter Q l))%nat as Hl.
  { apply IH. intros y Hy. apply Himp. by right. }
  destruct (decide (P x)) as [HP|HP].
  - rewrite decide_True by (apply Himp; [by left | done]). simpl. lia.
  - destruct (decide (Q x)); simpl; lia.
Qed.

Lemma countNodes_acc f blue ns c (vis : gset string) :
  foldl (λ acc n,
           if isCluster n then acc
           else if hideByDeg f (degree n) || hideByNewNode f blue (id n) then acc
           else (S acc.1, {[id n]} ∪ acc.2))
        (c, vis) ns
  = ((c + length (filter (λ n, Is_true (nodeVisible f blue n)) ns))%nat,
     list_to_set (id <$> filter (λ n, Is_true (nodeVisible f blue n)) ns) ∪ vis).
Proof.
  revert c vis. induction ns as [|n ns IH]; intros c vis; cbn [foldl].
  - rewrite filter_nil, fmap_nil, list_to_set_nil. cbn [length].
    by rewrite Nat.add_0_r, (left_id_L ∅ (∪)).
  - rewrite filter_cons.
    destruct (nodeVisible f blue n) eqn:Hv.
    + rewrite decide_True by done.
      unfold nodeVisible, nodeFiltered in Hv.
      apply andb_true_iff in Hv as [H1 H2]. apply negb_true_iff in H1, H2.
      rewrite H1, H2, IH. cbn [fst snd negb orb].
      rewrite fmap_cons, list_to_set_cons. cbn [length].
      f_equal; [lia|].
      rewrite (assoc_L (∪)). f_equal. apply (comm_L (∪)).
    + rewrite decide_False by (cbn; tauto).
      unfold nodeVisible, nodeFiltered in Hv.
      destruct (isCluster n); [apply IH|]. cbn [negb andb] in Hv.
      apply negb_false_iff in Hv. rewrite Hv. apply IH.
Qed.

Lemma countNodes_spec f blue ns :
  countNodes f blue ns
  = (length (filter (λ n, Is_true (nodeVisible f blue n)) ns),
     list_to_set (id <$> filter (λ n, Is_true (nodeVisible f blue n)) ns)).
Proof.
  unfold countNodes. rewrite countNodes_acc. by rewrite (right_id_L ∅ (∪)).
Qed.


Lemma countEdges_acc f vis es c b :
  foldl (λ acc e,
           if negb (bool_decide (source e ∈ vis)) || negb (bool_decide (target e ∈ vis))
           then acc
           else if hideByConf f (afmprob e) then acc
           else if hideByNewEdge f (allDBs e) then acc
           else (S acc.1, if isNone (allDBs e) then S acc.2 else acc.2))
        (c, b) es
  = ((c + length (filter (λ e, Is_true (edgeCounted f vis e)) es))%nat,
     (b + length (filter (λ e, Is_true (edgeCounted f vis e && isNone (allDBs e))) es))%nat).
Proof.
  revert c b. induction es as [|e es IH]; intros c b; cbn [foldl].
  - rewrite !filter_nil. cbn [length]. by rewrite !Nat.add_0_r.
  - rewrite !filter_cons.
    destruct (edgeCounted f vis e) eqn:Hv.
    + rewrite decide_True by done.
      unfold edgeCounted in Hv.
      apply andb_true_iff in Hv as [Hv H4]. apply andb_true_iff in Hv as [Hv H3].
      apply andb_true_iff in Hv as [H1 H2]. apply negb_true_iff in H3, H4.
      rewrite H1, H2, H3, H4. cbn [negb orb andb].
      destruct (isNone (allDBs e)).
      * rewrite decide_True by done. rewrite IH. cbn [fst snd length]. f_equal; lia.
      * rewrite decide_False by (cbn; tauto). rewrite IH. cbn [fst snd length]. f_equal; lia.
    + rewrite !decide_False by (cbn; tauto).
      unfold edgeCounted in Hv.
      destruct (bool_decide (source e ∈ vis)); [|apply IH].
      destruct (bool_decide (target e ∈ vis)); [|apply IH].
      cbn [negb orb andb] in Hv |- *.
      destruct (hideByConf f (afmprob e)); [apply IH|].
      cbn [negb andb] in Hv. apply negb_false_iff in Hv. rewrite Hv. apply IH.
Qed.

Lemma countEdges_spec f vis es :
  countEdges f vis es
  = (length (filter (λ e, Is_true (edgeCounted f vis e)) es),
     length (filter (λ e, Is_true (edgeCounted f vis e && isNone (allDBs e))) es)).
Proof. unfold countEdges. by rewrite countEdges_acc. Qed.

Lemma hideByDeg_mono f t' d :
  (thr f ≤ t')%Z → hideByDeg f d = true → hideByDeg (withThr t' f) d = true.
Proof.
  unfold hideByDeg. cbn. intros Hle H.
  apply andb_true_iff in H as [H1 H2].
  apply Z.ltb_lt in H1, H2. apply andb_true_iff. split; apply Z.ltb_lt; lia.
Qed.

Lemma hideByConf_mono f c' ap :
  (conf f <= c')%Q → hideByConf f ap = true → hideByConf (withConf c' f) ap = true.
Proof.
  unfold hideByConf. destruct ap as [a|]; [|done]. cbn. intros Hle H.
  apply ltNum_spec in H. apply ltNum_spec. by eapply Qlt_le_trans.
Qed.

Lemma nodeVisible_mono f blue t' n :
  (thr f ≤ t')%Z →
  Is_true (nodeVisible (withThr t' f) blue n) → Is_true (nodeVisible f blue n).
Proof.
  intros Hle. unfold nodeVisible, nodeFiltered.
  destruct (isCluster n); [done|]. cbn [negb andb].
  change (hideByNewNode (withThr t' f) blue (id n)) with (hideByNewNode f blue (id n)).
  destruct (hideByNewNode f blue (id n)); [by rewrite !orb_true_r|].
  rewrite !orb_false_r.
  destruct (hideByDeg f (degree n)) eqn:E; [|done].
  by rewrite (hideByDeg_mono f t' _ Hle E).
Qed.

(** The counts are monotone in the floors they are computed for: with the
    other parameters unchanged, a higher degree floor gives no more visible
    nodes and a higher confidence floor no more visible edges, in the
    totals [recomputeTotalsImmediate] computes; the totals that the degree
    effect sets have the same count of visible nodes. *)
Lemma counts_fall_as_floors_rise f blue g t' c' :
  ((thr f ≤ t')%Z →
   (nodesTotal (recomputeTotalsImmediate (withThr t' f) blue g)
    ≤ nodesTotal (recomputeTotalsImmediate f blue g))%nat
   ∧ (nodesTotal (degreeEffectTotals (withThr t' f) blue g)
      ≤ nodesTotal (degreeEffectTotals f blue g))%nat)
  ∧ ((conf f <= c')%Q →
     (edgesTotal (recomputeTotalsImmediate (withConf c' f) blue g)
      ≤ edgesTotal (recomputeTotalsImmediate f blue g))%nat).
Proof.
  split.
  - intros Hle. unfold recomputeTotalsImmediate, degreeEffectTotals.
    cbn [nodesTotal]. rewrite !countNodes_spec. cbn [fst].
    split; apply length_filter_mono; intros n _; by apply nodeVisible_mono.
  - intros Hle. unfold recomputeTotalsImmediate. cbn [edgesTotal].
    rewrite !countEdges_spec. cbn [fst].
    change (countNodes (withConf c' f) blue (nodes g)) with (countNodes f blue (nodes g)).
    apply length_filter_mono. intros e _. unfold edgeCounted.
    destruct (bool_decide (source e ∈ _)); [|done].
    destruct (bool_decide (target e ∈ _)); [|done]. cbn [andb].
    change (hideByNewEdge (withConf c' f) (allDBs e)) with (hideByNewEdge f (allDBs e)).
    destruct (hideByNewEdge f (allDBs e)); [by rewrite !andb_false_r|].
    rewrite !andb_true_r.
    destruct (hideByConf f (afmprob e)) eqn:E; [|done].
    by rewrite (hideByConf_mono f c' _ Hle E).
Qed.

End FilterFacts.

(** ** Edge visibility *)

Module EdgeFacts.
Import Js JsFacts Viewer ViewerSpec FilterFacts.

Lemma hideByConf_true f ap :
  hideByConf f ap = true → ∃ a, ap = Some a ∧ (a < conf f)%Q.
Proof.
  destruct ap as [a|]; [|done]. cbn. intros H. exists a. split; [done|].
  by apply ltNum_spec.
Qed.

Lemma neighborsOf_acc f node es (acc : gset string) :
  let step := λ (acc : gset string) e,
      if negb (String.eqb (source e) node || String.eqb (target e) node) then acc
      else if hideByNewEdge f (allDBs e) then acc
      else if hideByConf f (afmprob e) then acc
      else {[source e]} ∪ ({[target e]} ∪ acc) in
  (∀ k, k ∈ acc → k ∈ foldl step acc es)
  ∧ ∀ e, e ∈ es → (source e = node ∨ target e = node) →
         hideByNewEdge f (allDBs e) = false → hideByConf f (afmprob e) = false →
         source e ∈ foldl step acc es ∧ target e ∈ foldl step acc es.
Proof.
  intros step. revert acc. induction es as [|e0 es IH]; intros acc.
  - split; [done|]. intros e He. by apply elem_of_nil in He.
  - cbn [foldl]. destruct (IH (step acc e0)) as [Hmono Hcov].
    assert (∀ k, k ∈ acc → k ∈ step acc e0) as Hstep.
    { intros k Hk. unfold step.
      destruct (negb _); [done|]. destruct (hideByNewEdge _ _); [done|].
      destruct (hideByConf _ _); [done|].
      apply elem_of_union. right. apply elem_of_union. by right. }
    split; [intros k Hk; by apply Hmono, Hstep|].
    intros e He Hinc Hnew Hconf.
    apply elem_of_cons in He as [->|He]; [|by apply Hcov].
    assert (String.eqb (source e0) node || String.eqb (target e0) node = true) as Hend.
    { apply orb_true_iff. destruct Hinc as [<-|<-]; [left|right]; apply String.eqb_refl. }
    assert (source e0 ∈ step acc e0 ∧ target e0 ∈ step acc e0) as [H1 H2].
    { unfold step. rewrite Hend, Hnew, Hconf. cbn [negb].
      rewrite !elem_of_union, !elem_of_singleton. tauto. }
    split; by apply Hmono.
Qed.

(** C4.  An edge without a confidence score is never hidden by the
    confidence floor: whatever the floor, it is counted in the totals or not
    alike and gets the same [hidden] flag from [setHovered]; where the floor
    makes a difference for an edge, the edge has a score and the score is
    below the floor.  When a node is focused, each of its edges without a
    score is shown unless the only-new filter hides it. *)
Theorem C4_edges_without_score_pass_the_confidence_floor f blue g c' s :
  edgesTotal (recomputeTotalsImmediate f blue g)
  = length (filter (λ e, Is_true (edgeCounted f (visibleSet f blue g) e)) (edges g))
  ∧ hideByConf f None = false
  ∧ (∀ e vis, afmprob e = None →
       edgeCounted (withConf c' f) vis e = edgeCounted f vis e)
  ∧ (∀ e vis, edgeCounted (withConf c' f) vis e = true → edgeCounted f vis e = false →
       ∃ a, afmprob e = Some a ∧ (a < conf f)%Q)
  ∧ (∀ node nb e, afmprob e = None →
       hoverEdgeHidden (withFilters (withConf c' (filters s)) s) node nb e
       = hoverEdgeHidden s node nb e)
  ∧ (∀ node nb e,
       hoverEdgeHidden s node nb e = true →
       hoverEdgeHidden (withFilters (withConf c' (filters s)) s) node nb e = false →
       ∃ a, afmprob e = Some a ∧ (a < conf (filters s))%Q)
  ∧ (∀ n e, truthy n = true → e ∈ edges (graph s) →
       source e = n ∨ target e = n → afmprob e = None →
       showEdges s = true → showAllEdges s = false →
       setEdgeHidden (hideByNewEdge (filters s) (allDBs e)) e
       ∈ edges (graph (setHovered (Some n) s))).
Proof.
  split_and!.
  - unfold recomputeTotalsImmediate, visibleSet. cbn [edgesTotal].
    by rewrite countEdges_spec.
  - done.
  - intros e vis He. unfold edgeCounted, hideByConf. by rewrite He.
  - intros e vis H1 H0. apply hideByConf_true.
    unfold edgeCounted in *.
    destruct (bool_decide (source e ∈ vis)); [|done].
    destruct (bool_decide (target e ∈ vis)); [|done]. cbn [andb] in *.
    change (hideByNewEdge (withConf c' f) (allDBs e)) with (hideByNewEdge f (allDBs e)) in H1.
    destruct (hideByNewEdge f (allDBs e)); [by rewrite andb_false_r in H1|].
    rewrite andb_true_r in H0. by apply negb_false_iff in H0.
  - intros node nb e He. unfold hoverEdgeHidden, hideByConf. cbn. by rewrite He.
  - intros node nb e H1 H0. apply hideByConf_true.
    unfold hoverEdgeHidden in *. cbn in H0.
    change (hideByNewEdge (withConf c' (filters s)) (allDBs e))
      with (hideByNewEdge (filters s) (allDBs e)) in H0.
    destruct (showEdges s && negb (showAllEdges s)).
    + apply orb_false_iff in H0 as [H0 _]. rewrite H0 in H1. done.
    + apply orb_false_iff in H0 as [H0 _]. rewrite H0 in H1. done.
  - intros n e Hn He Hinc Hap Hse Hsa.
    unfold setHovered. rewrite Hn. cbn [graph hoverPasses edges].
    apply list_elem_of_fmap. exists e. split; [|done]. f_equal.
    unfold hoverEdgeHidden. rewrite Hse, Hsa, Hap. cbn [negb andb hideByConf].
    rewrite orb_false_r.
    destruct (hideByNewEdge (filters s) (allDBs e)) eqn:Hnew;
      [symmetry; apply orb_true_r|].
    destruct (neighborsOf_acc (filters s) n (edges (graph s)) {[n]}) as [_ Hcov].
    destruct (Hcov e He Hinc Hnew) as [H1 H2]; [by rewrite Hap|].
    unfold neighborsOf. by rewrite !bool_decide_eq_true_2.
Qed.

Lemma C4_witness :
  setEdgeHidden false
    {| key := "u|v"; source := "u"; target := "v";
       allDBs := "dbX"; afmprob := None; edgeHidden := true |}
  ∈ edges (graph (setHovered (Some "u")
                    (withFilters {| thr := 0; onlyNew := false; conf := 9 # 10 |}
                       sampleState))).
Proof.
  apply (C4_edges_without_score_pass_the_confidence_floor
           (filters sampleState) ∅ pairGraph 0
           (withFilters {| thr := 0; onlyNew := false; conf := 9 # 10 |} sampleState)
           ); try reflexivity.
  - by left.
  - by left.
Defined.



End EdgeFacts.

(** ** The focus state machine *)

Module FocusFacts.
Import Js JsFacts Viewer ViewerSpec.




Lemma last_cons_default {A} (l : list A) x d d' :
  List.last (x :: l) d = List.last (x :: l) d'.
Proof. revert x. induction l as [|y l IH]; intros x; [done|]. apply (IH y). Qed.






(** While focused the camera has moved: the round trip is not trivial. *)
Example focus_moves_camera :
  camera (runEvents sampleState [focus "u"]) ≠ camera sampleState.
Proof. vm_compute. discriminate. Qed.

End FocusFacts.

(** ** The two scenarios of the specification, end to end *)

Module Scenarios.
Import Js TsvToGraph Viewer.

(** Confidence floor 0.5, only-new off: the edges p1-p2 and p2-p3 are
    visible, one of them new. *)
Example scenario_confidence_floor :
  ∃ d g blue,
    written (run Sample.decimal defaultArgs (InputLines Sample.scenario)) = [d]
    ∧ load (λ _, (0%Q, 0%Q)) {| thr := 0; onlyNew := false; conf := 1 # 2 |} d
      = Some (g, blue)
    ∧ recomputeTotalsImmediate {| thr := 0; onlyNew := false; conf := 1 # 2 |} blue g
      = {| nodesTotal := 3; edgesTotal := 2; blueEdges := 1 |}.
Proof. do 3 eexists. split_and!; vm_compute; reflexivity. Qed.

(** Only-new on, confidence floor 0: the edges p2-p3 and p1-p3 and all
    three nodes are visible. *)
Example scenario_only_novel :
  ∃ d g blue,
    written (run Sample.decimal defaultArgs (InputLines Sample.scenario)) = [d]
    ∧ load (λ _, (0%Q, 0%Q)) {| thr := 0; onlyNew := true; conf := 0 |} d
      = Some (g, blue)
    ∧ recomputeTotalsImmediate {| thr := 0; onlyNew := true; conf := 0 |} blue g
      = {| nodesTotal := 3; edgesTotal := 2; blueEdges := 2 |}.
Proof. do 3 eexists. split_and!; vm_compute; reflexivity. Qed.

End Scenarios.

(** ** The command lines *)

Module ArgvFacts.
Import Js JsFacts Argv Spec.

Lemma append_cons c s t : String c s +:+ t = String c (s +:+ t).
Proof. reflexivity. Qed.

Lemma isEq_free c : isEq c = false ↔ c ≠ "="%char.
Proof. unfold isEq. by rewrite Ascii.eqb_neq. Qed.

Lemma splitBy_free s : free "=" s → splitBy isEq s = [s].
Proof.
  induction s as [|c s IH]; [done|]. intros [Hc Hs]. cbn [splitBy].
  apply isEq_free in Hc. rewrite Hc, (IH Hs). done.
Qed.

Lemma splitBy_sep s t :
  free "=" s → splitBy isEq (s +:+ String "=" t) = s :: splitBy isEq t.
Proof.
  induction s as [|c s IH]; [done|]. intros [Hc Hs]. apply isEq_free in Hc.
  rewrite append_cons. cbn [splitBy]. rewrite Hc. by rewrite (IH Hs).
Qed.

Lemma includes_sep s t : includes (s +:+ String "=" t) "=" = true.
Proof.
  induction s as [|c s IH]; [done|].
  rewrite append_cons. cbn [includes]. rewrite IH. apply orb_true_r.
Qed.

Lemma cut_free s t : free "=" s → cut isEq (s +:+ String "=" t) = Some (s, t).
Proof.
  induction s as [|c s IH]; [done|]. intros [Hc Hs]. apply isEq_free in Hc.
  rewrite append_cons. cbn [cut]. rewrite Hc. by rewrite (IH Hs).
Qed.

(** What [cut] finds is what [splitBy] starts with. *)
Lemma cut_splitBy s k v :
  cut isEq s = Some (k, v) → splitBy isEq s = k :: splitBy isEq v.
Proof.
  revert k v. induction s as [|c s IH]; intros k v; [done|].
  cbn [cut splitBy]. destruct (isEq c) eqn:Ec.
  - by intros [= <- <-].
  - destruct (cut isEq s) as [[k' v']|] eqn:E; [|done].
    intros [= <- <-]. by rewrite (IH _ _ eq_refl).
Qed.

Lemma includes_cut s : includes s "=" = true → is_Some (cut isEq s).
Proof.
  induction s as [|c s IH]; [done|].
  cbn [includes cut startsWith].
  assert (Ascii.eqb "=" c = isEq c) as -> by apply Ascii.eqb_sym.
  destruct (isEq c) eqn:Ec; [by eexists|]. cbn. intros H.
  destruct (IH H) as [[k v] ->]. by eexists.
Qed.

Lemma occurrences_free s : occurrences "=" s = 0%nat → free "=" s.
Proof.
  induction s as [|c s IH]; [done|]. cbn [occurrences free].
  destruct (Ascii.eqb c "=") eqn:Ec; [done|].
  intros H. split; [by apply Ascii.eqb_neq | by apply IH].
Qed.

Lemma occurrences_cut s k v :
  cut isEq s = Some (k, v) → occurrences "=" s = S (occurrences "=" k + occurrences "=" v).
Proof.
  revert k v. induction s as [|c s IH]; intros k v; [done|].
  cbn [cut occurrences]. unfold isEq at 1. destruct (Ascii.eqb c "=") eqn:Ec.
  - by intros [= <- <-].
  - destruct (cut isEq s) as [[k' v']|] eqn:E; [|done].
    intros [= <- <-]. cbn [occurrences fst snd]. rewrite Ec, (IH _ _ eq_refl). done.
Qed.

Lemma stripDashes_spec s :
  (startsWith "--" s = true ∧ s = String "-" (String "-" (stripDashes s)))
  ∨ (startsWith "--" s = false ∧ stripDashes s = s).
Proof.
  destruct s as [|a [|b s]]; [by right | right; by destruct a as [[] [] [] [] [] [] [] []] |].
  destruct a as [[] [] [] [] [] [] [] []]; try (right; split; reflexivity).
  destruct b as [[] [] [] [] [] [] [] []]; try (right; split; reflexivity).
  left. split; reflexivity.
Qed.

Lemma occurrences_stripDashes s : (occurrences "=" (stripDashes s) ≤ occurrences "=" s)%nat.
Proof.
  destruct (stripDashes_spec s) as [[_ E]|[_ ->]]; [|done].
  rewrite E at 2. cbn. lia.
Qed.

End ArgvFacts.

Module TsvToGraphCliFacts.
Import Js JsFacts Argv Spec ArgvFacts TsvToGraph TsvToGraphCli.

(** Tokens are parsed from left to right, and a token that starts with a
    dash is never taken as the value of the flag before it. *)
Lemma parseArgs_app_len n xs ys args :
  (length xs ≤ n)%nat →
  (∀ y, head ys = Some y → startsWith "-" y = true) →
  parseArgs (xs ++ ys) args = parseArgs ys (parseArgs xs args).
Proof.
  revert xs args. induction n as [|n IH]; intros xs args Hlen Hys.
  { destruct xs; [done | cbn in Hlen; lia]. }
  destruct xs as [|tok rest]; [done|]. cbn [length] in Hlen.
  rewrite <-app_comm_cons. cbn [parseArgs].
  destruct (negb (startsWith "--" tok)); [apply IH; [lia | done]|].
  destruct (includes (stripDashes tok) "=").
  - destruct (splitBy isEq (stripDashes tok)) as [|k [|v ?]]; apply IH; (lia || done).
  - destruct rest as [|next rest'].
    + cbn [app]. destruct ys as [|y ys']; [done|].
      rewrite (Hys y eq_refl), andb_false_r. done.
    + rewrite <-app_comm_cons. cbn [length] in Hlen.
      destruct (truthy next && negb (startsWith "-" next)).
      * apply IH; [lia | done].
      * rewrite app_comm_cons. apply IH; [cbn; lia | done].
Qed.

Lemma parseArgs_app xs ys args :
  (∀ y, head ys = Some y → startsWith "-" y = true) →
  parseArgs (xs ++ ys) args = parseArgs ys (parseArgs xs args).
Proof. by apply (parseArgs_app_len (length xs)). Qed.

Lemma parseArgs_assignment k v args :
  free "=" k → free "=" v →
  parseArgs [String "-" (String "-" (k +:+ String "=" v))] args = setArg k (Str v) args.
Proof.
  intros Hk Hv. cbn [parseArgs].
  change (startsWith "--" (String "-" (String "-" (k +:+ String "=" v)))) with true.
  change (stripDashes (String "-" (String "-" (k +:+ String "=" v))))
    with (k +:+ String "=" v).
  cbn [negb]. rewrite includes_sep, (splitBy_sep _ _ Hk), (splitBy_free _ Hv). done.
Qed.

Lemma lookup_setArg k v args k' :
  setArg k v args !! k'
  = if bool_decide (k = k' ∧ k ≠ "__proto__") then Some v else args !! k'.
Proof.
  unfold setArg. destruct (String.eqb_spec k "__proto__") as [->|Hk].
  - rewrite bool_decide_eq_false_2; [done | tauto].
  - case_bool_decide as H.
    + destruct H as [-> _]. by rewrite lookup_insert_eq.
    + rewrite lookup_insert_ne; [done|]. intros ->. tauto.
Qed.

(** X1.  In [tsv-to-graph.js] a last token [--k=v], with no further [=] in
    [k] or in [v], sets [k] to [v] whatever the tokens before it gave that
    key, and changes neither how those tokens are read nor the value of any
    other key. *)
Theorem parseArgs_last_assignment_wins parts k v :
  free "=" k → free "=" v →
  parseArgs (parts ++ ["--" +:+ k +:+ "=" +:+ v]) ∅ = setArg k (Str v) (parseArgs parts ∅)
  ∧ (k ≠ "__proto__" →
     parseArgs (parts ++ ["--" +:+ k +:+ "=" +:+ v]) ∅ !! k = Some (Str v))
  ∧ (∀ k', k' ≠ k →
     parseArgs (parts ++ ["--" +:+ k +:+ "=" +:+ v]) ∅ !! k' = parseArgs parts ∅ !! k').
Proof.
  intros Hk Hv.
  assert (parseArgs (parts ++ ["--" +:+ k +:+ "=" +:+ v]) ∅
          = setArg k (Str v) (parseArgs parts ∅)) as E.
  { rewrite parseArgs_app; [|by intros y [= <-]].
    by apply parseArgs_assignment. }
  rewrite E. split_and!; [done | |].
  - intros Hp. rewrite lookup_setArg, bool_decide_eq_true_2; done.
  - intros k' Hk'. rewrite lookup_setArg, bool_decide_eq_false_2; [done|].
    intros [-> _]. done.
Qed.

Lemma parseArgs_last_assignment_wins_witness :
  parseArgs (["--limit"; "5"; "--source=a"] ++ ["--" +:+ "source" +:+ "=" +:+ "geneA"]) ∅
  !! "source" = Some (Str "geneA").
Proof.
  apply (parseArgs_last_assignment_wins ["--limit"; "5"; "--source=a"] "source" "geneA");
    cbn; try done; repeat split; done.
Defined.

Lemma parseArgs_no_flags parts args :
  Forall (λ t, startsWith "--" t = false) parts → parseArgs parts args = args.
Proof.
  induction 1 as [|t parts Ht _ IH]; [done|]. cbn [parseArgs]. by rewrite Ht.
Qed.

(** X2.  [parseArgs] reads nothing from tokens that do not start with two
    dashes: a command line made of such tokens only (as [-i file.tsv] is)
    names no input, and both versions of the script end with the
    missing-input message, exit code 1 and nothing written. *)
Theorem no_flag_no_input (Number : string → jsnum) fs argv :
  Forall (λ t, startsWith "--" t = false) (drop 2 argv) →
  main Number fs argv
  = {| exitCode := 1; stderr := [MissingInput]; written := [] |}
  ∧ mainLocality Number fs argv
    = {| exitCode := 1; stderr := [MissingInput]; written := [] |}.
Proof.
  intros H. unfold main, mainLocality. by rewrite (parseArgs_no_flags _ _ H).
Qed.

Lemma no_flag_no_input_witness :
  main Sample.decimal (λ _, Some [Sample.headerLine]) ["node"; "tsv-to-graph.js"; "-i"; "file.tsv"]
  = {| exitCode := 1; stderr := [MissingInput]; written := [] |}
  ∧ mainLocality Sample.decimal (λ _, Some [Sample.headerLine])
      ["node"; "tsv-to-graph.js"; "-i"; "file.tsv"]
    = {| exitCode := 1; stderr := [MissingInput]; written := [] |}.
Proof.
  apply (no_flag_no_input Sample.decimal (λ _, Some [Sample.headerLine])
           ["node"; "tsv-to-graph.js"; "-i"; "file.tsv"]).
  cbn. repeat constructor.
Defined.

(** The reading of [limit] as a row count is the comparison [row > limit]. *)
Lemma limitOf_spec q row :
  (1 ≤ row)%nat →
  overLimit row (limitOf (Num q)) = true ↔ (q < inject_Z (Z.of_nat row))%Q.
Proof.
  intros Hrow. cbn [limitOf overLimit]. rewrite Nat.ltb_lt. split.
  - intros H. eapply Qlt_le_trans; [apply (Qlt_floor q)|].
    rewrite <-Zle_Qle. lia.
  - intros H. destruct (Z_lt_le_dec (Qfloor q) 0) as [Hneg|Hpos]; [lia|].
    assert (Qfloor q < Z.of_nat row)%Z; [|lia].
    rewrite Zlt_Qlt. eapply Qle_lt_trans; [apply Qfloor_le | done].
Qed.

(** With only [--input] given, the run looks for the default columns. *)
Lemma main_defaults (Number : string → jsnum) fs node script f lines :
  truthy f = true → startsWith "-" f = false → fs f = Some lines →
  mainLocality Number fs [node; script; "--input"; f]
  = runLocality Number defaultArgs (InputLines lines)
  ∧ main Number fs [node; script; "--input"; f]
    = run Number defaultArgs (InputLines lines).
Proof.
  intros Hf Hd Hfs. unfold main, mainLocality. cbn [drop parseArgs].
  change (startsWith "--" "--input") with true.
  change (stripDashes "--input") with "input".
  change (includes "input" "=") with false. cbn [negb].
  rewrite Hf, Hd. cbn [negb andb parseArgs].
  unfold inputOf, either. rewrite !lookup_setArg.
  rewrite bool_decide_eq_true_2 by done. cbn [truthyVal].
  rewrite Hf. cbn [showVal]. rewrite Hfs.
  assert (configOf Number (setArg "input" (Str f) ∅) = defaultArgs) as ->; [|done].
  unfold configOf, strOr. rewrite !lookup_setArg.
  rewrite !bool_decide_eq_false_2 by (intros [? _]; done).
  rewrite !lookup_empty. done.
Qed.

End TsvToGraphCliFacts.

Module FilterCliFacts.
Import Js JsFacts Argv Spec ArgvFacts.

(** X3.  The [parseArgs] of [tsv-to-graph.js] and of
    [filter-alldbs-none.js] read a command line alike when no token holds
    more than one [=]. *)
Theorem parseArgs_agree parts args :
  Forall (λ tok, (occurrences "=" tok ≤ 1)%nat) parts →
  TsvToGraphCli.parseArgs parts args = FilterAllDBsNone.parseArgs parts args.
Proof.
  remember (length parts) as n eqn:Hn.
  assert (length parts ≤ n)%nat as Hlen by lia. clear Hn.
  revert parts args Hlen. induction n as [|n IH]; intros parts args Hlen Hall.
  { destruct parts; [done | cbn in Hlen; lia]. }
  destruct parts as [|tok rest]; [done|]. cbn [length] in Hlen.
  apply Forall_cons in Hall as [Htok Hrest].
  cbn [TsvToGraphCli.parseArgs FilterAllDBsNone.parseArgs].
  destruct (negb (startsWith "--" tok)); [apply IH; [lia | done]|].
  destruct (includes (stripDashes tok) "=") eqn:Hinc.
  - destruct (includes_cut _ Hinc) as [[k v] Hcut]. rewrite Hcut.
    rewrite (cut_splitBy _ _ _ Hcut).
    assert (occurrences "=" v = 0%nat) as Hv.
    { pose proof (occurrences_cut _ _ _ Hcut).
      pose proof (occurrences_stripDashes tok). lia. }
    rewrite (splitBy_free _ (occurrences_free _ Hv)). apply IH; [lia | done].
  - destruct rest as [|next rest']; [done|].
    destruct (truthy next && negb (startsWith "-" next)).
    + apply Forall_cons in Hrest as [_ Hrest']. cbn [length] in Hlen.
      apply IH; [lia | done].
    + apply IH; [lia | done].
Qed.

Lemma parseArgs_agree_witness :
  TsvToGraphCli.parseArgs ["--input"; "a.tsv"; "--select=name"; "--unique"] ∅
  = FilterAllDBsNone.parseArgs ["--input"; "a.tsv"; "--select=name"; "--unique"] ∅.
Proof.
  apply (parseArgs_agree ["--input"; "a.tsv"; "--select=name"; "--unique"] ∅).
  repeat constructor.
Defined.

(** Where they differ: a value that itself holds [=]. *)
Example parseArgs_differ :
  TsvToGraphCli.parseArgs ["--select=a=b"] ∅ !! "select" = Some (Str "a")
  ∧ FilterAllDBsNone.parseArgs ["--select=a=b"] ∅ !! "select" = Some (Str "a=b").
Proof. split; reflexivity. Qed.

End FilterCliFacts.

(** ** More on ingestion *)

Module IngestBounds.
Import Js JsFacts TsvToGraph Spec DatasetSpec IngestFacts AssembleFacts
       DefaultViewFacts LocalityFacts.

Lemma length_keepFirst_le {A} (keyOf : A → string) (l : list A) :
  (length (keepFirst keyOf l) ≤ length l)%nat.
Proof.
  induction l as [|x l IH]; [done|]. cbn [keepFirst length].
  pose proof (length_filter (λ r', keyOf r' ≠ keyOf x) (keepFirst keyOf l)). lia.
Qed.

Lemma length_setAdd x l : (length (setAdd x l) ≤ S (length l))%nat.
Proof. unfold setAdd. case_bool_decide; [lia|]. rewrite length_app. cbn. lia. Qed.

Lemma addADB_tags id v st n x :
  x ∈ default [] ((addADB id v st).1 !! n)
  ↔ (n = id ∧ x = v ∧ truthy v = true) ∨ x ∈ default [] (st.1 !! n).
Proof.
  unfold addADB. destruct (truthy v) eqn:Hv; cbn [negb fst].
  - destruct (decide (n = id)) as [->|Hne].
    + rewrite lookup_insert_eq. cbn -[setAdd]. rewrite elem_of_setAdd. tauto.
    + rewrite lookup_insert_ne by done. split; [tauto|]. intros [[? _]|?]; done.
  - split; [tauto|]. intros [(_ & _ & ?)|?]; done.
Qed.

Lemma addADB_nodup id v st :
  (∀ n, NoDup (default [] (st.1 !! n))) →
  ∀ n, NoDup (default [] ((addADB id v st).1 !! n)).
Proof.
  intros H n. unfold addADB. destruct (truthy v); cbn [negb fst]; [|done].
  destruct (decide (n = id)) as [->|Hne].
  - rewrite lookup_insert_eq. cbn -[setAdd]. by apply NoDup_setAdd.
  - by rewrite lookup_insert_ne.
Qed.

Lemma emptyAcc_prov : ProvOk emptyAcc.
Proof.
  split; intros n; unfold tags; cbn; rewrite lookup_empty; cbn.
  - constructor.
  - intros v. split; [by intros ?%elem_of_nil|].
    intros (_ & r & Hr & _). by apply elem_of_nil in Hr.
Qed.

Section WithNumber.
Context (Number : string → jsnum).

(** Whatever every data row preserves holds of what the loop returns. *)
Lemma ingest_invariant (P : Acc → Prop) args lines header row acc :
  (∀ c line acc, P acc → P (ingestRow Number c line acc)) →
  P acc → P (ingest Number args lines header row acc).2.
Proof.
  intros Hrow. revert header row acc.
  induction lines as [|line rest IH]; intros header row acc Hacc; cbn [ingest]; [done|].
  destruct (negb (truthy line)); [by apply IH|].
  destruct (startsWith "#" line); [by apply IH|].
  destruct header as [c|]; [|by apply IH].
  destruct (overLimit (S row) (limit args)); [done|].
  by apply IH, Hrow.
Qed.

Lemma ingestRow_prov c line acc : ProvOk acc → ProvOk (ingestRow Number c line acc).
Proof.
  intros [Hnd Hrows]. unfold ingestRow.
  set (parts := splitBy isTab line).
  set (a := cell parts (sIdx c)). set (b := cell parts (tIdx c)).
  destruct (negb (truthy a) || negb (truthy b)) eqn:Hab; [by split|].
  set (adb := cellOr parts (adbIdx c)).
  split; unfold tags in *; cbn [nodeIdToAllDBs edgesRaw].
  - intros n. by do 2 apply addADB_nodup.
  - intros n v. rewrite !addADB_tags. cbn [fst]. rewrite Hrows. split.
    + intros [(-> & -> & Hv)|[(-> & -> & Hv)|(Hv & r & Hr & Ht & Hrv)]].
      * split; [done|]. eexists. split; [apply elem_of_app; right; by apply list_elem_of_singleton|].
        split; [by right | done].
      * split; [done|]. eexists. split; [apply elem_of_app; right; by apply list_elem_of_singleton|].
        split; [by left | done].
      * split; [done|]. exists r. split; [apply elem_of_app; by left | done].
    + intros (Hv & r & Hr & Ht & Hrv). apply elem_of_app in Hr as [Hr|Hr].
      * right; right. eauto.
      * apply list_elem_of_singleton in Hr as ->. cbn [ra rb radb] in *.
        destruct Ht as [<-| <-]; subst v; tauto.
Qed.

Lemma run_acc_prov args lines : ProvOk (ingest Number args lines None 0 emptyAcc).2.
Proof. apply ingest_invariant; [apply ingestRow_prov | apply emptyAcc_prov]. Qed.

(** Rows are counted from the first line after the header, and the loop
    stops at the first one past the limit. *)
Lemma ingest_limit args lines header row acc n :
  limit args = Some n →
  (length (edgesRaw (ingest Number args lines header row acc).2)
   ≤ length (edgesRaw acc) + (n - row))%nat
  ∧ (length (nodeSet (ingest Number args lines header row acc).2)
     ≤ length (nodeSet acc) + 2 * (n - row))%nat.
Proof.
  intros Hn. revert header row acc.
  induction lines as [|line rest IH]; intros header row acc; cbn [ingest]; [cbn [snd]; lia|].
  destruct (negb (truthy line)); [by apply IH|].
  destruct (startsWith "#" line); [by apply IH|].
  destruct header as [c|]; [|by apply IH].
  rewrite Hn. cbn [overLimit]. destruct (n <? S row)%nat eqn:Hlt; [cbn; lia|].
  apply Nat.ltb_ge in Hlt.
  destruct (IH (Some c) (S row) (ingestRow Number c line acc)) as [He Hv].
  assert (length (edgesRaw (ingestRow Number c line acc)) ≤ S (length (edgesRaw acc)))%nat.
  { destruct (ingestRow_edgesRaw Number c line acc) as [->|[r ->]]; [lia|].
    rewrite length_app. cbn. lia. }
  assert (length (nodeSet (ingestRow Number c line acc)) ≤ 2 + length (nodeSet acc))%nat.
  { unfold ingestRow. destruct (negb (truthy _) || negb (truthy _)); cbn [nodeSet]; [lia|].
    etrans; [apply length_setAdd|]. pose proof (length_setAdd (cell (splitBy isTab line) (sIdx c)) (nodeSet acc)). lia. }
  lia.
Qed.

End WithNumber.

(** X4.  With a limit of [n] rows the run ingests at most [n] rows: the
    default view has at most [n] edges and [2 n] nodes, and the locality
    view at most [n] edges. *)
Theorem limit_bounds_the_datasets (Number : string → jsnum) args lines n :
  limit args = Some n →
  ∃ d dL,
    written (runLocality Number args (InputLines lines)) = [d; dL]
    ∧ (length (Dataset.edges d) ≤ n)%nat
    ∧ (length (Dataset.nodes d) ≤ 2 * n)%nat
    ∧ (length (Dataset.edges dL) ≤ n)%nat.
Proof.
  intros Hn. unfold runLocality.
  set (acc := (ingest Number args lines None 0 emptyAcc).2).
  pose proof (run_acc_ok Number args lines) as Hok. fold acc in Hok.
  destruct (ingest_limit Number args lines None 0 emptyAcc n Hn) as [He Hv].
  fold acc in He, Hv. cbn in He, Hv.
  destruct (defaultView_spec args acc Hok) as (d & -> & Hnodes & Hedges & _).
  destruct (localityView_spec acc Hok) as (dL & -> & _ & HedgesL & _).
  exists d, dL. split; [done|].
  rewrite Hnodes, Hedges, HedgesL, !length_fmap.
  pose proof (length_keepFirst_le (λ r, edgeKey (directed args) (ra r) (rb r)) (edgesRaw acc)).
  pose proof (length_keepFirst_le (routeId acc) (edgesRawLoc acc)).
  assert (length (edgesRawLoc acc) = length (edgesRaw acc)) as Hsame.
  { subst acc. apply (ingest_invariant Number (λ a, length (edgesRawLoc a) = length (edgesRaw a))); [|done].
    intros c line a Ha. unfold ingestRow.
    destruct (negb (truthy _) || negb (truthy _)); cbn [edgesRaw edgesRawLoc]; [done|].
    rewrite !length_app. cbn. lia. }
  lia.
Qed.

Lemma limit_bounds_the_datasets_witness :
  ∃ d dL,
    written (runLocality Sample.decimal (withLimit 1) (InputLines Sample.scenario)) = [d; dL]
    ∧ (length (Dataset.edges d) ≤ 1)%nat
    ∧ (length (Dataset.nodes d) ≤ 2 * 1)%nat
    ∧ (length (Dataset.edges dL) ≤ 1)%nat.
Proof.
  apply (limit_bounds_the_datasets Sample.decimal (withLimit 1) Sample.scenario 1).
  reflexivity.
Defined.

Lemma ingest_significant (Number : string → jsnum) args lines header row acc :
  ingest Number args (filter (λ l, Is_true (significant l)) lines) header row acc
  = ingest Number args lines header row acc.
Proof.
  revert header row acc.
  induction lines as [|line rest IH]; intros header row acc; [done|].
  unfold significant at 1. cbn [ingest].
  destruct (truthy line) eqn:Ht; cbn [negb andb].
  - destruct (startsWith "#" line) eqn:Hc; cbn [negb].
    + rewrite filter_cons_False by (unfold significant; rewrite Ht, Hc; cbn; tauto).
      apply IH.
    + rewrite filter_cons_True by (unfold significant; by rewrite Ht, Hc).
      cbn [ingest]. rewrite Ht, Hc. cbn [negb].
      destruct header as [c|]; [|apply IH].
      destruct (overLimit (S row) (limit args)); [done | apply IH].
  - rewrite filter_cons_False by (unfold significant; rewrite Ht; cbn; tauto).
    apply IH.
Qed.

(** X5.  Empty lines and lines that start with [#] are skipped wherever
    they stand, before the header or among the rows, and do not count as
    rows for the limit: a run on the input without them ends as the run on
    the input does. *)
Theorem comments_and_blank_lines_are_skipped (Number : string → jsnum) args lines :
  run Number args (InputLines (filter (λ l, Is_true (significant l)) lines))
  = run Number args (InputLines lines)
  ∧ runLocality Number args (InputLines (filter (λ l, Is_true (significant l)) lines))
    = runLocality Number args (InputLines lines).
Proof. unfold run, runLocality. by rewrite ingest_significant. Qed.

(** X6.  In the default view every node lists its provenance tags once
    each: the tags are the non-empty [allDBs] cells of the rows that name
    the node, kept or dropped by deduplication, and the node's
    [hasAllDBsNone] is true exactly when one of the tags listed is "none"
    (trimmed, whatever its case). *)
Theorem node_tags_are_the_tags_of_its_rows (Number : string → jsnum) args lines :
  ∃ d,
    defaultView args (ingest Number args lines None 0 emptyAcc).2 = Some d
    ∧ ∀ n, n ∈ Dataset.nodes d →
        ∃ dbs, Dataset.allDBs n = Some dbs
          ∧ NoDup dbs
          ∧ (∀ v, v ∈ dbs
                  ↔ v ≠ ""
                    ∧ ∃ r, r ∈ edgesRaw (ingest Number args lines None 0 emptyAcc).2
                           ∧ touches (Dataset.id n) r ∧ radb r = v)
          ∧ (Dataset.hasAllDBsNone n = Some true ↔ ∃ v, v ∈ dbs ∧ isNone v = true).
Proof.
  set (acc := (ingest Number args lines None 0 emptyAcc).2).
  pose proof (run_acc_ok Number args lines) as Hok.
  pose proof (run_acc_prov Number args lines) as [Hnd Hrows].
  fold acc in Hok, Hnd, Hrows.
  destruct (defaultView_spec args acc Hok) as (d & Hd & Hnodes & _).
  exists d. split; [done|]. intros n Hn.
  rewrite Hnodes in Hn. apply list_elem_of_fmap in Hn as (k & -> & Hk).
  cbn [nodeOut Dataset.allDBs Dataset.id Dataset.hasAllDBsNone].
  eexists. split; [done|]. fold (tags acc k). split_and!.
  - apply Hnd.
  - intros v. rewrite Hrows, truthy_eqb. done.
  - split.
    + intros [= Hflag]. apply (ok_none acc Hok) in Hflag as (r & Hr & Ht & Hnone).
      exists (radb r). split; [|done]. apply Hrows.
      split; [by apply isNone_truthy | eauto].
    + intros (v & Hv & Hnone). f_equal. apply (ok_none acc Hok).
      apply Hrows in Hv as (_ & r & Hr & Ht & <-). eauto.
Qed.

End IngestBounds.

(** ** The datasets hang together *)

Module DatasetFacts.
Import Js JsFacts TsvToGraph Spec DatasetSpec IngestFacts AssembleFacts ExportFacts
       DefaultViewFacts LocalityFacts IngestBounds.

Lemma truthy_append_r s t : truthy t = true → truthy (s +:+ t) = true.
Proof. destruct s; [done|]. intros _. done. Qed.

Lemma truthy_edgeKey directed a b : truthy (edgeKey directed a b) = true.
Proof.
  unfold edgeKey. destruct directed; [|destruct (lt a b)]; by apply truthy_append_r.
Qed.

Lemma truthy_edgeIdL a b : truthy (edgeIdL a b) = true.
Proof. unfold edgeIdL. destruct (lt a b); by apply truthy_append_r. Qed.

(** Ids determined by the pair of ends: no id twice, no pair twice. *)
Lemma NoDup_pairs {A} (f : string → string → string) (s t : A → string) (l : list A) :
  NoDup ((λ x, f (s x) (t x)) <$> l) → NoDup ((λ x, (s x, t x)) <$> l).
Proof.
  intros H. apply (NoDup_fmap_1 (λ p : string * string, f p.1 p.2)).
  by rewrite <-list_fmap_compose.
Qed.

Lemma otherEnds_edgeOfRow directed n r :
  otherEnds n (edgeOfRow directed r)
  = contrib n (graphEdge (edgeKey directed (ra r) (rb r)) r).
Proof. done. Qed.

Lemma defaultView_wellFormed args acc :
  AccOk acc → ∃ d, defaultView args acc = Some d ∧ wellFormed d.
Proof.
  intros Hok. unfold defaultView. rewrite (assemble_spec args acc Hok).
  fold (assembled args acc). cbn [mbind option_bind].
  destruct (export_spec (nodeOut acc) (assembled args acc) (assembled_wf args acc Hok))
    as (d & -> & Hnodes & Hedges & Horder & Hsize & _ & Hadj).
  exists d. split; [done|].
  assert (ids d = nodeSet acc) as Hids.
  { unfold ids. rewrite Hnodes. unfold Exporter.exportNodes.
    rewrite <-list_fmap_compose. cbn [assembled Graphology.nodes]. apply list_fmap_id. }
  assert (Dataset.edges d
          = edgeOfRow (directed args)
            <$> keepFirst (λ r, edgeKey (directed args) (ra r) (rb r)) (edgesRaw acc)) as He.
  { rewrite Hedges. cbn [assembled Graphology.edges]. by rewrite <-list_fmap_compose. }
  split.
  - rewrite Horder, Hnodes. unfold Exporter.exportNodes. by rewrite length_fmap.
  - by rewrite Hsize, Hedges, length_fmap.
  - rewrite Hids. apply (ok_nodup acc Hok).
  - rewrite He, <-list_fmap_compose.
    apply (NoDup_keys_keepFirst (λ r, edgeKey (directed args) (ra r) (rb r))).
  - intros e. rewrite He. intros (r & -> & _)%list_elem_of_fmap. apply truthy_edgeKey.
  - intros e. rewrite He, Hids. intros (r & -> & Hr)%list_elem_of_fmap.
    apply (ok_ends acc Hok). by eapply elem_of_keepFirst.
  - rewrite He, <-list_fmap_compose.
    apply (NoDup_pairs (edgeKey (directed args)) ra rb).
    apply (NoDup_keys_keepFirst (λ r, edgeKey (directed args) (ra r) (rb r))).
  - intros n. rewrite Hadj, Hids. cbn [assembled Graphology.nodes Graphology.edges].
    case_bool_decide; [|done]. f_equal. f_equal.
    rewrite He, <-!list_fmap_compose. done.
Qed.

(** *** The locality view *)

Lemma push_pair_inv a b adj adj2 :
  (Dataset.push a b adj ≫= Dataset.push b a) = Some adj2 →
  ∀ n, adj2 !! n = (λ l, l ++ extra a b n) <$> adj !! n.
Proof.
  intros H.
  destruct (Dataset.push a b adj) as [adj1|] eqn:E1; [|done].
  cbn [mbind option_bind] in H.
  assert (is_Some (adj !! a)) as Ha.
  { unfold Dataset.push in E1. destruct (adj !! a); [by eexists | done]. }
  assert (is_Some (adj !! b)) as Hb.
  { unfold Dataset.push in E1, H. destruct (adj !! a) as [l|] eqn:Ea; [|done].
    injection E1 as <-. destruct (decide (a = b)) as [<-|Hne]; [rewrite Ea; by eexists|].
    rewrite lookup_insert_ne in H by done. destruct (adj !! b); [by eexists | done]. }
  destruct (push_pair a b adj Ha Hb) as (adj2' & E & Hl).
  rewrite E1 in E. cbn [mbind option_bind] in E. rewrite H in E. by injection E as <-.
Qed.

Lemma otherEnds_edgeOutL n a b r : otherEnds n (edgeOutL a b r) = extra a b n.
Proof. done. Qed.

(** The adjacency lists grow with the edges: each holds what the edges
    pushed so far put there. *)
Lemma addEdgesL_adjacency acc idx (adj0 : gmap string (list string)) raw st st' :
  addEdgesL acc idx raw st = Some st' →
  (∀ n, adjL st !! n
        = (λ l, l ++ concat (otherEnds n <$> edgesOutL st)) <$> adj0 !! n) →
  ∀ n, adjL st' !! n
       = (λ l, l ++ concat (otherEnds n <$> edgesOutL st')) <$> adj0 !! n.
Proof.
  revert st. induction raw as [|r rest IH]; intros st; cbn [addEdgesL].
  { by intros [= <-]. }
  destruct (idx !! (route acc r).1) as [i|]; [|apply IH].
  destruct (idx !! (route acc r).2) as [j|]; [|apply IH].
  case_bool_decide; [apply IH|].
  destruct (Dataset.push (route acc r).1 (route acc r).2 (adjL st) ≫=
            Dataset.push (route acc r).2 (route acc r).1) as [adj2|] eqn:Hp.
  - pose proof (push_pair_inv _ _ _ _ Hp) as H2.
    destruct (Dataset.push (route acc r).1 (route acc r).2 (adjL st)) as [adj1|];
      [|done].
    cbn [mbind option_bind] in Hp |- *. rewrite Hp. cbn [mbind option_bind].
    intros Hst' Hst. eapply IH; [exact Hst'|].
    cbn [adjL edgesOutL]. intros n. rewrite H2, Hst, <-option_fmap_compose.
    apply option_fmap_ext. intros l. cbn.
    rewrite fmap_app, concat_app. cbn [fmap list_fmap concat].
    rewrite otherEnds_edgeOutL, app_nil_r. by rewrite <-(assoc_L (++)).
  - destruct (Dataset.push (route acc r).1 (route acc r).2 (adjL st)) as [adj1|];
      [|done].
    cbn [mbind option_bind] in Hp |- *. by rewrite Hp.
Qed.

Lemma localityView_wellFormed acc :
  AccOk acc → ∃ d, localityView acc = Some d ∧ wellFormed d.
Proof.
  intros Hok. unfold localityView.
  destruct (createInstances_ok acc) as [[Hseen Hnd Hadj Hfresh] Hcov].
  set (inst := createInstances acc) in *.
  set (st0 := {| seenEdgesL := ∅; edgesOutL := [];
                 adjL := adjacencyL inst; nodesL := nodesOutL inst |}).
  destruct (addEdgesL_spec acc (Dataset.id <$> nodesOutL inst)
              (indexNodes (nodesOutL inst) 0 ∅) (edgesRawLoc acc) st0)
    as (st' & Hst' & [Hids Hadj' Hdeg Hsym Hflag] & He).
  - done.
  - apply indexNodes_indexed.
  - intros r Hr. by apply route_in.
  - split; subst st0; cbn [nodesL adjL].
    + done.
    + intros k. rewrite Hadj, <-Hseen. case_bool_decide as Hk.
      * split; [done|]. intros _. by eexists.
      * split; [|done]. by intros [? ?].
    + intros p n Hn. rewrite Hadj.
      destruct (Hfresh n) as [-> _]; [apply list_elem_of_lookup; eauto|].
      by case_bool_decide.
    + intros a b. rewrite !Hadj. repeat case_bool_decide; simpl; by rewrite !elem_of_nil.
    + intros n Hn. by apply Hfresh.
  - intros e He. by apply elem_of_nil in He.
  - pose proof (addEdgesL_adjacency acc _ (adjacencyL inst) _ st0 st' Hst') as Hcontent.
    rewrite Hst'. cbn [mbind option_bind]. eexists. split; [done|].
    assert (edgesOutL st' = routedEdge acc <$> keepFirst (routeId acc) (edgesRawLoc acc))
      as He'.
    { rewrite He. subst st0. cbn [edgesOutL seenEdgesL app]. f_equal.
      apply (filter_unseen_all (routeId acc)). intros x _. apply not_elem_of_empty. }
    split; unfold ids; cbn [Dataset.order Dataset.size Dataset.nodes Dataset.edges
                            Dataset.adjacency].
    + done.
    + done.
    + by rewrite Hids.
    + rewrite He', <-list_fmap_compose.
      apply (NoDup_keys_keepFirst (routeId acc)).
    + intros e. rewrite He'. intros (r & -> & _)%list_elem_of_fmap. apply truthy_edgeIdL.
    + intros e. rewrite He', Hids. intros (r & -> & Hr)%list_elem_of_fmap.
      apply route_in; [done|]. by eapply elem_of_keepFirst.
    + rewrite He', <-list_fmap_compose.
      apply (NoDup_pairs edgeIdL (λ r, (route acc r).1) (λ r, (route acc r).2)).
      apply (NoDup_keys_keepFirst (routeId acc)).
    + intros n.
      assert (∀ k, adjL st0 !! k
                   = (λ l, l ++ concat (otherEnds k <$> edgesOutL st0))
                     <$> adjacencyL inst !! k) as H0.
      { intros k. subst st0. cbn [adjL edgesOutL fmap list_fmap concat].
        destruct (adjacencyL inst !! k); [|done]. cbn. by rewrite app_nil_r. }
      rewrite (Hcontent H0 n), Hids, Hadj, (bool_decide_ext _ _ (Hseen n)).
      by case_bool_decide.
Qed.

(** X7.  Both datasets a run writes hang together: their [order] and
    [size] are the numbers of their nodes and edges, no node id and no
    edge id occurs twice, every edge joins two nodes of the dataset, no two
    edges share source and target, and the adjacency map has exactly one
    entry for each node, which lists the other ends of the node's edges in
    the order of the edges. *)
Theorem written_datasets_are_well_formed (Number : string → jsnum) args lines :
  ∃ d dL,
    written (runLocality Number args (InputLines lines)) = [d; dL]
    ∧ written (run Number args (InputLines lines)) = [d]
    ∧ wellFormed d ∧ wellFormed dL.
Proof.
  unfold run, runLocality.
  pose proof (run_acc_ok Number args lines) as Hok.
  destruct (defaultView_wellFormed args _ Hok) as (d & -> & Hd).
  destruct (localityView_wellFormed _ Hok) as (dL & -> & HdL).
  by exists d, dL.
Qed.

End DatasetFacts.

(** ** Degrees and edges *)

Module HandshakeFacts.
Import Js JsFacts TsvToGraph Spec DatasetSpec IngestFacts AssembleFacts ExportFacts
       DefaultViewFacts LocalityFacts AdjacencyFacts DatasetFacts.

Lemma sum_cons (x : nat) l : sum_list (x :: l) = (x + sum_list l)%nat.
Proof. reflexivity. Qed.

Lemma sum_list_plus {A} (f g : A → nat) (l : list A) :
  sum_list ((λ n, f n + g n)%nat <$> l) = (sum_list (f <$> l) + sum_list (g <$> l))%nat.
Proof.
  induction l as [|x l IH]; [done|]. rewrite !fmap_cons, !sum_cons, IH. lia.
Qed.

Lemma sum_list_exchange {A B} (g : A → B → nat) (ns : list A) (es : list B) :
  sum_list ((λ n, sum_list (g n <$> es)) <$> ns)
  = sum_list ((λ e, sum_list ((λ n, g n e) <$> ns)) <$> es).
Proof.
  induction ns as [|n ns IH].
  - induction es as [|e es IHe]; [done|]. rewrite fmap_cons, sum_cons, <-IHe. done.
  - rewrite fmap_cons, sum_cons, IH.
    rewrite <-sum_list_plus. f_equal.
Qed.

Lemma length_concat_sum {A B} (f : A → list B) (l : list A) :
  length (concat (f <$> l)) = sum_list ((λ x, length (f x)) <$> l).
Proof.
  induction l as [|x l IH]; [done|].
  rewrite !fmap_cons, sum_cons, <-IH. cbn [concat]. by rewrite length_app.
Qed.

Lemma count_none (x : string) (l : list string) :
  x ∉ l → sum_list ((λ n, if String.eqb x n then 1 else 0)%nat <$> l) = 0%nat.
Proof.
  induction l as [|z l IH]; [done|]. intros [Hz Hl]%not_elem_of_cons.
  rewrite fmap_cons, sum_cons, (IH Hl). by destruct (String.eqb_spec x z).
Qed.

Lemma count_one (x : string) (l : list string) :
  NoDup l → x ∈ l → sum_list ((λ n, if String.eqb x n then 1 else 0)%nat <$> l) = 1%nat.
Proof.
  induction 1 as [|y l Hy Hnd IH]; [by intros ?%elem_of_nil|].
  rewrite fmap_cons, sum_cons. intros [->|Hx]%elem_of_cons.
  - by rewrite String.eqb_refl, (count_none _ _ Hy).
  - destruct (String.eqb_spec x y) as [->|_]; [done|]. by rewrite IH.
Qed.

Lemma sum_list_const {A} (c : nat) (l : list A) :
  sum_list ((λ _, c) <$> l) = (c * length l)%nat.
Proof.
  induction l as [|x l IH]; [cbn; lia|]. rewrite fmap_cons, sum_cons, IH. cbn [length]. lia.
Qed.

Lemma sum_list_ext {A} (f g : A → nat) (l : list A) :
  (∀ x, x ∈ l → f x = g x) → sum_list (f <$> l) = sum_list (g <$> l).
Proof.
  induction l as [|x l IH]; [done|]. intros H. rewrite !fmap_cons, !sum_cons.
  rewrite (H x) by (by left). rewrite IH; [done|]. intros y Hy. apply H. by right.
Qed.

(** Every edge counts twice among the degrees. *)
Lemma handshake d :
  wellFormed d → degreesMatch d →
  sum_list (Dataset.degree <$> Dataset.nodes d) = (2 * Dataset.size d)%nat.
Proof.
  intros [_ Hsize Hids _ _ Hends _ Hadj] Hdeg.
  rewrite (sum_list_ext _ (λ n, sum_list ((λ e, length (otherEnds (Dataset.id n) e))
                                           <$> Dataset.edges d))).
  2:{ intros n Hn. rewrite (Hdeg n Hn). unfold Dataset.neighbours. rewrite Hadj.
      rewrite bool_decide_eq_true_2 by (apply list_elem_of_fmap; eauto).
      cbn. apply length_concat_sum. }
  rewrite (sum_list_exchange (λ n e, length (otherEnds (Dataset.id n) e))).
  rewrite (sum_list_ext _ (λ _, 2%nat)), sum_list_const, Hsize; [done|].
  intros e He. destruct (Hends e He) as [Hs Ht].
  rewrite (sum_list_ext _ (λ n, (if String.eqb (Dataset.source e) (Dataset.id n) then 1 else 0)
                                + (if String.eqb (Dataset.target e) (Dataset.id n) then 1 else 0))%nat).
  2:{ intros n _. unfold otherEnds. rewrite length_app.
      by destruct (String.eqb _ _), (String.eqb _ _). }
  rewrite sum_list_plus.
  pose proof (count_one (Dataset.source e) (ids d) Hids Hs) as H1.
  pose proof (count_one (Dataset.target e) (ids d) Hids Ht) as H2.
  unfold ids in H1, H2. rewrite <-list_fmap_compose in H1, H2.
  unfold compose in H1, H2. by rewrite H1, H2.
Qed.

(** X8.  In both datasets a run writes, the degrees of the nodes add up to
    twice the number of edges. *)
Theorem degrees_add_up_to_twice_the_edges (Number : string → jsnum) args lines :
  ∃ d dL,
    written (runLocality Number args (InputLines lines)) = [d; dL]
    ∧ sum_list (Dataset.degree <$> Dataset.nodes d) = (2 * Dataset.size d)%nat
    ∧ sum_list (Dataset.degree <$> Dataset.nodes dL) = (2 * Dataset.size dL)%nat.
Proof.
  unfold runLocality.
  pose proof (run_acc_ok Number args lines) as Hok.
  set (acc := (ingest Number args lines None 0 emptyAcc).2) in *.
  destruct (defaultView_wellFormed args acc Hok) as (d & Hd & Hwf).
  destruct (localityView_wellFormed acc Hok) as (dL & HdL & HwfL).
  rewrite Hd, HdL. exists d, dL. split; [done|]. split; apply handshake; try done.
  - unfold defaultView in Hd. rewrite (assemble_spec args acc Hok) in Hd.
    cbn [mbind option_bind] in Hd.
    destruct (export_invariants (nodeOut acc) _ (assembled_wf args acc Hok))
      as (d' & Hd' & _ & Hm); [done|].
    unfold assembled in Hd'. rewrite Hd in Hd'. by injection Hd' as <-.
  - destruct (localityView_spec acc Hok) as (d' & Hd' & _ & _ & _ & _ & Hm & _).
    rewrite HdL in Hd'. injection Hd' as <-. exact Hm.
Qed.

End HandshakeFacts.

(** ** From the pipeline to the viewer *)

Module LoadFacts.
Import Js JsFacts Viewer ViewerSpec ViewerInit DatasetSpec FilterFacts.

Lemma existsb_key k (acc : list Edge) :
  existsb (λ e', String.eqb (key e') k) acc = false ↔ k ∉ key <$> acc.
Proof.
  induction acc as [|x acc IH]; cbn [existsb fmap list_fmap].
  - split; [intros _; apply not_elem_of_nil | done].
  - rewrite orb_false_iff, IH, not_elem_of_cons, String.eqb_neq.
    split; (intros [Hx ?]; split; [|done]); intros E; by apply Hx.
Qed.

Lemma existsb_pair s t (acc : list Edge) :
  existsb (λ e', String.eqb (source e') s && String.eqb (target e') t) acc = false
  ↔ (s, t) ∉ (λ e, (source e, target e)) <$> acc.
Proof.
  induction acc as [|x acc IH]; cbn [existsb fmap list_fmap].
  - split; [intros _; apply not_elem_of_nil | done].
  - rewrite orb_false_iff, IH, not_elem_of_cons, andb_false_iff, !String.eqb_neq.
    split.
    + intros [Hx ?]. split; [|done]. intros [= -> ->]. by destruct Hx.
    + intros [Hx ?]. split; [|done].
      destruct (decide (source x = s)) as [<-|]; [|by left].
      right. intros <-. done.
Qed.

Lemma loadEdges_spec ids es acc :
  (∀ e, e ∈ es → Dataset.source e ∈ ids ∧ Dataset.target e ∈ ids) →
  NoDup ((key <$> acc) ++ (loadKey <$> es)) →
  NoDup (((λ e, (source e, target e)) <$> acc)
         ++ ((λ e, (Dataset.source e, Dataset.target e)) <$> es)) →
  loadEdges ids es acc = Some (acc ++ (loadedEdge <$> es)).
Proof.
  revert acc. induction es as [|e es IH]; intros acc Hends Hkeys Hpairs.
  { cbn. by rewrite app_nil_r. }
  cbn [loadEdges].
  rewrite fmap_cons in Hkeys. rewrite fmap_cons in Hpairs.
  assert (loadKey e ∉ key <$> acc) as Hk.
  { apply NoDup_app in Hkeys as (_ & Hd & _). intros Hin. apply (Hd _ Hin). by left. }
  assert ((Dataset.source e, Dataset.target e) ∉ (λ e, (source e, target e)) <$> acc) as Hp.
  { apply NoDup_app in Hpairs as (_ & Hd & _). intros Hin. apply (Hd _ Hin). by left. }
  rewrite (proj2 (existsb_key _ _) Hk).
  destruct (Hends e) as [Hs Ht]; [by left|].
  rewrite !bool_decide_eq_true_2 by done. cbn [negb orb].
  rewrite (proj2 (existsb_pair _ _ _) Hp).
  change (acc ++ [ {| key := loadKey e; source := Dataset.source e;
                      target := Dataset.target e; allDBs := Dataset.edgeAllDBs e;
                      afmprob := Dataset.afmprob e; edgeHidden := true |} ])
    with (acc ++ [loadedEdge e]).
  rewrite IH.
  - by rewrite fmap_cons, <-(assoc_L (++)).
  - intros e' He'. apply Hends. by right.
  - rewrite fmap_app, <-(assoc_L (++)). done.
  - rewrite fmap_app, <-(assoc_L (++)). done.
Qed.

(** A well-formed dataset loads: graphology throws on none of its nodes
    and edges, and none is left out. *)
Lemma load_wellFormed pos f d :
  wellFormed d →
  load pos f d
  = Some ({| nodes :=
               (λ n, {| id := Dataset.id n; isCluster := false;
                        degree := Z.of_nat (Dataset.degree n);
                        x := (pos (Dataset.id n)).1; y := (pos (Dataset.id n)).2;
                        hidden := hideByDeg f (Z.of_nat (Dataset.degree n))
                                  || hideByNewNode f (nodesBlueOf (loadedEdge <$> Dataset.edges d))
                                       (Dataset.id n) |})
               <$> Dataset.nodes d;
             edges := loadedEdge <$> Dataset.edges d |},
          nodesBlueOf (loadedEdge <$> Dataset.edges d)).
Proof.
  intros [_ _ Hids Heids Heid Hends Hpairs _]. unfold load.
  fold (ids d). rewrite bool_decide_eq_true_2 by done. cbn [negb].
  rewrite (loadEdges_spec (ids d) (Dataset.edges d) []); [done|done| |done].
  cbn [fmap list_fmap app].
  assert (loadKey <$> Dataset.edges d = Dataset.eid <$> Dataset.edges d) as ->; [|done].
  apply list_fmap_ext. intros i e He. unfold loadKey.
  rewrite Heid; [done|]. apply list_elem_of_lookup. eauto.
Qed.

Lemma filter_all {A} (P : A → Prop) `{!∀ x, Decision (P x)} (l : list A) :
  (∀ x, x ∈ l → P x) → filter P l = l.
Proof.
  induction l as [|x l IH]; [done|]. intros Hall.
  rewrite filter_cons_True by (apply Hall; by left).
  f_equal. apply IH. intros y Hy. apply Hall. by right.
Qed.

Lemma filter_ext_in {A} (P Q : A → Prop)
    `{!∀ x, Decision (P x)} `{!∀ x, Decision (Q x)} (l : list A) :
  (∀ x, x ∈ l → P x ↔ Q x) → filter P l = filter Q l.
Proof.
  induction l as [|x l IH]; [done|]. intros Hext.
  assert (filter P l = filter Q l) as E.
  { apply IH. intros y Hy. apply Hext. by right. }
  destruct (decide (P x)) as [HP|HP].
  - rewrite !filter_cons_True; [by rewrite E | by apply Hext; [left|] | done].
  - rewrite !filter_cons_False; [done | | done].
    intros HQ. apply HP. apply Hext; [by left | done].
Qed.

Lemma length_filter_fmap {A B} (f : A → B) (P : B → Prop)
    `{!∀ x, Decision (P x)} (l : list A) :
  length (filter P (f <$> l)) = length (filter (λ x, P (f x)) l).
Proof.
  induction l as [|x l IH]; [done|]. rewrite fmap_cons.
  destruct (decide (P (f x))) as [HP|HP].
  - rewrite !filter_cons_True by done. cbn [length]. by rewrite IH.
  - by rewrite !filter_cons_False.
Qed.

Lemma count_filter {A} (p : A → bool) (l : list A) (c : nat) :
  foldl (λ acc e, acc + (if p e then 1 else 0))%nat c l
  = (c + length (filter (λ e, Is_true (p e)) l))%nat.
Proof.
  revert c. induction l as [|x l IH]; intros c; [cbn; lia|].
  cbn [foldl]. rewrite IH. destruct (p x) eqn:E.
  - rewrite filter_cons_True by (cbn; by rewrite E). cbn [length]. lia.
  - rewrite filter_cons_False by (rewrite E; cbn; tauto). lia.
Qed.

(** The lowest score is a lower bound of the scores. *)
Lemma lowest_le es m0 e a :
  e ∈ es → Dataset.afmprob e = Some a →
  ∃ m, foldl (λ m e,
                match Dataset.afmprob e with
                | Some ap =>
                    match m with
                    | Some m' => if ltNum ap m' then Some ap else m
                    | None => Some ap
                    end
                | None => m
                end) m0 es = Some m ∧ (m <= a)%Q.
Proof.
  revert m0. induction es as [|x es IH]; intros m0; [by intros ?%elem_of_nil|].
  intros [->|He]%elem_of_cons Ha; cbn [foldl]; [|by apply IH].
  rewrite Ha. clear IH.
  assert (∀ m1, (m1 <= a)%Q →
    ∃ m, foldl (λ m e,
                match Dataset.afmprob e with
                | Some ap =>
                    match m with
                    | Some m' => if ltNum ap m' then Some ap else m
                    | None => Some ap
                    end
                | None => m
                end) (Some m1) es = Some m ∧ (m <= a)%Q) as Hmono.
  { induction es as [|y es IH]; intros m1 Hm1; [by exists m1|].
    cbn [foldl]. destruct (Dataset.afmprob y) as [ap|]; [|by apply IH].
    destruct (ltNum ap m1) eqn:E; [|by apply IH].
    apply IH. apply ltNum_spec in E. apply Qlt_le_weak. by eapply Qlt_le_trans. }
  destruct m0 as [m'|]; [|apply Hmono; apply Qle_refl].
  destruct (ltNum a m') eqn:E; [apply Hmono; apply Qle_refl|].
  apply Hmono. apply Qnot_lt_le. intros H. apply ltNum_spec in H. congruence.
Qed.

Lemma initConfidence_hides_nothing d e :
  e ∈ Dataset.edges d → hideByConf (initFilters d) (Dataset.afmprob e) = false.
Proof.
  intros He. unfold hideByConf. destruct (Dataset.afmprob e) as [a|] eqn:Ea; [|done].
  destruct (lowest_le _ None e a He Ea) as (m & Hm & Hle).
  cbn [initFilters conf]. unfold initConfidence, minProb, lowest.
  change (Qeq_bool 0 0) with true. cbn match. rewrite Hm. cbn [default].
  destruct (ltNum a m) eqn:E; [|done]. apply ltNum_spec in E.
  exfalso. by apply (Qlt_not_le _ _ E).
Qed.

(** With the controls untouched, the filter engine counts everything. *)
Lemma totals_at_load pos d :
  wellFormed d →
  ∃ g blue,
    load pos (initFilters d) d = Some (g, blue)
    ∧ length (nodes g) = Dataset.order d
    ∧ length (edges g) = Dataset.size d
    ∧ (∀ k, k ∈ blue ↔ ∃ e, e ∈ Dataset.edges d ∧ isNone (Dataset.edgeAllDBs e) = true
                            ∧ (Dataset.source e = k ∨ Dataset.target e = k))
    ∧ recomputeTotalsImmediate (initFilters d) blue g = initTotals d.
Proof.
  intros Hwf. rewrite (load_wellFormed pos (initFilters d) d Hwf).
  destruct Hwf as [Horder Hsize Hids Heids Heid Hends Hpairs _].
  eexists _, _. split; [done|]. cbn [nodes edges].
  rewrite !length_fmap. split_and!; [done | done | |].
  - intros k. unfold nodesBlueOf.
    assert (∀ es (acc : gset string),
              k ∈ foldl (λ acc e, if isNone (allDBs e)
                                  then {[source e]} ∪ ({[target e]} ∪ acc) else acc)
                        acc (loadedEdge <$> es)
              ↔ k ∈ acc ∨ ∃ e, e ∈ es ∧ isNone (Dataset.edgeAllDBs e) = true
                               ∧ (Dataset.source e = k ∨ Dataset.target e = k)) as H.
    { induction es as [|e es IH]; intros acc; cbn [fmap list_fmap foldl].
      - split; [by left|]. intros [?|(e & ?%elem_of_nil & _)]; done.
      - rewrite IH. cbn [loadedEdge allDBs source target].
        destruct (isNone (Dataset.edgeAllDBs e)) eqn:E.
        + rewrite !elem_of_union, !elem_of_singleton. split.
          * intros [[->|[->|?]]|(e' & He' & ?)].
            -- right. exists e. split; [by left|]. tauto.
            -- right. exists e. split; [by left|]. tauto.
            -- by left.
            -- right. exists e'. split; [by right | done].
          * intros [?|(e' & [->|He']%elem_of_cons & Hn & Hk)].
            -- left. tauto.
            -- left. destruct Hk as [<-| <-]; tauto.
            -- right. eauto.
        + split.
          * intros [?|(e' & He' & ?)]; [by left|]. right. exists e'. split; [by right | done].
          * intros [?|(e' & [->|He']%elem_of_cons & Hn & Hk)]; [by left | congruence |].
            right. eauto. }
    rewrite H. split; [intros [?%not_elem_of_empty|?]; done | by right].
  - unfold recomputeTotalsImmediate, initTotals. cbn [nodes edges].
    set (blue := nodesBlueOf (loadedEdge <$> Dataset.edges d)).
    set (ns := (λ n, _) <$> Dataset.nodes d).
    rewrite countNodes_spec. cbn [fst snd].
    assert (filter (λ n, Is_true (nodeVisible (initFilters d) blue n)) ns = ns) as Hall.
    { apply filter_all. subst ns. intros n (n0 & -> & _)%list_elem_of_fmap. done. }
    rewrite Hall, countEdges_spec. cbn [fst snd].
    assert (id <$> ns = ids d) as Hidn.
    { subst ns. unfold ids. rewrite <-list_fmap_compose. done. }
    rewrite Hidn.
    assert (∀ e, e ∈ Dataset.edges d →
              edgeCounted (initFilters d) (list_to_set (ids d)) (loadedEdge e) = true) as Hc.
    { intros e He. unfold edgeCounted. cbn [loadedEdge source target afmprob allDBs].
      destruct (Hends e He) as [Hs Ht].
      rewrite !bool_decide_eq_true_2 by (by apply elem_of_list_to_set).
      by rewrite (initConfidence_hides_nothing d e He). }
    f_equal.
    + subst ns. by rewrite length_fmap.
    + rewrite filter_all, length_fmap; [done|].
      intros e (e0 & -> & He0)%list_elem_of_fmap. by rewrite Hc.
    + rewrite count_filter. cbn [plus].
      rewrite length_filter_fmap. f_equal.
      apply filter_ext_in. intros e He. by rewrite (Hc e He).
Qed.

(** The lowest score is the score of an edge, when an edge has one. *)
Lemma lowest_attained es m0 m :
  foldl (λ m e,
           match Dataset.afmprob e with
           | Some ap =>
               match m with
               | Some m' => if ltNum ap m' then Some ap else m
               | None => Some ap
               end
           | None => m
           end) m0 es = Some m →
  m0 = Some m ∨ ∃ e, e ∈ es ∧ Dataset.afmprob e = Some m.
Proof.
  revert m0. induction es as [|x es IH]; intros m0; cbn [foldl]; [by left|].
  intros H. apply IH in H as [H|(e & He & Hm)]; [|right; exists e; split; [by right | done]].
  destruct (Dataset.afmprob x) as [ap|] eqn:Ex; [|by left].
  destruct m0 as [m'|].
  - destruct (ltNum ap m'); [|by left].
    injection H as <-. right. exists x. split; [by left | done].
  - injection H as <-. right. exists x. split; [by left | done].
Qed.

(** X9.  The confidence floor [init] starts from is the lowest score of
    the dataset: no edge scores below it, some edge has it when an edge has
    a score at all, and it is 0 when none has.  A floor the user has
    already moved away from 0 is left where it is. *)
Theorem initial_confidence_is_the_lowest_score es :
  (∀ e a, e ∈ es → Dataset.afmprob e = Some a → (minProb es <= a)%Q)
  ∧ ((∃ e, e ∈ es ∧ is_Some (Dataset.afmprob e)) →
     ∃ e, e ∈ es ∧ Dataset.afmprob e = Some (minProb es))
  ∧ ((∀ e, e ∈ es → Dataset.afmprob e = None) → minProb es = 0%Q)
  ∧ initConfidence 0 es = minProb es
  ∧ (∀ current, ¬ (current == 0)%Q → initConfidence current es = current).
Proof.
  split_and!.
  - intros e a He Ha. destruct (lowest_le es None e a He Ha) as (m & Hm & Hle).
    unfold minProb, lowest. by rewrite Hm.
  - intros (e & He & [a Ha]).
    destruct (lowest_le es None e a He Ha) as (m & Hm & _).
    unfold minProb, lowest. rewrite Hm. cbn [default].
    by destruct (lowest_attained es None m Hm) as [?|?].
  - intros Hnone. unfold minProb, lowest.
    destruct (foldl _ None es) as [m|] eqn:Hm; [|done].
    destruct (lowest_attained es None m Hm) as [?|(e & He & Ha)]; [done|].
    rewrite (Hnone e He) in Ha. done.
  - done.
  - intros current Hc. unfold initConfidence.
    destruct (Qeq_bool current 0) eqn:E; [|done].
    apply Qeq_bool_iff in E. done.
Qed.

(** X10.  Both datasets a run writes load in the viewer: graphology throws
    on none of their nodes and edges and none is left out, the nodes marked
    as new are the ends of the edges tagged "none", and with the controls
    untouched the totals the filter engine computes are the totals [init]
    shows: every node, every edge, every edge tagged "none". *)
Theorem written_datasets_load (Number : string → Js.jsnum) args lines pos :
  ∃ d dL,
    TsvToGraph.written (TsvToGraph.runLocality Number args (TsvToGraph.InputLines lines))
    = [d; dL]
    ∧ (∃ g blue,
         load pos (initFilters d) d = Some (g, blue)
         ∧ length (nodes g) = Dataset.order d
         ∧ length (edges g) = Dataset.size d
         ∧ (∀ k, k ∈ blue ↔ ∃ e, e ∈ Dataset.edges d
                                 ∧ isNone (Dataset.edgeAllDBs e) = true
                                 ∧ (Dataset.source e = k ∨ Dataset.target e = k))
         ∧ recomputeTotalsImmediate (initFilters d) blue g = initTotals d)
    ∧ (∃ g blue,
         load pos (initFilters dL) dL = Some (g, blue)
         ∧ length (nodes g) = Dataset.order dL
         ∧ length (edges g) = Dataset.size dL
         ∧ (∀ k, k ∈ blue ↔ ∃ e, e ∈ Dataset.edges dL
                                 ∧ isNone (Dataset.edgeAllDBs e) = true
                                 ∧ (Dataset.source e = k ∨ Dataset.target e = k))
         ∧ recomputeTotalsImmediate (initFilters dL) blue g = initTotals dL).
Proof.
  unfold TsvToGraph.runLocality.
  pose proof (IngestFacts.run_acc_ok Number args lines) as Hok.
  destruct (DatasetFacts.defaultView_wellFormed args _ Hok) as (d & -> & Hd).
  destruct (DatasetFacts.localityView_wellFormed _ Hok) as (dL & -> & HdL).
  exists d, dL. split; [done|]. split; by apply totals_at_load.
Qed.

End LoadFacts.

(** ** [filter-alldbs-none.js] *)

Module FilterScriptFacts.
Import Js JsFacts Argv FilterAllDBsNone.

Lemma readRow_fixed u st line :
  colIndex (readRow u st line) = colIndex st
  ∧ selectIndex (readRow u st line) = selectIndex st.
Proof.
  unfold readRow, push.
  destruct (negb (truthy line)); [done|].
  destruct (negb (isNoneRow (colIndex st) line)); [done|].
  destruct (selectIndex st) eqn:E; [|split; reflexivity].
  destruct u; [|split; reflexivity].
  case_bool_decide; [by rewrite E | split; reflexivity].
Qed.

(** Without [--select] the rows kept are pushed as they are. *)
Lemma rows_full u st rest :
  selectIndex st = None →
  outLines (foldl (readRow u) st rest)
  = outLines st
    ++ filter (λ l, Is_true (truthy l && isNoneRow (colIndex st) l)) rest.
Proof.
  revert st. induction rest as [|line rest IH]; intros st Hsel.
  { cbn. by rewrite app_nil_r. }
  cbn [foldl]. destruct (readRow_fixed u st line) as [Hc Hs].
  rewrite IH by congruence. rewrite Hc.
  unfold readRow. destruct (truthy line) eqn:Ht; cbn [negb andb].
  - destruct (isNoneRow (colIndex st) line) eqn:Hn; cbn [negb].
    + rewrite Hsel. cbn [push outLines].
      rewrite filter_cons_True by (by rewrite Ht, Hn).
      by rewrite <-(assoc_L (++)).
    + by rewrite filter_cons_False by (rewrite Ht, Hn; cbn; tauto).
  - by rewrite filter_cons_False by (rewrite Ht; cbn; tauto).
Qed.

Lemma header_full first :
  match readHeader None first with
  | inl msg => findIndex isAllDBs (splitBy TsvToGraph.isTab first) = None
  | inr st => findIndex isAllDBs (splitBy TsvToGraph.isTab first) = Some (colIndex st)
              ∧ selectIndex st = None ∧ outLines st = [first]
  end.
Proof. unfold readHeader. by destruct (findIndex isAllDBs _). Qed.

(** A run on the lines a run without [--select] gathered gathers them
    again. *)
Lemma rerun_on_lines (fs fs' : string → option (list string)) args input lines out o :
  either args "input" "i" = Some input →
  either args "select" "s" = None →
  fs (showVal input) = Some lines →
  run fs args = Done out o →
  fs' (showVal input) = Some out →
  (lines = [] ∧ out = []
   ∨ ∃ first rest c,
       lines = first :: rest
       ∧ findIndex isAllDBs (splitBy TsvToGraph.isTab first) = Some c
       ∧ out = first :: filter (λ l, Is_true (truthy l && isNoneRow c l)) rest)
  ∧ run fs' args = Done out o.
Proof.
  intros Hin Hsel Hfs Hrun Hfs'. unfold run in *.
  rewrite Hin, Hsel in *. rewrite Hfs in Hrun. rewrite Hfs'.
  destruct lines as [|first rest].
  { injection Hrun as <- <-. split; [by left | done]. }
  pose proof (header_full first) as Hh.
  destruct (readHeader None first) as [msg|st] eqn:Hst; [done|].
  destruct Hh as (Hc & Hs & Ho).
  injection Hrun as <- <-. rewrite (rows_full _ st rest Hs), Ho. cbn [app].
  split.
  - right. exists first, rest, (colIndex st). done.
  - rewrite Hst. f_equal. rewrite (rows_full _ st _ Hs), Ho. cbn [app]. f_equal.
    rewrite list_filter_filter. apply LoadFacts.filter_ext_in. intros l _. tauto.
Qed.

(** *** Joining lines and reading them back *)

Lemma isNewline_free c : isNewline c = false ↔ c ≠ "010"%char.
Proof. unfold isNewline. by rewrite Ascii.eqb_neq. Qed.

Lemma splitBy_newline_free s : Spec.free "010" s → splitBy isNewline s = [s].
Proof.
  induction s as [|c s IH]; [done|]. intros [Hc Hs]. cbn [splitBy].
  rewrite (proj2 (isNewline_free c) Hc), IH by done. done.
Qed.

Lemma splitBy_line_app s t :
  Spec.free "010" s →
  splitBy isNewline (s +:+ newline +:+ t) = s :: splitBy isNewline t.
Proof.
  induction s as [|c s IH].
  - intros _. done.
  - intros [Hc Hs]. rewrite ArgvFacts.append_cons. cbn [splitBy].
    rewrite (proj2 (isNewline_free c) Hc), IH by done. done.
Qed.

Lemma splitBy_content ls :
  ls ≠ [] → Forall (Spec.free "010") ls → splitBy isNewline (content ls) = ls.
Proof.
  induction ls as [|l ls IH]; [done|]. intros _ Hfree.
  apply Forall_cons in Hfree as [Hl Hls].
  destruct ls as [|l' ls].
  - cbn. by apply splitBy_newline_free.
  - change (content (l :: l' :: ls)) with (l +:+ newline +:+ content (l' :: ls)).
    rewrite splitBy_line_app by done. by rewrite IH.
Qed.

Lemma append_empty_r s : s +:+ "" = s.
Proof. induction s as [|c s IH]; [done|]. by rewrite ArgvFacts.append_cons, IH. Qed.

Lemma append_assoc s t u : (s +:+ t) +:+ u = s +:+ t +:+ u.
Proof.
  induction s as [|c s IH]; [done|]. by rewrite !ArgvFacts.append_cons, IH.
Qed.

Lemma splitBy_content_newline ls :
  ls ≠ [] → Forall (Spec.free "010") ls →
  splitBy isNewline (content ls +:+ newline) = ls ++ [""].
Proof.
  induction ls as [|l ls IH]; [done|]. intros _ Hfree.
  apply Forall_cons in Hfree as [Hl Hls].
  destruct ls as [|l' ls].
  - change (content [l]) with l.
    rewrite <-(append_empty_r (l +:+ newline)), append_assoc.
    by rewrite splitBy_line_app.
  - change (content (l :: l' :: ls)) with (l +:+ newline +:+ content (l' :: ls)).
    rewrite !append_assoc.
    rewrite splitBy_line_app by done. by rewrite IH.
Qed.

Lemma dropLastEmpty_snoc ls : dropLastEmpty (ls ++ [""]) = ls.
Proof.
  induction ls as [|l ls IH]; [done|].
  cbn [app dropLastEmpty]. destruct (ls ++ [""]) eqn:E.
  - by destruct ls.
  - by rewrite IH.
Qed.

Lemma dropLastEmpty_truthy ls :
  Forall (λ l, truthy l = true) ls → dropLastEmpty ls = ls.
Proof.
  induction ls as [|l ls IH]; [done|]. intros [Hl Hls]%Forall_cons.
  cbn [dropLastEmpty]. destruct ls; [by rewrite Hl | by rewrite IH].
Qed.

Lemma endsWithNewline_app s t :
  truthy t = true → endsWithNewline (s +:+ t) = endsWithNewline t.
Proof.
  intros Ht. induction s as [|c s IH]; [done|].
  rewrite ArgvFacts.append_cons. cbn [endsWithNewline].
  destruct (s +:+ t) eqn:E; [|done].
  destruct s; [|done]. change ("" +:+ t) with t in E. by subst t.
Qed.

Lemma endsWithNewline_free s : Spec.free "010" s → endsWithNewline s = false.
Proof.
  induction s as [|c s IH]; [done|]. intros [Hc Hs]. cbn [endsWithNewline].
  destruct s; [by apply isNewline_free | by apply IH].
Qed.

Lemma truthy_content l ls : truthy l = true → truthy (content (l :: ls)) = true.
Proof.
  destruct l as [|c l]; [done|]. intros _.
  destruct ls; [done|].
  change (content (String c l :: s :: ls)) with (String c l +:+ newline +:+ content (s :: ls)).
  by rewrite ArgvFacts.append_cons.
Qed.

Lemma endsWithNewline_content ls :
  Forall (λ l, truthy l = true ∧ Spec.free "010" l) ls → endsWithNewline (content ls) = false.
Proof.
  induction ls as [|l ls IH]; [done|]. intros [[Hl Hf] Hls]%Forall_cons.
  destruct ls as [|l' ls].
  - by apply endsWithNewline_free.
  - change (content (l :: l' :: ls)) with (l +:+ newline +:+ content (l' :: ls)).
    apply Forall_cons in Hls as Hls'. destruct Hls' as [[Hl' _] _].
    rewrite endsWithNewline_app.
    + rewrite endsWithNewline_app by (by apply truthy_content). by apply IH.
    + done.
Qed.

(** What a run wrote, read back: the lines it gathered, but for the line
    feed alone that an empty [content] leaves on the standard output. *)
Lemma linesOf_writes out o sink text :
  Forall (λ l, truthy l = true ∧ Spec.free "010" l) out →
  writes (Done out o) = Some (sink, text) →
  linesOf text = (if bool_decide (out = [] ∧ o = None) then [""] else out)
  ∧ (out = [] → o = None → text = newline).
Proof.
  intros Hout. unfold writes, linesOf.
  assert (Forall (Spec.free "010") out) as Hfree by (eapply Forall_impl; [exact Hout | intros ? H; apply H]).
  assert (Forall (λ l, truthy l = true) out) as Htr by (eapply Forall_impl; [exact Hout | intros ? H; apply H]).
  destruct o as [path|].
  - intros [= <- <-]. rewrite bool_decide_eq_false_2 by (by intros [_ ?]).
    split; [|done]. destruct out as [|l ls]; [done|].
    rewrite splitBy_content by done. by apply dropLastEmpty_truthy.
  - rewrite endsWithNewline_content by done. intros [= <- <-].
    destruct out as [|l ls].
    + by rewrite bool_decide_eq_true_2.
    + rewrite splitBy_content_newline by done. rewrite dropLastEmpty_snoc.
      rewrite bool_decide_eq_false_2 by (by intros [? _]). done.
Qed.

Lemma header_truthy first c :
  findIndex isAllDBs (splitBy TsvToGraph.isTab first) = Some c → truthy first = true.
Proof. by destruct first. Qed.

(** X11.  Without [--select] the script writes the header line followed by
    the non-empty lines whose [allDBs] cell is "none", in their order.  Run
    again on the text it wrote, it writes the same text to the same place:
    with one exception, the empty input written to the standard output,
    which leaves a line feed alone there; the second run takes the empty
    line for the header and ends with the message that names the columns
    and exit code 1.  The lines of the input hold no line terminator, as
    the lines [readline] yields. *)
Theorem filter_is_idempotent
    (fs fs' : string → option (list string)) args input lines out o sink text :
  either args "input" "i" = Some input →
  either args "select" "s" = None →
  fs (showVal input) = Some lines →
  Forall (λ l, Spec.free "010" l ∧ Spec.free "013" l) lines →
  run fs args = Done out o →
  writes (run fs args) = Some (sink, text) →
  fs' (showVal input) = Some (linesOf text) →
  (lines = [] ∧ out = []
   ∨ ∃ first rest c,
       lines = first :: rest
       ∧ findIndex isAllDBs (splitBy TsvToGraph.isTab first) = Some c
       ∧ out = first :: filter (λ l, Is_true (truthy l && isNoneRow c l)) rest)
  ∧ (if bool_decide (lines = [] ∧ o = None)
     then text = newline ∧ run fs' args = Exit1 (NoAllDBsColumn [""])
     else run fs' args = Done out o ∧ writes (run fs' args) = Some (sink, text)).
Proof.
  intros Hin Hsel Hfs Hfree Hrun Hw Hfs'. rewrite Hrun in Hw.
  destruct (rerun_on_lines fs (λ _, Some out) args input lines out o
              Hin Hsel Hfs Hrun eq_refl) as [Hshape _].
  split; [exact Hshape|].
  assert (Forall (λ l, truthy l = true ∧ Spec.free "010" l) out) as Hout.
  { destruct Hshape as [[_ ->]|(first & rest & c & -> & Hc & ->)]; [constructor|].
    apply Forall_cons in Hfree as [[Hf _] Hrest]. constructor.
    - split; [by eapply header_truthy | done].
    - apply Forall_forall. intros l [Hl Hin']%list_elem_of_filter.
      rewrite Forall_forall in Hrest. split; [|by apply Hrest].
      apply Is_true_eq_true in Hl. by apply andb_true_iff in Hl as [? _]. }
  destruct (linesOf_writes out o sink text Hout Hw) as [Hlines Htext].
  rewrite Hlines in Hfs'.
  assert (lines = [] ↔ out = []) as Hnil.
  { destruct Hshape as [[-> ->]|(first & rest & c & -> & _ & ->)]; [done|].
    split; discriminate. }
  case_bool_decide as Hcase.
  - destruct Hcase as [Hl Ho].
    rewrite bool_decide_eq_true_2 by (by rewrite Hnil).
    split; [by apply Htext|].
    unfold run. by rewrite Hin, Hfs', Hsel.
  - rewrite bool_decide_eq_false_2 by (by rewrite Hnil).
    destruct (rerun_on_lines fs fs' args input lines out o Hin Hsel Hfs Hrun Hfs')
      as [_ Hrerun].
    by rewrite Hrerun.
Qed.

Lemma filter_is_idempotent_witness :
  (run (λ _, Some [Sample.tsv ["protein1"; "allDBs"]; Sample.tsv ["p1"; "none"]])
       (parseArgs ["--input"; "t.tsv"] ∅)
   = Done [Sample.tsv ["protein1"; "allDBs"]; Sample.tsv ["p1"; "none"]] None
   ∧ writes (run (λ _, Some [Sample.tsv ["protein1"; "allDBs"]; Sample.tsv ["p1"; "none"]])
               (parseArgs ["--input"; "t.tsv"] ∅))
     = Some (ToStdout,
             content [Sample.tsv ["protein1"; "allDBs"]; Sample.tsv ["p1"; "none"]]
             +:+ newline))
  ∧ (newline = newline
     ∧ run (λ _, Some [""]) (parseArgs ["--input"; "t.tsv"] ∅)
       = Exit1 (NoAllDBsColumn [""])).
Proof.
  split.
  - apply (filter_is_idempotent
             (λ _, Some [Sample.tsv ["protein1"; "allDBs"];
                         Sample.tsv ["p1"; "none"]; Sample.tsv ["p2"; "dbX"]])
             (λ _, Some [Sample.tsv ["protein1"; "allDBs"]; Sample.tsv ["p1"; "none"]])
             (parseArgs ["--input"; "t.tsv"] ∅) (Str "t.tsv")
             [Sample.tsv ["protein1"; "allDBs"];
              Sample.tsv ["p1"; "none"]; Sample.tsv ["p2"; "dbX"]]
             [Sample.tsv ["protein1"; "allDBs"]; Sample.tsv ["p1"; "none"]] None
             ToStdout
             (content [Sample.tsv ["protein1"; "allDBs"]; Sample.tsv ["p1"; "none"]]
              +:+ newline));
      try reflexivity.
    vm_compute. repeat constructor; discriminate.
  - apply (filter_is_idempotent
             (λ _, Some []) (λ _, Some [""])
             (parseArgs ["--input"; "t.tsv"] ∅) (Str "t.tsv")
             [] [] None ToStdout newline);
      try reflexivity.
    constructor.
Defined.

(** With [--select] the selected cell of every row kept is pushed. *)
Lemma rows_select st rest i :
  selectIndex st = Some i →
  outLines (foldl (readRow false) st rest)
  = outLines st
    ++ ((λ l, default "" (splitBy TsvToGraph.isTab l !! i))
        <$> filter (λ l, Is_true (truthy l && isNoneRow (colIndex st) l)) rest).
Proof.
  revert st. induction rest as [|line rest IH]; intros st Hsel.
  { cbn. by rewrite app_nil_r. }
  cbn [foldl]. destruct (readRow_fixed false st line) as [Hc Hs].
  rewrite IH by congruence. rewrite Hc.
  unfold readRow. destruct (truthy line) eqn:Ht; cbn [negb andb].
  - destruct (isNoneRow (colIndex st) line) eqn:Hn; cbn [negb].
    + rewrite Hsel. cbn [push outLines].
      rewrite filter_cons_True by (by rewrite Ht, Hn).
      by rewrite fmap_cons, <-(assoc_L (++)).
    + by rewrite filter_cons_False by (rewrite Ht, Hn; cbn; tauto).
  - by rewrite filter_cons_False by (rewrite Ht; cbn; tauto).
Qed.

(** With [--unique] too, only the first of equal cells. *)
Lemma rows_select_unique st rest i :
  selectIndex st = Some i →
  outLines (foldl (readRow true) st rest)
  = outLines st
    ++ filter (λ v, v ∉ seen st)
         (Spec.keepFirst (λ v, v)
            ((λ l, default "" (splitBy TsvToGraph.isTab l !! i))
             <$> filter (λ l, Is_true (truthy l && isNoneRow (colIndex st) l)) rest)).
Proof.
  revert st. induction rest as [|line rest IH]; intros st Hsel.
  { cbn. by rewrite app_nil_r. }
  cbn [foldl]. destruct (readRow_fixed true st line) as [Hc Hs].
  rewrite IH by congruence. rewrite Hc.
  unfold readRow. destruct (truthy line) eqn:Ht; cbn [negb andb].
  - destruct (isNoneRow (colIndex st) line) eqn:Hn; cbn [negb].
    + rewrite Hsel.
      rewrite (filter_cons_True _ line) by (by rewrite Ht, Hn). rewrite fmap_cons.
      case_bool_decide as Hseen.
      * by rewrite (AssembleFacts.keepFirst_unseen_cons_seen (λ v, v)).
      * cbn [outLines seen].
        rewrite (AssembleFacts.keepFirst_unseen_cons_new (λ v, v)) by done.
        by rewrite <-(assoc_L (++)).
    + by rewrite (filter_cons_False _ line) by (rewrite Ht, Hn; cbn; tauto).
  - by rewrite (filter_cons_False _ line) by (rewrite Ht; cbn; tauto).
Qed.

(** X12.  With [--select] the script writes, for the non-empty lines after
    the header whose [allDBs] cell is "none", the cell of the selected
    column (the empty string for a line too short), in their order and
    without the header; with [--unique] it writes each value once, where it
    first occurs. *)
Theorem select_writes_the_selected_cells
    (fs : string → option (list string)) args input first rest sel out o :
  either args "input" "i" = Some input →
  fs (showVal input) = Some (first :: rest) →
  either args "select" "s" = Some sel →
  run fs args = Done out o →
  ∃ c i,
    findIndex isAllDBs (splitBy TsvToGraph.isTab first) = Some c
    ∧ findIndex (isSelected sel) (splitBy TsvToGraph.isTab first) = Some i
    ∧ out = (if truthyVal (args !! "unique") then Spec.keepFirst (λ v, v) else λ l, l)
              ((λ l, default "" (splitBy TsvToGraph.isTab l !! i))
               <$> filter (λ l, Is_true (truthy l && isNoneRow c l)) rest)
    ∧ (truthyVal (args !! "unique") = true → NoDup out).
Proof.
  intros Hin Hfs Hsel Hrun. unfold run in Hrun.
  rewrite Hin, Hfs, Hsel in Hrun. unfold readHeader in Hrun.
  destruct (findIndex isAllDBs (splitBy TsvToGraph.isTab first)) as [c|]; [|done].
  destruct (findIndex (isSelected sel) (splitBy TsvToGraph.isTab first)) as [i|]; [|done].
  injection Hrun as <- <-. exists c, i. split_and!; [done | done | |].
  - destruct (truthyVal (args !! "unique")).
    + rewrite (rows_select_unique _ rest i) by done. cbn [outLines seen colIndex app].
      apply (AssembleFacts.filter_unseen_all (λ v, v)). intros x _. apply not_elem_of_empty.
    + by rewrite (rows_select _ rest i).
  - intros ->. rewrite (rows_select_unique _ rest i) by done.
    cbn [outLines seen colIndex app].
    rewrite (AssembleFacts.filter_unseen_all (λ v, v))
      by (intros x _; apply not_elem_of_empty).
    pose proof (AssembleFacts.NoDup_keys_keepFirst (λ v : string, v)
                  ((λ l, default "" (splitBy TsvToGraph.isTab l !! i))
                   <$> filter (λ l, Is_true (truthy l && isNoneRow c l)) rest)) as H.
    by rewrite list_fmap_id in H.
Qed.

Lemma select_writes_the_selected_cells_witness :
  ∃ c i,
    findIndex isAllDBs (splitBy TsvToGraph.isTab (Sample.tsv ["protein1"; "allDBs"])) = Some c
    ∧ findIndex (isSelected (Str "protein1"))
        (splitBy TsvToGraph.isTab (Sample.tsv ["protein1"; "allDBs"])) = Some i
    ∧ ["p1"; "p2"]
      = (if truthyVal (parseArgs ["--input"; "t.tsv"; "--select=protein1"; "--unique"] ∅
                       !! "unique")
         then Spec.keepFirst (λ v, v) else λ l, l)
          ((λ l, default "" (splitBy TsvToGraph.isTab l !! i))
           <$> filter (λ l, Is_true (truthy l && isNoneRow c l))
                 [Sample.tsv ["p1"; "none"]; Sample.tsv ["p2"; "None"];
                  Sample.tsv ["p1"; "none"]; Sample.tsv ["p3"; "dbX"]])
    ∧ (truthyVal (parseArgs ["--input"; "t.tsv"; "--select=protein1"; "--unique"] ∅
                  !! "unique") = true → NoDup ["p1"; "p2"]).
Proof.
  apply (select_writes_the_selected_cells
           (λ _, Some [Sample.tsv ["protein1"; "allDBs"];
                       Sample.tsv ["p1"; "none"]; Sample.tsv ["p2"; "None"];
                       Sample.tsv ["p1"; "none"]; Sample.tsv ["p3"; "dbX"]])
           (parseArgs ["--input"; "t.tsv"; "--select=protein1"; "--unique"] ∅)
           (Str "t.tsv") (Sample.tsv ["protein1"; "allDBs"])
           [Sample.tsv ["p1"; "none"]; Sample.tsv ["p2"; "None"];
            Sample.tsv ["p1"; "none"]; Sample.tsv ["p3"; "dbX"]]
           (Str "protein1") ["p1"; "p2"] None);
    reflexivity.
Defined.

End FilterScriptFacts.

(** ** The search box *)

Module SearchFacts.
Import Js JsFacts ViewerSearch.

Lemma indexOf_zero s p : indexOf s p = Some 0%nat ↔ startsWith p s = true.
Proof.
  destruct s as [|c s]; cbn [indexOf]; destruct (startsWith p _); try done.
  destruct (indexOf s p); done.
Qed.

Lemma indexOf_None s p : indexOf s p = None ↔ includes s p = false.
Proof.
  induction s as [|c s IH]; cbn [indexOf includes].
  - destruct (startsWith p ""); done.
  - destruct (startsWith p (String c s)); cbn [orb]; [done|].
    rewrite <-IH. destruct (indexOf s p); done.
Qed.

Lemma indexOf_cases s p :
  match indexOf s p with
  | Some 0%nat => startsWith p s = true
  | Some (S _) => startsWith p s = false ∧ includes s p = true
  | None => startsWith p s = false ∧ includes s p = false
  end.
Proof.
  destruct (indexOf s p) as [[|k]|] eqn:E.
  - by apply indexOf_zero.
  - split.
    + destruct (startsWith p s) eqn:Hs; [|done].
      apply indexOf_zero in Hs. congruence.
    + destruct (includes s p) eqn:Hi; [done|].
      apply indexOf_None in Hi. congruence.
  - split.
    + destruct (startsWith p s) eqn:Hs; [|done].
      apply indexOf_zero in Hs. congruence.
    + by apply indexOf_None.
Qed.

(** The loop with its [break], in closed form. *)
Lemma scan_spec q idx starts contains :
  (length starts < 8)%nat →
  (scan q idx starts contains).1
  = take 8 (starts ++ (suggestion <$> filter (λ e, Is_true (isPrefixMatch q e)) idx))
  ∧ ((length (starts ++ (suggestion <$> filter (λ e, Is_true (isPrefixMatch q e)) idx)) < 8)%nat →
     (scan q idx starts contains).2
     = contains ++ (suggestion <$> filter (λ e, Is_true (isInnerMatch q e)) idx)).
Proof.
  revert starts contains. induction idx as [|e idx IH]; intros starts contains Hlen.
  { cbn [scan filter list_filter fmap list_fmap fst snd]. rewrite !app_nil_r.
    split; [|done]. rewrite take_ge; [done | lia]. }
  cbn [scan]. pose proof (indexOf_cases (nameLower e) q) as Hc.
  destruct (indexOf (nameLower e) q) as [[|k]|]; cbn [fst snd].
  - rewrite (filter_cons_True _ e) by (unfold isPrefixMatch; by rewrite Hc).
    rewrite (filter_cons_False _ e) by (unfold isInnerMatch; rewrite Hc; cbn; tauto).
    rewrite fmap_cons. change (suggestion e) with (id e, name e).
    assert (∀ tl, starts ++ (id e, name e) :: tl = (starts ++ [(id e, name e)]) ++ tl)
      as Hmid by (intros; by rewrite <-(assoc_L (++))).
    rewrite (Hmid (suggestion <$> filter (λ e0, Is_true (isPrefixMatch q e0)) idx)).
    destruct (8 <=? length (starts ++ [(id e, name e)]))%nat eqn:E8; cbn [fst snd].
    + apply Nat.leb_le in E8. rewrite length_app in E8. cbn [length] in E8.
      split.
      * rewrite take_app_le by (rewrite length_app; cbn [length]; lia).
        rewrite take_ge; [done|]. rewrite length_app. cbn [length]. lia.
      * rewrite !length_app. cbn [length]. lia.
    + apply Nat.leb_gt in E8. by apply IH.
  - destruct Hc as [Hs Hi].
    rewrite (filter_cons_False _ e) by (unfold isPrefixMatch; rewrite Hs; cbn; tauto).
    rewrite (filter_cons_True _ e) by (unfold isInnerMatch; by rewrite Hs, Hi).
    rewrite fmap_cons. change (suggestion e) with (id e, name e).
    rewrite (proj2 (Nat.leb_gt _ _)) by lia.
    destruct (IH starts (contains ++ [(id e, name e)]) Hlen) as [H1 H2].
    split; [done|]. intros H. rewrite (H2 H). by rewrite <-(assoc_L (++)).
  - destruct Hc as [Hs Hi].
    rewrite (filter_cons_False _ e) by (unfold isPrefixMatch; rewrite Hs; cbn; tauto).
    rewrite (filter_cons_False _ e) by (unfold isInnerMatch; rewrite Hs, Hi; cbn; tauto).
    rewrite (proj2 (Nat.leb_gt _ _)) by lia. by apply IH.
Qed.

(** X13.  The suggestions for a query are the first eight entries of: the
    entries whose lowered name starts with the query (trimmed and lowered),
    in index order, followed by the entries that hold it further on; the
    early exit of the loop changes nothing of that.  A query that is empty
    or blank has no suggestion. *)
Theorem suggestions_are_the_first_eight_matches searchQuery idx :
  searchMatches searchQuery idx
  = (if truthy (toLowerCase (trim searchQuery))
     then take 8
            ((suggestion <$> filter (λ e, Is_true (isPrefixMatch (toLowerCase (trim searchQuery)) e)) idx)
             ++ (suggestion <$> filter (λ e, Is_true (isInnerMatch (toLowerCase (trim searchQuery)) e)) idx))
     else [])
  ∧ (length (searchMatches searchQuery idx) ≤ 8)%nat
  ∧ (∀ m, m ∈ searchMatches searchQuery idx →
       ∃ e, e ∈ idx ∧ m = (id e, name e)
            ∧ includes (nameLower e) (toLowerCase (trim searchQuery)) = true).
Proof.
  set (q := toLowerCase (trim searchQuery)).
  assert (searchMatches searchQuery idx
          = if truthy q
            then take 8 ((suggestion <$> filter (λ e, Is_true (isPrefixMatch q e)) idx)
                         ++ (suggestion <$> filter (λ e, Is_true (isInnerMatch q e)) idx))
            else []) as E.
  { unfold searchMatches. fold q. destruct (truthy q); cbn [negb]; [|done].
    destruct (scan_spec q idx [] []) as [H1 H2]; [cbn; lia|].
    cbn [app] in H1, H2. rewrite H1.
    set (ps := suggestion <$> filter (λ e, Is_true (isPrefixMatch q e)) idx) in *.
    destruct (8 <=? length (take 8 ps))%nat eqn:E8.
    - apply Nat.leb_le in E8. rewrite length_take in E8.
      rewrite take_app_le by lia. done.
    - apply Nat.leb_gt in E8. rewrite length_take in E8.
      assert (length ps < 8)%nat as Hps by lia.
      rewrite (H2 Hps). cbn [app]. by rewrite (take_ge ps) by lia. }
  split; [done|]. rewrite E. destruct (truthy q); [|split; [cbn; lia | by intros m ?%elem_of_nil]].
  split.
  - rewrite length_take. lia.
  - intros m Hm. apply elem_of_take in Hm as (i & Hm & _).
    apply list_elem_of_lookup_2 in Hm.
    apply elem_of_app in Hm as [Hm|Hm];
      apply list_elem_of_fmap in Hm as (e & -> & He);
      apply list_elem_of_filter in He as [He Hin];
      exists e; (split; [done|]); (split; [done|]).
    + unfold isPrefixMatch in He. apply Is_true_true in He.
      destruct (nameLower e); cbn [includes]; by rewrite He.
    + unfold isInnerMatch in He. apply Is_true_true in He.
      by apply andb_true_iff in He as [_ ?].
Qed.

End SearchFacts.

(** ** [throttle] *)

Module ThrottleFacts.
Import Js JsFacts Throttle.

Section Calls.
Context {A : Type}.
Implicit Types calls : list (Q * A).

Lemma ran_spaced ms last calls : spaced ms last (ran ms last calls).
Proof.
  revert last. induction calls as [|[now a] calls IH]; intros last; [done|].
  cbn [ran]. destruct (Qle_bool ms (now - last)) eqn:E; [|apply IH].
  cbn [spaced]. split; [by apply Qle_bool_iff | apply IH].
Qed.

Lemma ran_sublist ms last calls : ran ms last calls `sublist_of` calls.
Proof.
  revert last. induction calls as [|[now a] calls IH]; intros last; [done|].
  cbn [ran]. destruct (Qle_bool ms (now - last)).
  - apply sublist_skip, IH.
  - apply sublist_cons, IH.
Qed.

Lemma last_cons_shift {B} (l : list B) x d : List.last (x :: l) d = List.last l x.
Proof.
  destruct l as [|y l]; [done|].
  change (List.last (x :: y :: l) d) with (List.last (y :: l) d).
  apply FocusFacts.last_cons_default.
Qed.

Lemma ran_app ms last calls calls' :
  ran ms last (calls ++ calls')
  = ran ms last calls ++ ran ms (lastTime last (ran ms last calls)) calls'.
Proof.
  revert last. induction calls as [|[now a] calls IH]; intros last; [done|].
  cbn [app ran]. destruct (Qle_bool ms (now - last)); [|apply IH].
  rewrite IH. cbn [app]. f_equal. f_equal. f_equal. unfold lastTime.
  rewrite fmap_cons. cbn [fst]. symmetry. apply last_cons_shift.
Qed.

End Calls.

(** X14.  The function [throttle(fn, ms)] returns lets [fn] run for some of
    the calls it gets, in their order and with their arguments: calls at
    least [ms] apart, the first at least [ms] after time 0.  A call runs
    exactly when it comes at least [ms] after the last call that ran. *)
Theorem throttled_calls_are_spaced {A} ms (calls : list (Q * A)) :
  spaced ms 0 (ran ms 0 calls)
  ∧ ran ms 0 calls `sublist_of` calls
  ∧ ∀ now a,
      ran ms 0 (calls ++ [(now, a)])
      = ran ms 0 calls
        ++ (if Qle_bool ms (now - lastTime 0 (ran ms 0 calls)) then [(now, a)] else []).
Proof.
  split_and!.
  - apply ran_spaced.
  - apply ran_sublist.
  - intros now a. rewrite ran_app. cbn [ran]. by destruct (Qle_bool _ _).
Qed.

End ThrottleFacts.

(** ** The camera *)

Module CameraFacts.
Import Js JsFacts Viewer ViewerCamera.

Lemma clamp_between v a b :
  (a <= b)%Q → (a <= clamp v a b)%Q ∧ (clamp v a b <= b)%Q.
Proof.
  intros Hab. unfold clamp. split; [apply Q.le_max_l|].
  apply Q.max_lub; [done | apply Q.le_min_l].
Qed.

Lemma clamp_inside v a b : (a <= v)%Q → (v <= b)%Q → (clamp v a b == v)%Q.
Proof.
  intros Ha Hb. unfold clamp. rewrite (Q.min_r b v) by done. by rewrite Q.max_r.
Qed.

Lemma clamp_crossed v a b : (b <= a)%Q → (clamp v a b == a)%Q.
Proof.
  intros Hba. unfold clamp. apply Q.max_l.
  eapply Qle_trans; [apply Q.le_min_l | done].
Qed.

(** What is within bounds is not moved. *)
Lemma clamp_idem v a b : (clamp (clamp v a b) a b == clamp v a b)%Q.
Proof.
  destruct (Qlt_le_dec b a) as [Hlt|Hle].
  - rewrite !clamp_crossed by (by apply Qlt_le_weak). done.
  - destruct (clamp_between v a b Hle). by apply clamp_inside.
Qed.

Lemma not_far (u v : Q) : (u == v)%Q → ltNum (1 # 1000) (Qabs (u - v)) = false.
Proof.
  intros E. destruct (ltNum (1 # 1000) (Qabs (u - v))) eqn:H; [|done].
  apply ltNum_spec in H. rewrite E in H.
  assert (v - v == 0)%Q as E0 by ring. rewrite E0 in H. done.
Qed.

Lemma targetRatio_bounds r :
  (1 # 4 <= Qmax (1 # 4) (Qmin 1 (r * (65 # 100))))%Q
  ∧ (Qmax (1 # 4) (Qmin 1 (r * (65 # 100))) <= 1)%Q.
Proof.
  split; [apply Q.le_max_l|]. apply Q.max_lub; [done | apply Q.le_min_l].
Qed.

Lemma focusTarget_inside g cam n :
  (1 # 4 <= ratio (focusTarget g cam n))%Q
  ∧ (ratio (focusTarget g cam n) <= 1)%Q
  ∧ (ratio (focusTarget g cam n) / 2 <= cx (focusTarget g cam n))%Q
  ∧ (cx (focusTarget g cam n) <= 1 - ratio (focusTarget g cam n) / 2)%Q
  ∧ (ratio (focusTarget g cam n) / 2 <= cy (focusTarget g cam n))%Q
  ∧ (cy (focusTarget g cam n) <= 1 - ratio (focusTarget g cam n) / 2)%Q.
Proof.
  unfold focusTarget. destruct (getGraphBounds g) as [[[minX minY] maxX] maxY].
  cbn [ratio cx cy angle].
  destruct (targetRatio_bounds (ratio cam)) as [Hlo Hhi].
  set (r := Qmax (1 # 4) (Qmin 1 (ratio cam * (65 # 100)))) in *.
  assert (r / 2 <= 1 - r / 2)%Q as Hm.
  { apply Qle_minus_iff. apply Qle_minus_iff in Hhi.
    assert (1 - r / 2 + - (r / 2) == 1 + - r)%Q as -> by field. done. }
  split_and!; try done; by apply clamp_between.
Qed.

(** X15.  A focus zooms to a ratio between 0.25 and 1, keeps the angle, and
    aims at a point at least half that ratio away from each border of the
    unit square: the view stays over the graph. *)
Theorem focus_stays_over_the_graph g cam n :
  ((1 # 4 <= ratio (focusTarget g cam n))%Q
   ∧ (ratio (focusTarget g cam n) <= 1)%Q)
  ∧ ((ratio (focusTarget g cam n) / 2 <= cx (focusTarget g cam n))%Q
     ∧ (cx (focusTarget g cam n) <= 1 - ratio (focusTarget g cam n) / 2)%Q)
  ∧ ((ratio (focusTarget g cam n) / 2 <= cy (focusTarget g cam n))%Q
     ∧ (cy (focusTarget g cam n) <= 1 - ratio (focusTarget g cam n) / 2)%Q)
  ∧ angle (focusTarget g cam n) = angle cam.
Proof.
  destruct (focusTarget_inside g cam n) as (? & ? & ? & ? & ? & ?).
  split_and!; try done.
  unfold focusTarget. by destruct (getGraphBounds g) as [[[minX minY] maxX] maxY].
Qed.

(** X16.  [clampCameraToGraph] leaves alone a camera it has just moved, and
    the camera state a focus aims at: the clamp does not fight the focus
    animation's end state, and clamping twice is clamping once. *)
Theorem clamp_settles g cam n st :
  clampCameraToGraph false (clampCameraToGraph false st) = clampCameraToGraph false st
  ∧ clampCameraToGraph false (focusTarget g cam n) = focusTarget g cam n.
Proof.
  assert (∀ c, (clamp (cx c) (ratio c / 2) (1 - ratio c / 2) == cx c)%Q →
               (clamp (cy c) (ratio c / 2) (1 - ratio c / 2) == cy c)%Q →
               clampCameraToGraph false c = c) as Hstay.
  { intros c Hx Hy. unfold clampCameraToGraph. by rewrite (not_far _ _ Hx), (not_far _ _ Hy). }
  split.
  - assert (clampCameraToGraph false st = st
            ∨ clampCameraToGraph false st
              = {| cx := clamp (cx st) (ratio st / 2) (1 - ratio st / 2);
                   cy := clamp (cy st) (ratio st / 2) (1 - ratio st / 2);
                   ratio := ratio st; angle := angle st |}) as [E|E].
    { unfold clampCameraToGraph. destruct (_ || _); [by right | by left]. }
    + by rewrite !E.
    + rewrite E. apply Hstay; cbn [cx cy ratio]; apply clamp_idem.
  - destruct (focusTarget_inside g cam n) as (_ & _ & Hx1 & Hx2 & Hy1 & Hy2).
    apply Hstay; by apply clamp_inside.
Qed.

End CameraFacts.

(** ** The locality groups *)

Module GroupFacts.
Import Js JsFacts.

Lemma fillGroups_None gi defs (m : gmap string nat) k :
  m !! k = None →
  k ∉ toLowerCase <$> concat (snd <$> defs) →
  LocalityGroups.fillGroups gi defs m !! k = None.
Proof.
  revert gi m. induction defs as [|def defs IH]; intros gi m Hm Hk; [done|].
  cbn [LocalityGroups.fillGroups]. rewrite fmap_cons in Hk. cbn [concat] in Hk.
  rewrite fmap_app in Hk. apply not_elem_of_app in Hk as [Hdef Hrest].
  apply IH; [|done]. clear IH Hrest. revert m Hm.
  induction (def.2) as [|x xs IHx]; intros m Hm; [done|].
  cbn [foldl]. rewrite fmap_cons in Hdef. apply not_elem_of_cons in Hdef as [Hx Hxs].
  apply IHx; [done|]. by rewrite lookup_insert_ne.
Qed.

Lemma find_members_None k (defs : list (string * list string)) :
  k ∉ concat (snd <$> defs) →
  List.find (λ def : string * list string, bool_decide (k ∈ def.2)) defs = None.
Proof.
  induction defs as [|def defs IH]; [done|].
  rewrite fmap_cons. cbn [concat List.find]. intros [Hd Hr]%not_elem_of_app.
  rewrite bool_decide_eq_false_2 by done. by apply IH.
Qed.

(** X17.  The script and the viewer put every locality name in the same
    group: the viewer's [toGroup] answers the key of the group whose index
    the script's [groupIndexOf] answers, whatever the name and its case. *)
Theorem viewer_and_script_group_alike loc :
  Some (ViewerGroups.toGroup loc) = LocalityGroups.keyOf (LocalityGroups.groupIndexOf loc).
Proof.
  unfold ViewerGroups.toGroup, LocalityGroups.groupIndexOf.
  generalize (toLowerCase loc) as k. intros k. cbv zeta.
  destruct (decide (k ∈ concat (snd <$> ViewerGroups.groupDefs))) as [Hin|Hout].
  - cbn in Hin. repeat (apply elem_of_cons in Hin as [->|Hin]; [vm_compute; reflexivity|]).
    by apply elem_of_nil in Hin.
  - rewrite find_members_None.
    2:{ intros Hk. apply Hout. revert Hk. cbn.
        rewrite !elem_of_cons. tauto. }
    unfold LocalityGroups.memberToGroup. rewrite fillGroups_None; [done | done|].
    intros Hk. apply Hout. revert Hk. vm_compute concat. vm_compute fmap. done.
Qed.

End GroupFacts.

(** ** [generate-graph.js] *)

Module GenerateFacts.
Import Js JsFacts Argv GenerateGraphCli.

Lemma clampProbability_bounds q p :
  clampProbability q = Finite p → (0 <= p)%Q ∧ (p <= 999 # 1000)%Q.
Proof.
  destruct q as [|[|]|x]; cbn; [done|intros [= <-]; done..|].
  intros [= <-]. split.
  - apply Q.min_glb; [done | apply Q.le_max_l].
  - apply Q.le_min_l.
Qed.

Lemma orEight_cases avgDegree :
  orEight avgDegree = Finite 8
  ∨ (∃ s, orEight avgDegree = Infinity s ∧ avgDegree = Infinity s)
  ∨ (∃ a, orEight avgDegree = Finite a ∧ avgDegree = Finite a).
Proof.
  destruct avgDegree as [|s|a]; cbn; [by left | right; left; eauto |].
  destruct (Qeq_bool a 0); [by left | right; right; eauto].
Qed.

(** X18.  Whatever numbers [generateGraph] is given, [NaN] and the
    infinities included, the edge probability it hands to the generator is
    [NaN] exactly when [nodes] is [NaN], or [nodes] is [Infinity] and
    [avgDegree] is infinite; in every other case it is a number between 0
    and 0.999.  An [avgDegree] of 0 or [NaN] counts as 8.  For a finite
    [nodes] of at least 2 and an [avgDegree] that is not 0, the probability
    is [avgDegree / (nodes - 1)] whenever that quotient lies between 0 and
    0.999. *)
Theorem probability_is_a_probability nodes avgDegree :
  (probability nodes avgDegree = NotANumber
   ↔ nodes = NotANumber
     ∨ (nodes = Infinity false ∧ ∃ s, avgDegree = Infinity s))
  ∧ (∀ s, probability nodes avgDegree ≠ Infinity s)
  ∧ (∀ p, probability nodes avgDegree = Finite p → (0 <= p)%Q ∧ (p <= 999 # 1000)%Q)
  ∧ (avgDegree = NotANumber ∨ (∃ a, avgDegree = Finite a ∧ (a == 0)%Q) →
     probability nodes avgDegree = probability nodes (Finite 8))
  ∧ (∀ n a,
       nodes = Finite n → avgDegree = Finite a →
       (2 <= n)%Q → ¬ (a == 0)%Q →
       (0 <= a / (n - 1))%Q → (a / (n - 1) <= 999 # 1000)%Q →
       ∃ p, probability nodes avgDegree = Finite p ∧ (p == a / (n - 1))%Q).
Proof.
  split_and!.
  - unfold probability. split.
    + destruct nodes as [|[|]|n]; [by left | | |].
      * destruct (orEight_cases avgDegree) as [->|[(s & -> & _)|(a & -> & _)]];
          cbn; try done. by destruct s.
      * destruct (orEight_cases avgDegree) as [->|[(s & -> & E)|(a & -> & _)]];
          cbn; try done. intros _. right. eauto.
      * destruct (orEight_cases avgDegree) as [->|[(s & -> & _)|(a & -> & _)]];
          cbn; try done. by destruct s.
    + intros [->|[-> (s & ->)]]; [|done].
      by destruct (orEight avgDegree).
  - intros s. unfold probability.
    by destruct (quotient _ _) as [|[|]|x].
  - intros p. apply clampProbability_bounds.
  - unfold probability. intros [->|(a & -> & Ha)]; [done|].
    cbn [orEight]. apply Qeq_bool_iff in Ha. by rewrite Ha.
  - intros n a -> -> Hn Ha Hlo Hhi. unfold probability. cbn [orEight divisor].
    assert (Qeq_bool a 0 = false) as ->.
    { destruct (Qeq_bool a 0) eqn:E; [|done]. by apply Qeq_bool_iff in E. }
    cbn [quotient clampProbability]. eexists. split; [done|].
    assert (1 <= n - 1)%Q as H1.
    { apply Qle_minus_iff. apply Qle_minus_iff in Hn.
      assert (n - 1 + - 1 == n + - 2)%Q as -> by ring. done. }
    rewrite (Q.max_r 1 (n - 1)) by done.
    rewrite (Q.max_r 0 (a / (n - 1))) by done.
    by apply Q.min_r.
Qed.

(** [generateGraph({nodes: 17, avgDegree: 0})] divides 8 by 16, and
    [generateGraph({nodes: Infinity, avgDegree: Infinity})] has no
    probability. *)
Example probability_at_the_edges :
  (∃ p, probability (Finite 17) (Finite 0) = Finite p ∧ (p == 1 # 2)%Q)
  ∧ probability (Infinity false) (Infinity false) = NotANumber.
Proof. split; [|reflexivity]. eexists. split; [reflexivity|]. vm_compute. reflexivity. Qed.

Lemma parseArgs_flags_only_acc parts (args : gmap string ArgVal) :
  Forall (λ part, Spec.free "=" part) parts →
  (∀ k v, args !! k = Some v → v = Flag) →
  ∀ k v, foldl (λ args part,
           match splitBy isEq part with
           | key :: vals =>
               if negb (truthy key) then args
               else setArg (stripDashes key)
                      (match vals with [] => Flag | val :: _ => Str val end) args
           | [] => args
           end) args parts !! k = Some v → v = Flag.
Proof.
  intros Hparts. revert args. induction Hparts as [|part parts Hp _ IH]; intros args Hargs.
  { exact Hargs. }
  cbn [foldl]. apply IH. rewrite (ArgvFacts.splitBy_free _ Hp).
  destruct (negb (truthy part)); [done|].
  intros k v. rewrite TsvToGraphCliFacts.lookup_setArg.
  case_bool_decide; [by intros [= <-] | apply Hargs].
Qed.

(** X19.  In [generate-graph.js] a flag takes its value from its own token
    only: on a command line whose tokens hold no [=] every key read is set
    to [true], so that [--nodes 500] asks for [Number(true)], one node. *)
Theorem flags_without_equals_are_true (Number : string → jsnum) parts :
  Forall (λ part, Spec.free "=" part) parts →
  (∀ k v, parseArgs parts !! k = Some v → v = Flag)
  ∧ (nodesOf Number (parseArgs parts) = Num 1 ∨ nodesOf Number (parseArgs parts) = Num 2000).
Proof.
  intros Hparts.
  assert (∀ k v, parseArgs parts !! k = Some v → v = Flag) as Hflag.
  { apply parseArgs_flags_only_acc; [done|]. intros k v. by rewrite lookup_empty. }
  split; [done|]. unfold nodesOf, numOr, either.
  destruct (parseArgs parts !! "nodes") as [v|] eqn:E1; cbn [truthyVal].
  - rewrite (Hflag _ _ E1). by left.
  - destruct (parseArgs parts !! "n") as [v|] eqn:E2; cbn [truthyVal].
    + rewrite (Hflag _ _ E2). by left.
    + by right.
Qed.

Lemma flags_without_equals_are_true_witness :
  nodesOf Sample.decimal (parseArgs ["--nodes"; "500"]) = Num 1
  ∨ nodesOf Sample.decimal (parseArgs ["--nodes"; "500"]) = Num 2000.
Proof.
  apply (flags_without_equals_are_true Sample.decimal ["--nodes"; "500"]).
  repeat constructor; cbn; repeat split; done.
Defined.

Example nodes_flag_with_a_space :
  nodesOf Sample.decimal (parseArgs ["--nodes"; "500"]) = Num 1
  ∧ nodesOf Sample.decimal (parseArgs ["--nodes=500"]) = Num 500.
Proof. split; reflexivity. Qed.

End GenerateFacts.

(** ** [PathwayNeighborGraph] *)

Module NeighborFacts.
Import Js JsFacts DatasetSpec PathwayNeighborGraph.

Lemma labelToId_ids d k i : labelToId d !! k = Some i → i ∈ ids d.
Proof.
  unfold labelToId, ids.
  assert (∀ ns (m : gmap string string),
            (∀ k i, m !! k = Some i → i ∈ Dataset.id <$> Dataset.nodes d) →
            (∀ n, n ∈ ns → n ∈ Dataset.nodes d) →
            ∀ k i, foldl (λ m n, if truthy (Dataset.label n)
                                 then <[toLowerCase (Dataset.label n) := Dataset.id n]> m
                                 else m) m ns !! k = Some i →
                   i ∈ Dataset.id <$> Dataset.nodes d) as H.
  { induction ns as [|n ns IH]; intros m Hm Hns; [exact Hm|].
    cbn [foldl]. apply IH; [|intros n' Hn'; apply Hns; by right].
    destruct (truthy (Dataset.label n)); [|done].
    intros k' i'. destruct (decide (toLowerCase (Dataset.label n) = k')) as [<-|Hne].
    - rewrite lookup_insert_eq. intros [= <-]. apply list_elem_of_fmap.
      exists n. split; [done|]. apply Hns. by left.
    - rewrite lookup_insert_ne by done. apply Hm. }
  apply H; [|done]. intros k' i'. by rewrite lookup_empty.
Qed.

Lemma idOf_ids d s i : idOf d s = Some i → i ∈ ids d.
Proof.
  unfold idOf.
  assert (∀ p, Dataset.id <$> List.find p (Dataset.nodes d) = Some i → i ∈ ids d) as Hfind.
  { intros p. destruct (List.find p (Dataset.nodes d)) as [n|] eqn:E; [|done].
    intros [= <-]. apply find_some in E as [Hin _].
    apply list_elem_of_fmap. exists n. split; [done|]. by apply list_elem_of_In. }
  destruct (labelToId d !! toLowerCase s) as [j|] eqn:E; [|apply Hfind].
  destruct (truthy j); [|apply Hfind]. intros [= <-]. by eapply labelToId_ids.
Qed.

Lemma proteins_are_nodes d syms i : i ∈ proteinSet d syms → i ∈ ids d.
Proof.
  unfold proteinSet, proteinNodeIds. rewrite elem_of_list_to_set, list_elem_of_omap.
  intros (s & _ & Hs). destruct (idOf d s) as [j|] eqn:E; [|done].
  destruct (truthy j); [|done]. injection Hs as <-. by eapply idOf_ids.
Qed.

Lemma nodeSet_spec d syms k :
  k ∈ nodeSet d syms
  ↔ k ∈ proteinSet d syms
    ∨ ∃ e, e ∈ Dataset.edges d
           ∧ ((Dataset.source e ∈ proteinSet d syms ∧ Dataset.target e = k)
              ∨ (Dataset.target e ∈ proteinSet d syms ∧ Dataset.source e = k)).
Proof.
  unfold nodeSet. set (P := proteinSet d syms).
  assert (∀ es (acc : gset string) k,
            k ∈ foldl (λ acc e,
                         let acc1 := if bool_decide (Dataset.source e ∈ P)
                                     then {[Dataset.target e]} ∪ acc else acc in
                         if bool_decide (Dataset.target e ∈ P)
                         then {[Dataset.source e]} ∪ acc1 else acc1) acc es
            ↔ k ∈ acc
              ∨ ∃ e, e ∈ es
                     ∧ ((Dataset.source e ∈ P ∧ Dataset.target e = k)
                        ∨ (Dataset.target e ∈ P ∧ Dataset.source e = k))) as H;
    [|apply H].
  clear k. induction es as [|e es IH]; intros acc k; cbn [foldl].
  - split; [by left|]. intros [?|(e & ?%elem_of_nil & _)]; done.
  - rewrite IH. clear IH. cbv zeta. split.
    + intros [Hk|(e' & He' & H)]; [|right; exists e'; split; [by right | done]].
      repeat case_bool_decide; rewrite ?elem_of_union, ?elem_of_singleton in Hk.
      * destruct Hk as [->|[->|?]]; [right; exists e; split; [by left | tauto]..|by left].
      * destruct Hk as [->|?]; [right; exists e; split; [by left | tauto]|by left].
      * destruct Hk as [->|?]; [right; exists e; split; [by left | tauto]|by left].
      * by left.
    + intros [Hk|(e' & [->|He']%elem_of_cons & H)].
      * left. repeat case_bool_decide; rewrite ?elem_of_union; tauto.
      * left. destruct H as [[Hs <-]|[Ht <-]].
        -- rewrite (bool_decide_eq_true_2 _ Hs).
           case_bool_decide; rewrite !elem_of_union, !elem_of_singleton; tauto.
        -- rewrite (bool_decide_eq_true_2 _ Ht).
           rewrite !elem_of_union, !elem_of_singleton; tauto.
      * right. eauto.
Qed.

Lemma elem_of_node_ids d syms k :
  k ∈ id <$> nodes d syms ↔ k ∈ ids d ∧ k ∈ nodeSet d syms.
Proof.
  unfold nodes, ids. rewrite <-list_fmap_compose. split.
  - intros (n & -> & Hn)%list_elem_of_fmap. apply list_elem_of_filter in Hn as [Hs Hn].
    split; [|done]. apply list_elem_of_fmap. eauto.
  - intros [(n & -> & Hn)%list_elem_of_fmap Hs]. apply list_elem_of_fmap.
    exists n. split; [done|]. by apply list_elem_of_filter.
Qed.

(** What cytoscape is handed, for a well-formed dataset. *)
Lemma elements_closed d syms :
  wellFormed d →
  NoDup (id <$> nodes d syms)
  ∧ NoDup (eid <$> edges d syms)
  ∧ (∀ el, el ∈ edges d syms →
       source el ∈ id <$> nodes d syms ∧ target el ∈ id <$> nodes d syms)
  ∧ (∀ nd, nd ∈ nodes d syms →
       isProtein nd = true
       ∨ ∃ el, el ∈ edges d syms
               ∧ ((source el ∈ proteinSet d syms ∧ target el = id nd)
                  ∨ (target el ∈ proteinSet d syms ∧ source el = id nd)))
  ∧ (∀ i, i ∈ proteinNodeIds d syms → i ∈ id <$> nodes d syms)
  ∧ (∀ k, k ∈ newNodeSet d syms → k ∈ id <$> nodes d syms).
Proof.
  intros [_ _ Hids Heids Heid Hends _ _].
  assert (∀ e, e ∈ edgesRaw d syms →
            Dataset.source e ∈ id <$> nodes d syms
            ∧ Dataset.target e ∈ id <$> nodes d syms) as Hraw.
  { intros e [HP He]%list_elem_of_filter. destruct (Hends e He) as [Hs Ht].
    rewrite !elem_of_node_ids, !nodeSet_spec. split; (split; [done|]).
    - destruct HP as [HP|HP]; [by left|]. right. exists e. split; [done|]. by right.
    - destruct HP as [HP|HP]; [|by left]. right. exists e. split; [done|]. by left. }
  split_and!.
  - unfold nodes. rewrite <-list_fmap_compose.
    change (NoDup (Dataset.id <$> filter (λ n, Dataset.id n ∈ nodeSet d syms) (Dataset.nodes d))).
    eapply sublist_NoDup; [exact Hids | apply fmap_sublist, sublist_filter].
  - unfold edges. rewrite <-list_fmap_compose.
    assert (Viewer.loadKey <$> edgesRaw d syms = Dataset.eid <$> edgesRaw d syms) as E.
    { apply list_fmap_ext. intros i e He. unfold Viewer.loadKey.
      rewrite Heid; [done|].
      apply list_elem_of_lookup_2 in He. by apply list_elem_of_filter in He as [_ He]. }
    change (NoDup (Viewer.loadKey <$> edgesRaw d syms)). rewrite E.
    eapply sublist_NoDup; [exact Heids | apply fmap_sublist, sublist_filter].
  - intros el (e & -> & He)%list_elem_of_fmap. by apply Hraw.
  - intros nd (n & -> & Hn)%list_elem_of_fmap. cbn [isProtein id].
    apply list_elem_of_filter in Hn as [Hs Hn]. apply nodeSet_spec in Hs as [HP|(e & He & H)].
    + left. by apply bool_decide_eq_true_2.
    + right. eexists. split.
      * apply list_elem_of_fmap. exists e. split; [done|].
        apply list_elem_of_filter. split; [tauto | done].
      * done.
  - intros i Hi. assert (i ∈ proteinSet d syms) as HP by (by apply elem_of_list_to_set).
    apply elem_of_node_ids. split; [by eapply proteins_are_nodes|].
    apply nodeSet_spec. by left.
  - intros k. unfold newNodeSet.
    assert (∀ es (acc : gset string),
              (∀ e, e ∈ es → e ∈ edgesRaw d syms) →
              (∀ k, k ∈ acc → k ∈ id <$> nodes d syms) →
              ∀ k, k ∈ foldl (λ acc (e : Dataset.Edge),
                                if TsvToGraph.isNone (Dataset.edgeAllDBs e)
                                then {[Dataset.target e]} ∪ ({[Dataset.source e]} ∪ acc)
                                else acc) acc es →
                   k ∈ id <$> nodes d syms) as H.
    { induction es as [|e es IH]; intros acc Hes Hacc; [exact Hacc|].
      cbn [foldl]. apply IH; [intros e' He'; apply Hes; by right|].
      destruct (TsvToGraph.isNone _); [|done].
      intros k'. rewrite !elem_of_union, !elem_of_singleton.
      destruct (Hraw e) as [Hs Ht]; [apply Hes; by left|].
      intros [->|[->|?]]; auto. }
    apply H; [done|]. intros k' ?%not_elem_of_empty. done.
Qed.

(** X20.  For the dataset a run writes and any list of symbols, what
    [PathwayNeighborGraph] hands cytoscape is closed: no node id and no
    edge id twice, every edge between two of the nodes handed over, every
    node a protein found or the other end of an edge at one, and every
    protein found and every node marked new among the nodes. *)
Theorem neighbour_graph_is_closed (Number : string → jsnum) args lines syms :
  ∃ d,
    TsvToGraph.written (TsvToGraph.run Number args (TsvToGraph.InputLines lines)) = [d]
    ∧ NoDup (id <$> nodes d syms)
    ∧ NoDup (eid <$> edges d syms)
    ∧ (∀ el, el ∈ edges d syms →
         source el ∈ id <$> nodes d syms ∧ target el ∈ id <$> nodes d syms)
    ∧ (∀ nd, nd ∈ nodes d syms →
         isProtein nd = true
         ∨ ∃ el, el ∈ edges d syms
                 ∧ ((source el ∈ proteinSet d syms ∧ target el = id nd)
                    ∨ (target el ∈ proteinSet d syms ∧ source el = id nd)))
    ∧ (∀ i, i ∈ proteinNodeIds d syms → i ∈ id <$> nodes d syms)
    ∧ (∀ k, k ∈ newNodeSet d syms → k ∈ id <$> nodes d syms).
Proof.
  unfold TsvToGraph.run.
  pose proof (IngestFacts.run_acc_ok Number args lines) as Hok.
  destruct (DatasetFacts.defaultView_wellFormed args _ Hok) as (d & -> & Hd).
  exists d. split; [done|]. by apply elements_closed.
Qed.

End NeighborFacts.

(** ** Edge deduplication *)

Module PairFacts.
Import Js JsFacts TsvToGraph Spec DatasetSpec DedupSpec.
Import IngestFacts AssembleFacts ExportFacts DefaultViewFacts.

Lemma pairOf_sym a b : pairOf false a b = pairOf false b a.
Proof.
  unfold pairOf.
  destruct (lt a b) eqn:Hab, (lt b a) eqn:Hba; try done.
  - apply lt_asym in Hab. congruence.
  - by rewrite (lt_total a b Hab Hba).
Qed.

Lemma edgeKey_pairOf directed a b :
  edgeKey directed a b
  = (pairOf directed a b).1 +:+ (if directed then "->" else "|") +:+ (pairOf directed a b).2.
Proof. unfold edgeKey, pairOf. destruct directed; [done|]. by destruct (lt a b). Qed.

Lemma arrow_inj a b a' b' :
  includes a "->" = false → includes a' "->" = false →
  a +:+ "->" +:+ b = a' +:+ "->" +:+ b' → a = a' ∧ b = b'.
Proof.
  assert (∀ c s t, String c s +:+ t = String c (s +:+ t)) as Hcons by done.
  assert (∀ t, "" +:+ t = t) as Hnil by done.
  revert a'. induction a as [|c a IH]; intros [|c' a'] Ha Ha'.
  - rewrite !Hnil, !Hcons, !Hnil. by intros [= ->].
  - rewrite !Hnil, !Hcons, !Hnil. intros [= <- E]. exfalso.
    destruct a' as [|c2 a']; [by rewrite Hnil in E|].
    rewrite Hcons in E. injection E as <- _. cbn in Ha'. discriminate.
  - rewrite !Hnil, !Hcons, !Hnil. intros [= -> E]. exfalso.
    destruct a as [|c2 a]; [by rewrite Hnil in E|].
    rewrite Hcons in E. injection E as -> _. cbn in Ha. discriminate.
  - rewrite !Hcons. intros [= <- E].
    cbn [includes] in Ha, Ha'.
    apply orb_false_iff in Ha as [_ Ha]. apply orb_false_iff in Ha' as [_ Ha'].
    by destruct (IH a' Ha Ha' E) as [-> ->].
Qed.

Lemma pair_of_key directed a b a' b' :
  sepFree directed a → sepFree directed b →
  sepFree directed a' → sepFree directed b' →
  edgeKey directed a b = edgeKey directed a' b' ↔ pairOf directed a b = pairOf directed a' b'.
Proof.
  intros Ha Hb Ha' Hb'. split.
  - destruct directed.
    + cbn in *. intros E. by apply arrow_inj in E as [-> ->].
    + cbn in Ha, Hb, Ha', Hb'. intros E.
      apply edgeKey_undirected_inj in E as [[-> ->]|[-> ->]]; try done.
      apply pairOf_sym.
  - intros E. by rewrite !edgeKey_pairOf, E.
Qed.

Section KeepFirstBy.
Context {A K : Type} `{EqDecision K} (keyOf : A → string) (pairKey : A → K).

Lemma keepFirst_by (l : list A) :
  (∀ x y, x ∈ l → y ∈ l → keyOf x = keyOf y ↔ pairKey x = pairKey y) →
  keepFirst keyOf l = keepFirstBy pairKey l.
Proof.
  induction l as [|r rest IH]; intros H; [done|]. cbn [keepFirst keepFirstBy].
  rewrite <-IH by (intros x y Hx Hy; apply H; by right). f_equal.
  apply LoadFacts.filter_ext_in. intros x Hx.
  apply elem_of_keepFirst in Hx.
  rewrite (H x r); [done | by right | by left].
Qed.

End KeepFirstBy.

Section WithNumber.
Context (Number : string → jsnum).

(** With the header known, the loop feeds [ingestRow] the lines it looks
    at, up to the limit. *)
Lemma ingest_rows args c lines row acc :
  ingest Number args lines (Some c) row acc
  = (Some c,
     foldl (λ acc line, ingestRow Number c line acc) acc
       (rowsRead (limit args) row (filter (λ l, Is_true (significant l)) lines))).
Proof.
  revert row acc. induction lines as [|line rest IH]; intros row acc.
  - cbn [ingest]. rewrite filter_nil. unfold rowsRead.
    destruct (limit args); [by rewrite take_nil | done].
  - cbn [ingest].
    destruct (truthy line) eqn:Ht; cbn [negb].
    + destruct (startsWith "#" line) eqn:Hc.
      * rewrite filter_cons_False by (unfold significant; rewrite Ht, Hc; cbn; tauto).
        apply IH.
      * rewrite filter_cons_True by (unfold significant; by rewrite Ht, Hc).
        unfold rowsRead, overLimit.
        destruct (limit args) as [n|] eqn:Hn.
        -- destruct (n <? S row)%nat eqn:E.
           ++ apply Nat.ltb_lt in E. by replace (n - row)%nat with 0%nat by lia.
           ++ apply Nat.ltb_ge in E. rewrite IH. unfold rowsRead.
              replace (n - row)%nat with (S (n - S row)) by lia. done.
        -- by rewrite IH.
    + rewrite filter_cons_False by (unfold significant; rewrite Ht; cbn; tauto).
      apply IH.
Qed.

(** Until the header is found nothing is accumulated; from there on the
    lines are data rows. *)
Lemma ingest_header args lines row acc :
  is_Some (ingest Number args lines None row acc).1 →
  ∃ c post, ∀ more,
    ingest Number args (lines ++ more) None row acc
    = ingest Number args (post ++ more) (Some c) row acc.
Proof.
  induction lines as [|line rest IH]; cbn [ingest].
  - by intros [? ?].
  - destruct (negb (truthy line)) eqn:E1.
    { intros H. destruct (IH H) as (c & post & Hc). exists c, post.
      intros more. rewrite <-app_comm_cons. cbn [ingest]. rewrite E1. apply Hc. }
    destruct (startsWith "#" line) eqn:E2.
    { intros H. destruct (IH H) as (c & post & Hc). exists c, post.
      intros more. rewrite <-app_comm_cons. cbn [ingest]. rewrite E1, E2. apply Hc. }
    destruct (detectHeader args line) as [c|] eqn:E3.
    + intros _. exists c, rest. intros more.
      rewrite <-app_comm_cons. cbn [ingest]. by rewrite E1, E2, E3.
    + intros H. destruct (IH H) as (c & post & Hc). exists c, post.
      intros more. rewrite <-app_comm_cons. cbn [ingest]. rewrite E1, E2, E3. apply Hc.
Qed.

(** The raw edge a data row appends does not depend on what has been
    accumulated. *)
Lemma ingestRow_raw c :
  ∃ f : string → list RawEdge, ∀ line acc,
    edgesRaw (ingestRow Number c line acc) = edgesRaw acc ++ f line.
Proof.
  exists (λ line, edgesRaw (ingestRow Number c line emptyAcc)).
  intros line acc. unfold ingestRow.
  destruct (negb (truthy _) || negb (truthy _)); cbn [edgesRaw emptyAcc].
  - by rewrite app_nil_r.
  - done.
Qed.

Lemma foldl_ingestRow_raw c (f : string → list RawEdge) ls acc :
  (∀ line acc, edgesRaw (ingestRow Number c line acc) = edgesRaw acc ++ f line) →
  edgesRaw (foldl (λ acc line, ingestRow Number c line acc) acc ls)
  = edgesRaw acc ++ (ls ≫= f).
Proof.
  intros Hf. revert acc. induction ls as [|l ls IH]; intros acc; cbn [foldl].
  - by rewrite app_nil_r.
  - rewrite IH, Hf. cbn. by rewrite <-(assoc_L (++)).
Qed.

End WithNumber.

(** A block fed twice in a row is read to the same set of rows as the block
    fed once, whatever the limit. *)
Lemma rowsRead_twice lim (P D : list string) x :
  x ∈ rowsRead lim 0 (P ++ D ++ D) ↔ x ∈ rowsRead lim 0 (P ++ D).
Proof.
  unfold rowsRead. destruct lim as [n|].
  - rewrite Nat.sub_0_r, (assoc_L (++)).
    destruct (decide (n ≤ length (P ++ D))%nat) as [Hle|Hgt].
    + by rewrite take_app_le.
    + rewrite take_app_ge by lia. rewrite (take_ge (P ++ D)) by lia.
      rewrite !elem_of_app. split; [|tauto].
      intros [?|Hx%elem_of_take]; [done|]. destruct Hx as (i & Hx & _).
      apply list_elem_of_lookup_2 in Hx. tauto.
  - rewrite !elem_of_app. tauto.
Qed.

Section Counting.
Context {A K : Type} `{Countable K} (pairKey : A → K).

Lemma elem_of_keys_keepFirstBy k (l : list A) :
  k ∈ pairKey <$> keepFirstBy pairKey l ↔ k ∈ pairKey <$> l.
Proof.
  induction l as [|r rest IH]; simpl; [done|].
  rewrite !elem_of_cons, <-IH, !list_elem_of_fmap.
  split.
  - intros [->|(x & -> & Hx)]; [by left|].
    apply list_elem_of_filter in Hx as [_ Hx]. right. eauto.
  - intros [->|(x & -> & Hx)]; [by left|].
    destruct (decide (pairKey x = pairKey r)) as [E|E]; [by left|].
    right. exists x. split; [done|]. by apply list_elem_of_filter.
Qed.

Lemma NoDup_keys_keepFirstBy (l : list A) : NoDup (pairKey <$> keepFirstBy pairKey l).
Proof.
  induction l as [|r rest IH]; simpl; [constructor|].
  constructor.
  - rewrite list_elem_of_fmap. intros (x & E & Hx).
    apply list_elem_of_filter in Hx as [Hx _]. congruence.
  - apply (sublist_NoDup _ _ IH), fmap_sublist, sublist_filter.
Qed.

Lemma length_keepFirstBy (l : list A) :
  length (keepFirstBy pairKey l) = size (list_to_set (pairKey <$> l) : gset K).
Proof.
  rewrite <-(length_fmap pairKey (keepFirstBy pairKey l)).
  rewrite <-(size_list_to_set (C := gset K)) by apply NoDup_keys_keepFirstBy.
  f_equal. apply set_eq. intros k.
  by rewrite !elem_of_list_to_set, elem_of_keys_keepFirstBy.
Qed.

End Counting.

(** C1, as the code has it by design.  A row that lists (A,B) and one that
    lists (B,A) stand for the same pair in undirected mode.  The run fails
    on no table; when no id of the table holds the separator of the key,
    the edges of the dataset are the rows that come first for their
    endpoint pair, with the attributes of that row, and their number is the
    number of distinct pairs.  Once the header line has been read, a block
    of lines fed twice in a row gives as many edges as the block fed once,
    whatever the row limit. *)
Theorem C1_edges_deduplicated_by_pair (Number : string → jsnum) args lines :
  (∀ a b, pairOf false a b = pairOf false b a)
  ∧ (∃ d,
       defaultView args (ingest Number args lines None 0 emptyAcc).2 = Some d
       ∧ (Forall (λ r, sepFree (directed args) (ra r) ∧ sepFree (directed args) (rb r))
            (edgesRaw (ingest Number args lines None 0 emptyAcc).2) →
          Dataset.edges d
          = edgeOfRow (directed args)
            <$> keepFirstBy (λ r, pairOf (directed args) (ra r) (rb r))
                  (edgesRaw (ingest Number args lines None 0 emptyAcc).2)
          ∧ length (Dataset.edges d)
            = size (list_to_set
                      ((λ r, pairOf (directed args) (ra r) (rb r))
                       <$> edgesRaw (ingest Number args lines None 0 emptyAcc).2)
                    : gset (string * string))))
  ∧ (is_Some (ingest Number args lines None 0 emptyAcc).1 →
     ∀ data, ∃ d1 d2,
       defaultView args (ingest Number args (lines ++ data) None 0 emptyAcc).2 = Some d1
       ∧ defaultView args (ingest Number args (lines ++ data ++ data) None 0 emptyAcc).2
         = Some d2
       ∧ length (Dataset.edges d2) = length (Dataset.edges d1)).
Proof.
  assert (∀ ls, ∃ d,
       defaultView args (ingest Number args ls None 0 emptyAcc).2 = Some d
       ∧ Dataset.edges d
         = edgeOfRow (directed args)
           <$> keepFirst (λ r, edgeKey (directed args) (ra r) (rb r))
                 (edgesRaw (ingest Number args ls None 0 emptyAcc).2)
       ∧ length (Dataset.edges d)
         = size (list_to_set
                   ((λ r, edgeKey (directed args) (ra r) (rb r))
                    <$> edgesRaw (ingest Number args ls None 0 emptyAcc).2)
                 : gset string)) as Hview.
  { intros ls.
    destruct (defaultView_spec args _ (run_acc_ok Number args ls))
      as (d & Hd & _ & He & _).
    exists d. split_and!; try done.
    by rewrite He, length_fmap, length_keepFirst. }
  split_and!.
  - apply pairOf_sym.
  - destruct (Hview lines) as (d & Hd & He & _). exists d. split; [done|].
    intros Hfree. rewrite Forall_forall in Hfree.
    assert (keepFirst (λ r, edgeKey (directed args) (ra r) (rb r))
              (edgesRaw (ingest Number args lines None 0 emptyAcc).2)
            = keepFirstBy (λ r, pairOf (directed args) (ra r) (rb r))
                (edgesRaw (ingest Number args lines None 0 emptyAcc).2)) as E.
    { apply keepFirst_by. intros x y Hx Hy.
      destruct (Hfree x Hx), (Hfree y Hy). by apply pair_of_key. }
    rewrite He, E. split; [done|].
    by rewrite length_fmap, length_keepFirstBy.
  - intros Hhdr data.
    destruct (Hview (lines ++ data)) as (d1 & Hd1 & _ & Hn1).
    destruct (Hview (lines ++ data ++ data)) as (d2 & Hd2 & _ & Hn2).
    exists d1, d2. split_and!; try done.
    rewrite Hn1, Hn2. f_equal.
    destruct (ingest_header Number args lines 0 emptyAcc Hhdr) as (c & post & Hc).
    rewrite !Hc, !ingest_rows. cbn [snd].
    destruct (ingestRow_raw Number c) as (f & Hf).
    rewrite !(foldl_ingestRow_raw Number c f) by done.
    rewrite !filter_app.
    apply set_eq. intros k.
    rewrite !elem_of_list_to_set, !list_elem_of_fmap.
    split; intros (r & -> & Hr); exists r; (split; [done|]);
      cbn [edgesRaw emptyAcc app] in Hr |- *;
      apply list_elem_of_bind in Hr as (l & Hr & Hl);
      apply list_elem_of_bind; exists l; (split; [done|]);
      by apply rowsRead_twice.
Qed.

Lemma C1_witness :
  (∃ d,
     defaultView defaultArgs
       (ingest Sample.decimal defaultArgs
          [Sample.headerLine;
           Sample.tsv ["p1"; "p2"; "dbX"; "0.9"]; Sample.tsv ["p2"; "p1"; "none"; "0.2"]]
          None 0 emptyAcc).2
     = Some d
     ∧ length (Dataset.edges d) = 1%nat)
  ∧ ∃ d1 d2,
      defaultView defaultArgs
        (ingest Sample.decimal defaultArgs
           ([Sample.headerLine]
            ++ [Sample.tsv ["p1"; "p2"; "dbX"; "0.9"]; Sample.tsv ["p2"; "p1"; "none"; "0.2"]])
           None 0 emptyAcc).2
      = Some d1
      ∧ defaultView defaultArgs
          (ingest Sample.decimal defaultArgs
             ([Sample.headerLine]
              ++ [Sample.tsv ["p1"; "p2"; "dbX"; "0.9"]; Sample.tsv ["p2"; "p1"; "none"; "0.2"]]
              ++ [Sample.tsv ["p1"; "p2"; "dbX"; "0.9"]; Sample.tsv ["p2"; "p1"; "none"; "0.2"]])
             None 0 emptyAcc).2
        = Some d2
      ∧ length (Dataset.edges d2) = length (Dataset.edges d1).
Proof.
  split.
  - destruct (C1_edges_deduplicated_by_pair Sample.decimal defaultArgs
                [Sample.headerLine;
                 Sample.tsv ["p1"; "p2"; "dbX"; "0.9"];
                 Sample.tsv ["p2"; "p1"; "none"; "0.2"]])
      as (_ & (d & Hd & Hpairs) & _).
    exists d. split; [exact Hd|].
    destruct Hpairs as [_ ->]; [|vm_compute; reflexivity].
    vm_compute. repeat constructor; discriminate.
  - apply (C1_edges_deduplicated_by_pair Sample.decimal defaultArgs [Sample.headerLine]).
    vm_compute. eexists. reflexivity.
Defined.

(** C1 as stated fails for a table fed twice: the header line, met a
    second time, is read as a data row and gives an edge between the two
    column names. *)
Lemma C1_counterexample :
  ∃ d1 d2,
    written (run Sample.decimal defaultArgs
               (InputLines [Sample.headerLine; Sample.tsv ["p1"; "p2"; "dbX"; "0.9"]]))
    = [d1]
    ∧ written (run Sample.decimal defaultArgs
                 (InputLines ([Sample.headerLine; Sample.tsv ["p1"; "p2"; "dbX"; "0.9"]]
                              ++ [Sample.headerLine; Sample.tsv ["p1"; "p2"; "dbX"; "0.9"]])))
      = [d2]
    ∧ length (Dataset.edges d1) = 1%nat
    ∧ length (Dataset.edges d2) = 2%nat
    ∧ (Dataset.source <$> Dataset.edges d2) = ["p1"; "protein1"]
    ∧ (Dataset.target <$> Dataset.edges d2) = ["p2"; "protein2"].
Proof. do 2 eexists. split_and!; vm_compute; reflexivity. Qed.

(** The key is a string, and an id that holds the separator can make two
    pairs share one: the rows
    ([a|b], [c]) and ([a], [b|c]) join different pairs of proteins, and the
    second is dropped as a duplicate of the first. *)
Example separator_in_an_id_merges_two_pairs :
  ∃ d r1 r2,
    written (run Sample.decimal defaultArgs
               (InputLines [Sample.headerLine;
                            Sample.tsv ["a|b"; "c"];
                            Sample.tsv ["a"; "b|c"]])) = [d]
    ∧ edgesRaw (ingest Sample.decimal defaultArgs
                  [Sample.headerLine; Sample.tsv ["a|b"; "c"]; Sample.tsv ["a"; "b|c"]]
                  None 0 emptyAcc).2 = [r1; r2]
    ∧ (ra r2, rb r2) ≠ (ra r1, rb r1)
    ∧ (ra r2, rb r2) ≠ (rb r1, ra r1)
    ∧ ¬ ∃ e, e ∈ Dataset.edges d
             ∧ ((Dataset.source e = ra r2 ∧ Dataset.target e = rb r2)
                ∨ (Dataset.source e = rb r2 ∧ Dataset.target e = ra r2)).
Proof.
  do 3 eexists. split; [vm_compute; reflexivity|].
  split; [vm_compute; reflexivity|].
  cbn [ra rb Dataset.edges]. split_and!; try discriminate.
  intros (e & He & H). apply list_elem_of_singleton in He as ->.
  cbn in H. destruct H as [[? _]|[? _]]; discriminate.
Qed.

End PairFacts.

(** ** The totals the confidence slider reports *)

Module ControlFacts.
Import Js TsvToGraph Viewer ViewerControls.

(** C6, where the code departs from it.  On the dataset of three
    interactions that all score 0.3, the slider is moved to 0.96, then to
    0.2, then to 0.5.  After the move to 0.2 the panel shows no
    interaction, after the move up to 0.5 it shows three: each move reports
    the count of the floor before it.  At the floor 0.5 itself no
    interaction passes. *)
Theorem C6_raised_floor_reports_more_edges :
  ∃ d g blue,
    written (run Sample.decimal defaultArgs (InputLines flatScores)) = [d]
    ∧ load (λ _, (0%Q, 0%Q)) (ViewerInit.initFilters d) d = Some (g, blue)
    ∧ let p1 := confidenceChanged blue g (96 # 100) (loaded d) in
      let p2 := confidenceChanged blue g (2 # 10) p1 in
      let p3 := confidenceChanged blue g (5 # 10) p2 in
      (confidenceRef p2 < confidenceRef p3)%Q
      ∧ edgesTotal (totals p2) = 0%nat
      ∧ edgesTotal (totals p3) = 3%nat
      ∧ edgesTotal (recomputeTotalsImmediate
                      {| thr := degreeThresholdRef p3;
                         onlyNew := showOnlyNewRef p3;
                         conf := confidenceRef p3 |} blue g) = 0%nat.
Proof.
  do 3 eexists. split; [vm_compute; reflexivity|].
  split; [vm_compute; reflexivity|].
  vm_compute. split_and!; reflexivity.
Qed.

End ControlFacts.
